(** * github-org-mirror: reconciliation engine and move-to-transfer pipeline

    A shallow embedding of [github_org_mirror] (utils.py, transfer.py,
    sync.py, watcher.py, config.py) together with the properties its
    specification states about it.

    Conventions of the embedding.
    - A Python [str] is a [string]; the text handled here (URLs, command
      replies, organisation and repository names) is taken to be ASCII.
    - A Python [dict] whose iteration order is observable is an association
      list in insertion order with unique keys ([PyDict]); a dict that is
      only looked up and assigned is a [gmap]; a [set] is a [gset].
    - A [pathlib.Path] is the list of its components below the root; all
      paths of the program are absolute ([Config] resolves [base_path]).
    - Wall-clock readings ([time.time()]) are rationals.
    - Code that talks to the outside (git, gh, the file system, the clock)
      runs in a state monad over a [World]: the clock and the history of
      every interaction together with its reply.  What the outside answers
      is given by an [Env] of oracles that may depend on the whole history. *)

From Stdlib Require Import ZArith QArith Lqa Lia List String Ascii Bool.
From Stdlib Require Import DecimalString.
From stdpp Require Import gmap strings.
Import ListNotations.

Local Open Scope list_scope.
Local Open Scope string_scope.

(** ** Python string operations *)

Module PyStr.

(** [s.startswith(p)] *)
Definition startswith (p s : string) : bool := String.prefix p s.

(** [s[n:]] for [n >= 0] *)
Fixpoint drop (n : nat) (s : string) : string :=
  match n, s with
  | O, _ => s
  | S _, EmptyString => EmptyString
  | S n', String _ s' => drop n' s'
  end.

(** [s[:n]] for [n >= 0] *)
Fixpoint take (n : nat) (s : string) : string :=
  match n, s with
  | O, _ => EmptyString
  | S _, EmptyString => EmptyString
  | S n', String c s' => String c (take n' s')
  end.

(** [s[:-n]] for [n > 0]: everything but the last [n] characters. *)
Definition drop_last (n : nat) (s : string) : string :=
  take (String.length s - n) s.

(** [s.endswith(p)] *)
Definition endswith (p s : string) : bool :=
  (String.length p <=? String.length s)%nat
  && String.eqb (drop (String.length s - String.length p) s) p.

(** [p in s] *)
Fixpoint contains (p s : string) : bool :=
  String.prefix p s
  || match s with
     | EmptyString => false
     | String _ s' => contains p s'
     end.

(** [s.split(sep)] for a non-empty [sep]: the pieces between the
    non-overlapping occurrences of [sep], scanned from the left.  [skip]
    counts the characters of a matched separator still to be passed,
    [cur] holds the current piece. *)
Fixpoint split_go (sep s : string) (skip : nat) (cur : string) : list string :=
  match s with
  | EmptyString => [cur]
  | String c s' =>
      match skip with
      | S k => split_go sep s' k cur
      | O =>
          if String.prefix sep s
          then cur :: split_go sep s' (String.length sep - 1) EmptyString
          else split_go sep s' 0 (cur ++ String c EmptyString)
      end
  end.

Definition split (sep s : string) : list string := split_go sep s 0 EmptyString.

(** [sep.join(l)] *)
Definition join (sep : string) (l : list string) : string := String.concat sep l.

Definition lower_ascii (c : ascii) : ascii :=
  let n := nat_of_ascii c in
  if ((65 <=? n) && (n <=? 90))%nat then ascii_of_nat (n + 32) else c.

(** [s.lower()] *)
Fixpoint lower (s : string) : string :=
  match s with
  | EmptyString => EmptyString
  | String c s' => String (lower_ascii c) (lower s')
  end.

(** The characters [str.strip()] removes: space, tab, line feed, vertical
    tab, form feed, carriage return and the four separators 0x1c-0x1f. *)
Definition is_space (c : ascii) : bool :=
  let n := nat_of_ascii c in
  (n =? 32)%nat || ((9 <=? n) && (n <=? 13))%nat || ((28 <=? n) && (n <=? 31))%nat.

Fixpoint lstrip (s : string) : string :=
  match s with
  | EmptyString => EmptyString
  | String c s' => if is_space c then lstrip s' else s
  end.

(** [rstrip]: a character is kept when it is no space or when something
    is kept after it. *)
Fixpoint rstrip (s : string) : string :=
  match s with
  | EmptyString => EmptyString
  | String c s' =>
      match rstrip s' with
      | EmptyString => if is_space c then EmptyString else String c EmptyString
      | r => String c r
      end
  end.

(** [s.strip()] *)
Definition strip (s : string) : string := rstrip (lstrip s).

(** Truth value of a string: [bool(s)]. *)
Definition truthy (s : string) : bool := negb (String.eqb s EmptyString).

(** [str(n)] for an [int]. *)
Definition of_Z (z : Z) : string := NilZero.string_of_int (Z.to_int z).

End PyStr.

(** ** utils.py: clone URLs *)

(** [parse_github_remote(url)]: the [(owner, repo)] pair of a GitHub remote
    URL, [None] when the URL has neither of the two shapes. *)
Definition parse_github_remote (url : string) : option (string * string) :=
  let ssh :=
    if PyStr.startswith "git@github.com:" url then
      let path := PyStr.drop 15 url in
      let path := if PyStr.endswith ".git" path then PyStr.drop_last 4 path else path in
      match PyStr.split "/" path with
      | [owner; repo] => Some (owner, repo)
      | _ => None
      end
    else None in
  match ssh with
  | Some r => Some r
  | None =>
      if PyStr.contains "github.com/" url then
        match PyStr.split "github.com/" url with
        | _ :: path :: _ =>
            let path := if PyStr.endswith ".git" path then PyStr.drop_last 4 path else path in
            match PyStr.split "/" path with
            | owner :: repo :: _ => Some (owner, repo)
            | _ => None
            end
        | _ => None
        end
      else None
  end.

(** [build_github_url(owner, repo, protocol)] *)
Definition build_github_url (owner repo protocol : string) : string :=
  if String.eqb protocol "ssh"
  then "git@github.com:" ++ owner ++ "/" ++ repo ++ ".git"
  else "https://github.com/" ++ owner ++ "/" ++ repo ++ ".git".

(** ** pathlib: absolute POSIX paths *)

Module Pathlib.

(** The components of an absolute path below the root: [/a/b] is
    [["a"; "b"]], the root itself is [[]]. *)
Definition Path := list string.

(** [str(p)] *)
Definition str (p : Path) : string := "/" ++ PyStr.join "/" p.

(** [p.name]: the last component, empty for the root. *)
Definition name (p : Path) : string := List.last p "".

(** [p / s] for a string [s]: an absolute [s] replaces [p], otherwise the
    components of [s] are appended (empty and [.] components dropped). *)
Definition segments (s : string) : list string :=
  List.filter (fun x => negb (String.eqb x "") && negb (String.eqb x ".")) (PyStr.split "/" s).

Definition div (p : Path) (s : string) : Path :=
  if PyStr.startswith "/" s then segments s else (p ++ segments s)%list.

(** [p.relative_to(base).parts]; [None] stands for the [ValueError] raised
    when [base] is no prefix of [p]. *)
Fixpoint relative_to (p base : Path) : option (list string) :=
  match base, p with
  | [], _ => Some p
  | b :: base', x :: p' => if String.eqb b x then relative_to p' base' else None
  | _ :: _, [] => None
  end.

End Pathlib.

Import Pathlib.

(** ** config.py *)

Record Config := {
  base_path : Path;
  organizations : list string;
  sync_interval : Z;
  exclude_repos : list string;
  auto_update_remotes : bool;
  clone_protocol : string
}.

(** [Config.__init__]: an empty (or absent) exclusion list becomes
    [[".github"]]; [base] is the already resolved base path. *)
Definition mk_config (base : Path) (orgs : list string) (interval : Z)
    (exclude : list string) (auto : bool) (protocol : string) : Config :=
  {| base_path := base;
     organizations := orgs;
     sync_interval := interval;
     exclude_repos := match exclude with [] => [".github"] | _ => exclude end;
     auto_update_remotes := auto;
     clone_protocol := protocol |}.

Definition get_org_path (config : Config) (org : string) : Path :=
  Pathlib.div (base_path config) org.

Definition get_repo_path (config : Config) (org repo : string) : Path :=
  Pathlib.div (Pathlib.div (base_path config) org) repo.

(** [x in l] for a list of strings. *)
Definition str_in (x : string) (l : list string) : bool :=
  List.existsb (String.eqb x) l.

(** ** transfer.py: the remote descriptor *)

Record Repository := {
  repo_name : string;
  repo_owner : string;
  full_name : string;
  clone_url : string;
  ssh_url : string;
  is_private : bool;
  is_archived : bool;
  default_branch : string
}.

(** ** Python dicts in insertion order *)

Module PyDict.
Section Dict.
Context {V : Type}.

(** [d.get(k)]: the value stored under [k]. *)
Fixpoint get (k : string) (d : list (string * V)) : option V :=
  match d with
  | [] => None
  | (k', v) :: d' => if String.eqb k k' then Some v else get k d'
  end.

(** [k in d] *)
Definition mem (k : string) (d : list (string * V)) : bool :=
  match get k d with Some _ => true | None => false end.

(** [d[k] = v]: an existing key keeps its place, a new one goes last. *)
Fixpoint set (k : string) (v : V) (d : list (string * V)) : list (string * V) :=
  match d with
  | [] => [(k, v)]
  | (k', v') :: d' => if String.eqb k k' then (k, v) :: d' else (k', v') :: set k v d'
  end.

(** [d.keys()], in iteration order. *)
Definition keys (d : list (string * V)) : list string := List.map fst d.

(** A list of items is a dict when no key occurs twice. *)
Definition wf (d : list (string * V)) : Prop := List.NoDup (keys d).
End Dict.
End PyDict.

(** ** sync.py: the reconciliation engine *)

(** [{org: {repo_name: path}}] and [{org: {repo_name: Repository}}] *)
Definition LocalRepos := list (string * list (string * Path)).
Definition GithubRepos := list (string * list (string * Repository)).

(** Both levels of a snapshot are dicts. *)
Definition snapshot_wf {V : Type} (s : list (string * list (string * V))) : Prop :=
  PyDict.wf s /\ Forall (fun e => PyDict.wf (snd e)) s.

(** The name -> owning organisation index of [find_misplaced_repos]; a
    later assignment to the same name overwrites the earlier one. *)
Definition github_locations (github_repos : GithubRepos) : gmap string string :=
  List.fold_left
    (fun locs '(org, repos) =>
       List.fold_left (fun locs repo_name => <[repo_name := org]> locs) (PyDict.keys repos) locs)
    github_repos ∅.

(** [find_misplaced_repos]: [(repo_name, current_local_org, correct_org, local_path)] *)
Definition find_misplaced_repos (local_repos : LocalRepos) (github_repos : GithubRepos)
    : list (string * string * string * Path) :=
  let locations := github_locations github_repos in
  List.flat_map
    (fun '(local_org, repos) =>
       List.flat_map
         (fun '(repo_name, path) =>
            match locations !! repo_name with
            | Some correct_org =>
                if String.eqb correct_org local_org then []
                else [(repo_name, local_org, correct_org, path)]
            | None => []
            end)
         repos)
    local_repos.

(** [find_missing_repos]: [(org, repo_name, Repository)] *)
Definition find_missing_repos (local_repos : LocalRepos) (github_repos : GithubRepos)
    : list (string * string * Repository) :=
  List.flat_map
    (fun '(org, repos) =>
       let local_org_repos :=
         match PyDict.get org local_repos with Some d => d | None => [] end in
       List.flat_map
         (fun '(repo_name, repo) =>
            if PyDict.mem repo_name local_org_repos then [] else [(org, repo_name, repo)])
         repos)
    github_repos.

(** The set of all remote names of [find_orphaned_repos]. *)
Definition github_repo_names (github_repos : GithubRepos) : gset string :=
  List.fold_left
    (fun names '(_, repos) => names ∪ list_to_set (PyDict.keys repos))
    github_repos ∅.

(** [find_orphaned_repos]: [(org, repo_name, path)] *)
Definition find_orphaned_repos (local_repos : LocalRepos) (github_repos : GithubRepos)
    : list (string * string * Path) :=
  let names := github_repo_names github_repos in
  List.flat_map
    (fun '(org, repos) =>
       List.flat_map
         (fun '(repo_name, path) =>
            if decide (repo_name ∈ names) then [] else [(org, repo_name, path)])
         repos)
    local_repos.

(** The repository names of the three finding lists. *)
Definition misplaced_names (l : list (string * string * string * Path)) : list string :=
  List.map (fun '(repo_name, _, _, _) => repo_name) l.
Definition missing_names (l : list (string * string * Repository)) : list string :=
  List.map (fun '(_, repo_name, _) => repo_name) l.
Definition orphaned_names (l : list (string * string * Path)) : list string :=
  List.map (fun '(_, repo_name, _) => repo_name) l.

(** ** The outside world *)

(** [subprocess.CompletedProcess] *)
Record CompletedProcess := {
  returncode : Z;
  stdout : string;
  stderr : string
}.

(** The four console styles of utils.py. *)
Inductive Level := LInfo | LSuccess | LWarning | LError.

(** One interaction with the outside, together with what it answered. *)
Inductive Event :=
| ERun (cmd : list string) (reply : CompletedProcess)   (* subprocess.run(cmd) *)
| EPrint (level : Level) (message : string)             (* console.print *)
| ESleep (seconds : Q)                                  (* time.sleep *)
| EIsDir (p : Path) (reply : bool)                      (* Path.is_dir *)
| EExists (p : Path) (reply : bool)                     (* Path.exists *)
| EIterdir (p : Path) (reply : list Path)               (* Path.iterdir *)
| EMkdir (p : Path)                                     (* Path.mkdir(parents, exist_ok) *)
| EMove (src dst : string) (raised : option string)     (* shutil.move; the exception text if any *)
| ECallback (src_org dest_org repo : string).           (* the on_transfer observer *)

(** What the outside answers.  Every oracle sees the history so far, so a
    reply may depend on anything that happened before.  Calls the program
    does not guard are taken to return: [git] and [gh] are installed,
    [mkdir(parents=True, exist_ok=True)] and [iterdir] do not raise. *)
Record Env := {
  run_reply : list Event -> list string -> CompletedProcess;
  is_dir_reply : list Event -> Path -> bool;
  exists_reply : list Event -> Path -> bool;
  iterdir_reply : list Event -> Path -> list Path;
  move_reply : list Event -> string -> string -> option string;
  (** time taken by the last interaction of a history *)
  latency : list Event -> Q;
  (** [json.loads] of a [gh repo list --json] reply and the construction of
      the [Repository] values; [None] for a [JSONDecodeError] *)
  decode_repo_list : string -> option (list Repository)
}.

Record World := {
  clock : Q;
  history : list Event
}.

(** State monad over the world. *)
Definition M (A : Type) : Type := World -> A * World.

Definition ret {A : Type} (a : A) : M A := fun w => (a, w).

Definition bind {A B : Type} (m : M A) (k : A -> M B) : M B :=
  fun w => let (a, w') := m w in k a w'.

Declare Scope world_scope.
Delimit Scope world_scope with world.
Notation "'do' x <- m 'in' k" := (bind m (fun x => k))
  (at level 10, x name, m at level 100, k at level 200) : world_scope.
Notation "'do' ' p <- m 'in' k" := (bind m (fun p => k))
  (at level 10, p strict pattern, m at level 100, k at level 200) : world_scope.
Notation "m ;; k" := (bind m (fun _ => k))
  (at level 100, k at level 200, right associativity) : world_scope.
Local Open Scope world_scope.

(** A [for] loop threading the loop-carried state. *)
Fixpoint for_each {A S : Type} (l : list A) (body : A -> S -> M S) (s : S) : M S :=
  match l with
  | [] => ret s
  | x :: l' => do s' <- body x s in for_each l' body s'
  end.

(** [x < y] on clock readings. *)
Definition Qltb (x y : Q) : bool := negb (Qle_bool y x).

Section Outside.
Variable env : Env.

(** Record an interaction; the clock moves by the time it took. *)
Definition interact (e : Event) : M unit := fun w =>
  let h := (history w ++ [e])%list in
  (tt, {| clock := (clock w + latency env h)%Q; history := h |}).

(** [time.time()] *)
Definition time_time : M Q := fun w => (clock w, w).

(** [time.sleep(seconds)] *)
Definition time_sleep (seconds : Q) : M unit := fun w =>
  let h := (history w ++ [ESleep seconds])%list in
  (tt, {| clock := (clock w + seconds + latency env h)%Q; history := h |}).

(** [subprocess.run(cmd, capture_output=True, text=True)] *)
Definition subprocess_run (cmd : list string) : M CompletedProcess := fun w =>
  let reply := run_reply env (history w) cmd in
  let (_, w') := interact (ERun cmd reply) w in (reply, w').

Definition path_is_dir (p : Path) : M bool := fun w =>
  let reply := is_dir_reply env (history w) p in
  let (_, w') := interact (EIsDir p reply) w in (reply, w').

Definition path_exists (p : Path) : M bool := fun w =>
  let reply := exists_reply env (history w) p in
  let (_, w') := interact (EExists p reply) w in (reply, w').

Definition path_iterdir (p : Path) : M (list Path) := fun w =>
  let reply := iterdir_reply env (history w) p in
  let (_, w') := interact (EIterdir p reply) w in (reply, w').

Definition path_mkdir (p : Path) : M unit := interact (EMkdir p).

Definition shutil_move (src dst : string) : M (option string) := fun w =>
  let reply := move_reply env (history w) src dst in
  let (_, w') := interact (EMove src dst reply) w in (reply, w').

(** *** utils.py *)

Definition print_success (message : string) : M unit := interact (EPrint LSuccess message).
Definition print_error (message : string) : M unit := interact (EPrint LError message).
Definition print_warning (message : string) : M unit := interact (EPrint LWarning message).
Definition print_info (message : string) : M unit := interact (EPrint LInfo message).

Definition is_git_repo (path : Path) : M bool := path_is_dir (Pathlib.div path ".git").

(** [check=True] turns a non-zero return code into [CalledProcessError],
    which both functions catch. *)
Definition get_repo_remote_url (path : Path) : M (option string) :=
  do g <- is_git_repo path in
  if negb g then ret None
  else
    do result <- subprocess_run ["git"; "-C"; Pathlib.str path; "remote"; "get-url"; "origin"] in
    if (returncode result =? 0)%Z then ret (Some (PyStr.strip (stdout result)))
    else ret None.

Definition set_repo_remote_url (path : Path) (url : string) : M bool :=
  do g <- is_git_repo path in
  if negb g then ret false
  else
    do result <- subprocess_run ["git"; "-C"; Pathlib.str path; "remote"; "set-url"; "origin"; url] in
    ret (returncode result =? 0)%Z.

Definition run_gh_command (args : list string) : M CompletedProcess :=
  subprocess_run ("gh" :: args).

(** *** transfer.py *)

(** [list_org_repos(org)] *)
Definition list_org_repos (org : string) : M (list Repository) :=
  do result <- run_gh_command
      ["repo"; "list"; org; "--limit"; "500"; "--json";
       "name,owner,nameWithOwner,url,sshUrl,isPrivate,isArchived,defaultBranchRef"] in
  if negb (returncode result =? 0)%Z then
    print_error ("Failed to list repos for " ++ org ++ ": " ++ stderr result) ;;
    ret []
  else
    match decode_repo_list env (stdout result) with
    | None => print_error ("Failed to parse repo list for " ++ org) ;; ret []
    | Some repos => ret repos
    end.

(** [transfer_repo(owner, repo, new_owner)] *)
Definition transfer_repo (owner repo new_owner : string) : M bool :=
  print_info ("Transferring " ++ owner ++ "/" ++ repo ++ " to " ++ new_owner ++ "...") ;;
  do result <- run_gh_command
      ["api"; "/repos/" ++ owner ++ "/" ++ repo ++ "/transfer"; "-X"; "POST"; "-f";
       "new_owner=" ++ new_owner] in
  if negb (returncode result =? 0)%Z then
    let error_msg := stderr result in
    if PyStr.contains "transfer is already pending" (PyStr.lower error_msg) then
      print_warning ("Transfer already pending for " ++ repo) ;;
      ret true
    else if PyStr.contains "must wait" (PyStr.lower error_msg)
            || PyStr.contains "cooldown" (PyStr.lower error_msg) then
      print_warning ("Transfer cooldown active for " ++ repo ++ ". Please wait ~24 hours.") ;;
      ret false
    else
      print_error ("Failed to transfer " ++ owner ++ "/" ++ repo ++ ": " ++ error_msg) ;;
      ret false
  else
    print_success ("Transfer initiated for " ++ repo ++ " to " ++ new_owner) ;;
    ret true.

(** The [while] loop of [wait_for_transfer].  [Some true]: the lookup
    succeeded and the function returned from inside the loop; [Some false]:
    the loop condition failed; [None]: [fuel] iterations were not enough. *)
Fixpoint wait_loop (fuel : nat) (new_owner repo : string) (timeout : Z) (start_time : Q)
    : M (option bool) :=
  match fuel with
  | O => ret None
  | S fuel' =>
      do now <- time_time in
      if Qltb (now - start_time) (inject_Z timeout) then
        do result <- run_gh_command ["repo"; "view"; new_owner ++ "/" ++ repo; "--json"; "name"] in
        if (returncode result =? 0)%Z then
          print_success ("Transfer complete: " ++ new_owner ++ "/" ++ repo) ;;
          ret (Some true)
        else
          time_sleep 2 ;;
          wait_loop fuel' new_owner repo timeout start_time
      else ret (Some false)
  end.

(** [wait_for_transfer(new_owner, repo, timeout)] *)
Definition wait_for_transfer (fuel : nat) (new_owner repo : string) (timeout : Z)
    : M (option bool) :=
  print_info "Waiting for transfer to complete..." ;;
  do start_time <- time_time in
  do r <- wait_loop fuel new_owner repo timeout start_time in
  match r with
  | Some true => ret (Some true)
  | Some false =>
      print_warning ("Transfer not complete within " ++ PyStr.of_Z timeout
                     ++ "s. It may still be processing.") ;;
      ret (Some false)
  | None => ret None
  end.

(** [clone_repo(owner, repo, dest_path, protocol)] *)
Definition clone_repo (owner repo dest_path protocol : string) : M bool :=
  let url := build_github_url owner repo protocol in
  do result <- subprocess_run ["git"; "clone"; url; dest_path] in
  if negb (returncode result =? 0)%Z then
    if PyStr.contains "already exists" (stderr result) then
      print_warning ("Repository " ++ repo ++ " already exists at " ++ dest_path) ;;
      ret true
    else
      print_error ("Failed to clone " ++ owner ++ "/" ++ repo ++ ": " ++ stderr result) ;;
      ret false
  else
    print_success ("Cloned " ++ owner ++ "/" ++ repo) ;;
    ret true.

(** *** sync.py: collecting the snapshots and applying the findings *)

(** [result[org][name] = v]; [result[org]] exists when this is used. *)
Definition set_inner {V : Type} (org name : string) (v : V)
    (result : list (string * list (string * V))) : list (string * list (string * V)) :=
  match PyDict.get org result with
  | Some d => PyDict.set org (PyDict.set name v d) result
  | None => result
  end.

(** [get_local_repos(config)] *)
Definition get_local_repos (config : Config) : M LocalRepos :=
  for_each (organizations config)
    (fun org result =>
       let org_path := get_org_path config org in
       let result := PyDict.set org [] result in
       do present <- path_exists org_path in
       if negb present then ret result
       else
         do items <- path_iterdir org_path in
         for_each items
           (fun item result =>
              do d <- path_is_dir item in
              do g <- (if d then is_git_repo item else ret false) in
              if d && g then ret (set_inner org (Pathlib.name item) item result)
              else ret result)
           result)
    [].

(** [get_github_repos(config)]; the progress display is left out. *)
Definition get_github_repos (config : Config) : M GithubRepos :=
  for_each (organizations config)
    (fun org result =>
       do repos <- list_org_repos org in
       let result := PyDict.set org [] result in
       ret (List.fold_left
              (fun result repo =>
                 if negb (str_in (repo_name repo) (exclude_repos config))
                 then set_inner org (repo_name repo) repo result
                 else result)
              repos result))
    [].

Record SyncResult := {
  cloned : list string;
  moved : list (string * string * string);
  orphaned : list string;
  errors : list string
}.

Definition add_cloned (x : string) (r : SyncResult) : SyncResult :=
  {| cloned := (cloned r ++ [x])%list; moved := moved r; orphaned := orphaned r; errors := errors r |}.
Definition add_moved (x : string * string * string) (r : SyncResult) : SyncResult :=
  {| cloned := cloned r; moved := (moved r ++ [x])%list; orphaned := orphaned r; errors := errors r |}.
Definition add_orphaned (x : string) (r : SyncResult) : SyncResult :=
  {| cloned := cloned r; moved := moved r; orphaned := (orphaned r ++ [x])%list; errors := errors r |}.
Definition add_error (x : string) (r : SyncResult) : SyncResult :=
  {| cloned := cloned r; moved := moved r; orphaned := orphaned r; errors := (errors r ++ [x])%list |}.

(** The body of the loop over the misplaced findings. *)
Definition move_one (config : Config) (dry_run : bool)
    (finding : string * string * string * Path) (result : SyncResult) : M SyncResult :=
  let '(repo_name, from_org, to_org, current_path) := finding in
  if dry_run then
    print_info ("Would move " ++ repo_name ++ ": " ++ from_org ++ " -> " ++ to_org) ;;
    ret (add_moved (repo_name, from_org, to_org) result)
  else
    let new_path := get_repo_path config to_org repo_name in
    print_info ("Moving " ++ repo_name ++ ": " ++ from_org ++ " -> " ++ to_org) ;;
    do raised <- shutil_move (Pathlib.str current_path) (Pathlib.str new_path) in
    match raised with
    | Some e =>
        let error_msg := "Failed to move " ++ repo_name ++ ": " ++ e in
        print_error error_msg ;;
        ret (add_error error_msg result)
    | None =>
        (if auto_update_remotes config then
           let new_url := build_github_url to_org repo_name (clone_protocol config) in
           set_repo_remote_url new_path new_url ;; ret tt
         else ret tt) ;;
        let result := add_moved (repo_name, from_org, to_org) result in
        print_success ("Moved " ++ repo_name ++ " to " ++ to_org) ;;
        ret result
    end.

(** The body of the loop over the missing findings. *)
Definition clone_one (config : Config) (dry_run : bool)
    (finding : string * string * Repository) (result : SyncResult) : M SyncResult :=
  let '(org, repo_name, repo) := finding in
  let dest_path := get_repo_path config org repo_name in
  if dry_run then
    print_info ("Would clone " ++ org ++ "/" ++ repo_name) ;;
    ret (add_cloned (org ++ "/" ++ repo_name) result)
  else
    do ok <- clone_repo org repo_name (Pathlib.str dest_path) (clone_protocol config) in
    if ok then ret (add_cloned (org ++ "/" ++ repo_name) result)
    else ret (add_error ("Failed to clone " ++ org ++ "/" ++ repo_name) result).

(** The body of the loop over the orphaned findings. *)
Definition report_orphan (finding : string * string * Path) (result : SyncResult)
    : M SyncResult :=
  let '(org, repo_name, path) := finding in
  let result := add_orphaned (org ++ "/" ++ repo_name) result in
  print_warning ("Orphaned repo (not on GitHub): " ++ org ++ "/" ++ repo_name) ;;
  ret result.

(** [sync_github_to_local(config, clone_missing, move_misplaced, dry_run)] *)
Definition sync_github_to_local (config : Config)
    (clone_missing move_misplaced dry_run : bool) : M SyncResult :=
  let result := {| cloned := []; moved := []; orphaned := []; errors := [] |} in
  print_info "Fetching repository information..." ;;
  do local_repos <- get_local_repos config in
  do github_repos <- get_github_repos config in
  (if negb dry_run then
     for_each (organizations config)
       (fun org _ => path_mkdir (get_org_path config org)) tt
   else ret tt) ;;
  do result <-
    (if move_misplaced then
       for_each (find_misplaced_repos local_repos github_repos) (move_one config dry_run) result
     else ret result) in
  do result <-
    (if clone_missing then
       for_each (find_missing_repos local_repos github_repos) (clone_one config dry_run) result
     else ret result) in
  for_each (find_orphaned_repos local_repos github_repos) report_orphan result.

(** *** watcher.py *)

(** The notifications watchdog delivers to [on_moved]. *)
Inductive FsEvent :=
| DirMovedEvent (src_path dest_path : Path)
| FileMovedEvent (src_path dest_path : Path).

(** [OrgMoveHandler]; [on_transfer] tells whether an observer was given. *)
Record OrgMoveHandler := {
  config : Config;
  on_transfer : bool;
  pending_moves : gmap string Q;
  processed_moves : gset string;
  debounce_seconds : Q
}.

(** [OrgMoveHandler.__init__] *)
Definition new_handler (config : Config) (on_transfer : bool) : OrgMoveHandler :=
  {| config := config;
     on_transfer := on_transfer;
     pending_moves := ∅;
     processed_moves := ∅;
     debounce_seconds := 2 |}.

Definition record_move (self : OrgMoveHandler) (move_key : string) (now : Q)
    : OrgMoveHandler :=
  {| config := config self;
     on_transfer := on_transfer self;
     pending_moves := <[move_key := now]> (pending_moves self);
     processed_moves := processed_moves self;
     debounce_seconds := debounce_seconds self |}.

Definition _get_org_from_path (self : OrgMoveHandler) (path : Path) : option string :=
  match Pathlib.relative_to path (base_path (config self)) with
  | Some (org :: _) => Some org
  | _ => None
  end.

Definition _is_direct_child (path parent : Path) : bool :=
  match Pathlib.relative_to path parent with
  | Some parts => (List.length parts =? 1)%nat
  | None => false
  end.

(** The debounce key of a move. *)
Definition move_key_of (src_path dest_path : Path) : string :=
  Pathlib.str src_path ++ ":" ++ Pathlib.str dest_path.

(** The arguments of the thread [on_moved] starts:
    [(src_org, dest_org, src_path, dest_path)]. *)
Definition MoveTask : Type := string * string * Path * Path.

(** [on_moved(event)]: the handler afterwards and the handling task
    started, if any.  The check and the recording of the sighting happen
    under the handler's lock, hence in one step. *)
Definition on_moved (self : OrgMoveHandler) (event : FsEvent)
    : M (OrgMoveHandler * option MoveTask) :=
  match event with
  | FileMovedEvent _ _ => ret (self, None)
  | DirMovedEvent src_path dest_path =>
      match _get_org_from_path self src_path, _get_org_from_path self dest_path with
      | Some src_org, Some dest_org =>
          if negb (PyStr.truthy src_org) || negb (PyStr.truthy dest_org) then ret (self, None)
          else
            let src_org_path := Pathlib.div (base_path (config self)) src_org in
            let dest_org_path := Pathlib.div (base_path (config self)) dest_org in
            if negb (_is_direct_child src_path src_org_path) then ret (self, None)
            else if negb (_is_direct_child dest_path dest_org_path) then ret (self, None)
            else if String.eqb src_org dest_org then
              print_info ("Repo renamed within " ++ src_org ++ ": " ++ Pathlib.name src_path
                          ++ " -> " ++ Pathlib.name dest_path) ;;
              ret (self, None)
            else
              do g <- is_git_repo dest_path in
              if negb g then
                print_warning ("Moved folder is not a git repo: " ++ Pathlib.str dest_path) ;;
                ret (self, None)
              else
                let move_key := move_key_of src_path dest_path in
                do now <- time_time in
                let dispatch :=
                  ret (record_move self move_key now,
                       Some (src_org, dest_org, src_path, dest_path)) in
                match pending_moves self !! move_key with
                | Some seen =>
                    if Qltb (now - seen) (debounce_seconds self) then ret (self, None)
                    else dispatch
                | None => dispatch
                end
      | _, _ => ret (self, None)
      end
  end.

(** The body of [if transfer_repo(...):] in [_process_move]: wait for the
    confirmation, then update the remote URL and tell the observer, or warn. *)
Definition finish_transfer (fuel : nat) (self : OrgMoveHandler)
    (src_org dest_org : string) (dest_path : Path) (repo : string) : M (option unit) :=
  do confirmed <- wait_for_transfer fuel dest_org repo 120 in
  match confirmed with
  | None => ret None
  | Some true =>
      (if auto_update_remotes (config self) then
         let new_url := build_github_url dest_org repo (clone_protocol (config self)) in
         do updated <- set_repo_remote_url dest_path new_url in
         if updated then print_success ("Updated remote URL to " ++ new_url)
         else print_warning "Could not update remote URL automatically"
       else ret tt) ;;
      (if on_transfer self then interact (ECallback src_org dest_org repo)
       else ret tt) ;;
      ret (Some tt)
  | Some false =>
      print_warning ("Transfer may still be in progress. "
                     ++ "Remote URL not updated - do this manually if needed.") ;;
      ret (Some tt)
  end.

(** [_process_move(src_org, dest_org, src_path, dest_path)]; [None] when
    the fuel of the confirmation poll ran out. *)
Definition _process_move (fuel : nat) (self : OrgMoveHandler)
    (src_org dest_org : string) (src_path dest_path : Path) : M (option unit) :=
  let repo_name := Pathlib.name dest_path in
  do remote_url <- get_repo_remote_url dest_path in
  match remote_url with
  | None => print_error ("Could not get remote URL for " ++ repo_name) ;; ret (Some tt)
  | Some remote_url =>
      if negb (PyStr.truthy remote_url) then
        print_error ("Could not get remote URL for " ++ repo_name) ;; ret (Some tt)
      else
        match parse_github_remote remote_url with
        | None =>
            print_error ("Could not parse GitHub remote URL: " ++ remote_url) ;; ret (Some tt)
        | Some (current_owner, repo) =>
            if negb (String.eqb current_owner src_org) then
              print_warning ("Repo " ++ repo ++ " remote shows owner as " ++ current_owner ++ ", "
                             ++ "but was moved from " ++ src_org ++ ". Skipping transfer.") ;;
              ret (Some tt)
            else
              print_info ("Detected move: " ++ src_org ++ "/" ++ repo ++ " -> "
                          ++ dest_org ++ "/" ++ repo) ;;
              do requested <- transfer_repo src_org repo dest_org in
              if requested then finish_transfer fuel self src_org dest_org dest_path repo
              else ret (Some tt)
        end
  end.

End Outside.

(** ** Reference definitions of the reconciliation findings

    The findings as the specification words them, to be compared with the
    three functions of sync.py. *)

(** [name] is stored at [path] in the local folder of [org]. *)
Definition local_entry (local_repos : LocalRepos) (org name : string) (path : Path) : Prop :=
  exists repos, In (org, repos) local_repos /\ In (name, path) repos.

(** [name] is listed with descriptor [repo] under the remote [org]. *)
Definition remote_entry (github_repos : GithubRepos) (org name : string) (repo : Repository)
    : Prop :=
  exists repos, In (org, repos) github_repos /\ In (name, repo) repos.

(** [name] is a remote name of some tracked organisation. *)
Definition remote_name (github_repos : GithubRepos) (name : string) : Prop :=
  exists org repos, In (org, repos) github_repos /\ In name (PyDict.keys repos).

(** The name -> owning organisation index of the remote map.  Remote names
    are meant to be unique; where a name is listed under several
    organisations the index holds the one listed last. *)
Definition owning_org (github_repos : GithubRepos) (name org : string) : Prop :=
  exists before repos after,
    github_repos = (before ++ (org, repos) :: after)%list
    /\ In name (PyDict.keys repos)
    /\ forall e, In e after -> ~ In name (PyDict.keys (snd e)).

(** No repository name is listed under two organisations. *)
Definition remote_names_unique (github_repos : GithubRepos) : Prop :=
  forall org1 repos1 org2 repos2 name,
    In (org1, repos1) github_repos -> In (org2, repos2) github_repos ->
    In name (PyDict.keys repos1) -> In name (PyDict.keys repos2) -> org1 = org2.

Definition Misplaced_spec (local_repos : LocalRepos) (github_repos : GithubRepos)
    (f : string * string * string * Path) : Prop :=
  let '(name, local_org, correct_org, path) := f in
  local_entry local_repos local_org name path
  /\ owning_org github_repos name correct_org
  /\ correct_org <> local_org.

Definition Missing_spec (local_repos : LocalRepos) (github_repos : GithubRepos)
    (f : string * string * Repository) : Prop :=
  let '(org, name, repo) := f in
  remote_entry github_repos org name repo
  /\ ~ (exists path, local_entry local_repos org name path).

Definition Orphaned_spec (local_repos : LocalRepos) (github_repos : GithubRepos)
    (f : string * string * Path) : Prop :=
  let '(org, name, path) := f in
  local_entry local_repos org name path
  /\ ~ remote_name github_repos name.

(** The partition property as the specification states it: no name is in
    two of the three finding lists. *)
Definition findings_disjoint (local_repos : LocalRepos) (github_repos : GithubRepos) : Prop :=
  forall name,
    let misplaced := misplaced_names (find_misplaced_repos local_repos github_repos) in
    let missing := missing_names (find_missing_repos local_repos github_repos) in
    let orphaned := orphaned_names (find_orphaned_repos local_repos github_repos) in
    (In name misplaced -> ~ In name missing /\ ~ In name orphaned)
    /\ (In name missing -> ~ In name orphaned).

(** ** The example scenarios of the specification *)

Definition descriptor (owner name : string) : Repository :=
  {| repo_name := name;
     repo_owner := owner;
     full_name := owner ++ "/" ++ name;
     clone_url := "https://github.com/" ++ owner ++ "/" ++ name ++ ".git";
     ssh_url := "git@github.com:" ++ owner ++ "/" ++ name ++ ".git";
     is_private := false;
     is_archived := false;
     default_branch := "main" |}.

Definition orgs_base : Path := ["home"; "dev"; "orgs"].

(** Scenario 1: [web] is in place, [api] of [other] has no local copy. *)
Definition local1 : LocalRepos := [("acme", [("web", (orgs_base ++ ["acme"; "web"])%list)])].
Definition remote1 : GithubRepos :=
  [("acme", [("web", descriptor "acme" "web")]); ("other", [("api", descriptor "other" "api")])].

(** Scenario 2: [tools] lives under [acme] and is owned by [other]. *)
Definition local2 : LocalRepos :=
  [("acme", [("tools", (orgs_base ++ ["acme"; "tools"])%list)])].
Definition remote2 : GithubRepos := [("other", [("tools", descriptor "other" "tools")])].

(** Scenario 3: [legacy] exists only locally. *)
Definition local3 : LocalRepos :=
  [("acme", [("legacy", (orgs_base ++ ["acme"; "legacy"])%list)])].
Definition remote3 : GithubRepos := [("acme", [])].

(** The index read as a function: the organisation listed last for [name]. *)
Fixpoint last_owner (github_repos : GithubRepos) (name : string) : option string :=
  match github_repos with
  | [] => None
  | (org, repos) :: rest =>
      match last_owner rest name with
      | Some o => Some o
      | None => if PyDict.mem name repos then Some org else None
      end
  end.

(** ** Observing a run *)

(** No inner dict of [result] has a key from [exclude]. *)
Definition free_of (exclude : list string) (result : GithubRepos) : Prop :=
  forall e, In e result -> forall k, In k (PyDict.keys (snd e)) -> str_in k exclude = false.

(** The interactions that happened between the worlds [w] and [w']. *)
Definition events_since (w w' : World) : list Event :=
  List.skipn (List.length (history w)) (history w').

(** [git -C <path> remote set-url origin <url>]: the one command that
    rewrites the remote URL of a working copy. *)
Definition is_set_url (e : Event) : bool :=
  match e with
  | ERun cmd _ => String.eqb (List.nth 0 cmd "") "git" && String.eqb (List.nth 4 cmd "") "set-url"
  | _ => false
  end.

(** A call of the [on_transfer] observer. *)
Definition is_callback (e : Event) : bool :=
  match e with ECallback _ _ _ => true | _ => false end.

(** Any [gh] command, in particular the transfer request and the poll. *)
Definition is_gh (e : Event) : bool :=
  match e with
  | ERun cmd _ => String.eqb (List.nth 0 cmd "") "gh"
  | _ => false
  end.

(** [git clone <url> <dest>] *)
Definition is_clone (e : Event) : bool :=
  match e with
  | ERun cmd _ => String.eqb (List.nth 0 cmd "") "git" && String.eqb (List.nth 1 cmd "") "clone"
  | _ => false
  end.

(** An error message on the console. *)
Definition is_error_print (e : Event) : bool :=
  match e with EPrint LError _ => true | _ => false end.

(** A computation only adds interactions that satisfy [P]. *)
Definition emits {A : Type} (P : Event -> Prop) (m : M A) : Prop :=
  forall w, exists evs, history (snd (m w)) = (history w ++ evs)%list /\ Forall P evs.

(** The poll command of [wait_for_transfer]. *)
Definition view_cmd (new_owner repo : string) : list string :=
  ["gh"; "repo"; "view"; new_owner ++ "/" ++ repo; "--json"; "name"].

(** The request of [transfer_repo]. *)
Definition transfer_cmd (owner repo new_owner : string) : list string :=
  ["gh"; "api"; "/repos/" ++ owner ++ "/" ++ repo ++ "/transfer"; "-X"; "POST"; "-f";
   "new_owner=" ++ new_owner].

(** The warning [_process_move] prints on an ownership mismatch. *)
Definition mismatch_warning (repo current_owner src_org : string) : Event :=
  EPrint LWarning
    ("Repo " ++ repo ++ " remote shows owner as " ++ current_owner ++ ", "
     ++ "but was moved from " ++ src_org ++ ". Skipping transfer.").

(** [w'] continues [w] by interactions that all satisfy [P]. *)
Definition extends (P : Event -> Prop) (w w' : World) : Prop :=
  exists evs, history w' = (history w ++ evs)%list /\ Forall P evs.

(** An interaction that neither rewrites a remote URL nor calls the observer. *)
Definition quiet (e : Event) : Prop := is_set_url e = false /\ is_callback e = false.

(** An interaction that is no error message. *)
Definition no_error (e : Event) : Prop := is_error_print e = false.

(** No constraint on an interaction. *)
Definition any_event (e : Event) : Prop := True.

(** The interaction [e] happened between [w] and [w']. *)
Definition happened (e : Event) (w w' : World) : Prop := In e (events_since w w').

(** The reply the request of [transfer_repo] gets when it starts in [w]. *)
Definition transfer_reply (env : Env) (owner repo new_owner : string) (w : World)
    : CompletedProcess :=
  run_reply env
    (history w ++ [EPrint LInfo ("Transferring " ++ owner ++ "/" ++ repo ++ " to "
                                 ++ new_owner ++ "...")])%list
    (transfer_cmd owner repo new_owner).

(** The remote reports that a transfer is already pending. *)
Definition already_pending (reply : CompletedProcess) : bool :=
  PyStr.contains "transfer is already pending" (PyStr.lower (stderr reply)).

(** ** Observing the move detector *)

Definition event_src (event : FsEvent) : Path :=
  match event with DirMovedEvent s _ | FileMovedEvent s _ => s end.

Definition event_dest (event : FsEvent) : Path :=
  match event with DirMovedEvent _ d | FileMovedEvent _ d => d end.

(** The five filter rules of [on_moved] for a notification delivered in the
    world [w]: a directory move, both paths below an organisation folder, as
    its direct children, of different organisations, and the destination a
    git working copy. *)
Definition accepted (env : Env) (self : OrgMoveHandler) (w : World) (event : FsEvent) : bool :=
  match event with
  | FileMovedEvent _ _ => false
  | DirMovedEvent src_path dest_path =>
      match _get_org_from_path self src_path, _get_org_from_path self dest_path with
      | Some src_org, Some dest_org =>
          PyStr.truthy src_org && PyStr.truthy dest_org
          && _is_direct_child src_path (Pathlib.div (base_path (config self)) src_org)
          && _is_direct_child dest_path (Pathlib.div (base_path (config self)) dest_org)
          && negb (String.eqb src_org dest_org)
          && is_dir_reply env (history w) (Pathlib.div dest_path ".git")
      | _, _ => false
      end
  end.

(** The clock reading [on_moved] takes for a notification delivered in [w]:
    the time after the look at the destination folder. *)
Definition sighting_time (env : Env) (w : World) (event : FsEvent) : Q :=
  clock (snd (is_git_repo env (event_dest event) w)).

(** The handling task of an accepted notification. *)
Definition task_of (self : OrgMoveHandler) (event : FsEvent) : option MoveTask :=
  match _get_org_from_path self (event_src event), _get_org_from_path self (event_dest event) with
  | Some src_org, Some dest_org => Some (src_org, dest_org, event_src event, event_dest event)
  | _, _ => None
  end.

(** The debounce decision of [on_moved] for an accepted notification. *)
Definition debounce (self : OrgMoveHandler) (event : FsEvent) (now : Q)
    : OrgMoveHandler * option MoveTask :=
  let move_key := move_key_of (event_src event) (event_dest event) in
  match pending_moves self !! move_key with
  | Some seen =>
      if Qltb (now - seen) (debounce_seconds self) then (self, None)
      else (record_move self move_key now, task_of self event)
  | None => (record_move self move_key now, task_of self event)
  end.

(** A stream of notifications, each delivered in the world of its moment;
    the handler is the only state carried from one to the next.  The result
    lists, per notification, the handling task started. *)
Fixpoint deliver (env : Env) (self : OrgMoveHandler) (notifications : list (World * FsEvent))
    : OrgMoveHandler * list (option MoveTask) :=
  match notifications with
  | [] => (self, [])
  | (w, event) :: rest =>
      let '(self', task) := fst (on_moved env self event w) in
      let '(self'', tasks) := deliver env self' rest in
      (self'', task :: tasks)
  end.

(** The number of handling tasks started for the debounce key [key]. *)
Definition dispatched_for (key : string) (tasks : list (option MoveTask)) : nat :=
  List.length
    (List.filter
       (fun task =>
          match task with
          | Some (_, _, src_path, dest_path) => String.eqb (move_key_of src_path dest_path) key
          | None => false
          end)
       tasks).

(** A notification that passes the filter and carries the key [key]. *)
Definition touches (env : Env) (self : OrgMoveHandler) (key : string)
    (n : World * FsEvent) : Prop :=
  accepted env self (fst n) (snd n) = true
  /\ move_key_of (event_src (snd n)) (event_dest (snd n)) = key.

(** The handler data a notification leaves alone when it does not touch
    [key]: the configuration, the window and the sighting recorded for [key]. *)
Definition stable (key : string) (self self' : OrgMoveHandler) : Prop :=
  config self' = config self
  /\ debounce_seconds self' = debounce_seconds self
  /\ pending_moves self' !! key = pending_moves self !! key.

(** ** Observing the clone phase of a sync *)

(** [clone_repo] counts a reply as a success: exit code 0, or a failure
    whose message says that the destination already exists. *)
Definition clone_ok (reply : CompletedProcess) : bool :=
  (returncode reply =? 0)%Z || PyStr.contains "already exists" (stderr reply).

(** The command [clone_repo] runs for a missing finding. *)
Definition clone_cmd (config : Config) (finding : string * string * Repository) : list string :=
  let '(org, repo_name, _) := finding in
  ["git"; "clone"; build_github_url org repo_name (clone_protocol config);
   Pathlib.str (get_repo_path config org repo_name)].

(** [org/name] of a missing finding, as it is entered in the result lists. *)
Definition finding_label (finding : string * string * Repository) : string :=
  let '(org, repo_name, _) := finding in org ++ "/" ++ repo_name.

(** The [git clone] commands among some interactions, with their replies. *)
Definition clone_runs (evs : list Event) : list (list string * CompletedProcess) :=
  List.flat_map
    (fun e =>
       match e with
       | ERun cmd reply => if is_clone e then [(cmd, reply)] else []
       | _ => []
       end)
    evs.

(** The findings whose clone attempt got a reply satisfying [keep]. *)
Definition findings_with (keep : CompletedProcess -> bool)
    (attempts : list ((string * string * Repository) * CompletedProcess))
    : list (string * string * Repository) :=
  List.map fst (List.filter (fun a => keep (snd a)) attempts).

(** An interaction that is no [git clone]. *)
Definition no_clone (e : Event) : Prop := is_clone e = false.

(** The error entry of a finding whose clone failed. *)
Definition clone_failure (finding : string * string * Repository) : string :=
  "Failed to clone " ++ finding_label finding.

(** ** A scripted outside world for the worked examples

    [git remote get-url] prints [origin]; the transfer request, the lookup
    of the poll and [git clone] get the given replies; [gh repo list] prints
    a listing that decodes to [listing]; every folder asked about is a git
    working copy; nothing takes time but sleeping. *)

Definition reply_ok (out : string) : CompletedProcess :=
  {| returncode := 0; stdout := out; stderr := "" |}.

Definition reply_failed (err : string) : CompletedProcess :=
  {| returncode := 1; stdout := ""; stderr := err |}.

Definition scripted_env (origin : string) (transfer view clone : CompletedProcess)
    (listing : list Repository) : Env :=
  {| run_reply := fun _ cmd =>
       let arg := fun n => List.nth n cmd "" in
       if String.eqb (arg 0%nat) "gh" then
         if String.eqb (arg 1%nat) "api" then transfer
         else if String.eqb (arg 2%nat) "view" then view
         else reply_ok "listing"
       else if String.eqb (arg 1%nat) "clone" then clone
       else if String.eqb (arg 4%nat) "get-url" then reply_ok origin
       else reply_ok "";
     is_dir_reply := fun _ _ => true;
     exists_reply := fun _ _ => true;
     iterdir_reply := fun _ _ => [];
     move_reply := fun _ _ _ => None;
     latency := fun _ => 0%Q;
     decode_repo_list := fun out => if String.eqb out "listing" then Some listing else None |}.

Definition demo_config : Config :=
  mk_config orgs_base ["acme"; "other"] 300 [] true "ssh".

Definition demo_handler : OrgMoveHandler := new_handler demo_config true.

Definition world0 : World := {| clock := 0; history := [] |}.

(** The world a second later. *)
Definition world1 : World := {| clock := 1; history := [] |}.

(** The move [acme/svc -> other/svc] of scenarios 4 and 5. *)
Definition svc_src : Path := (orgs_base ++ ["acme"; "svc"])%list.
Definition svc_dest : Path := (orgs_base ++ ["other"; "svc"])%list.
Definition svc_moved : FsEvent := DirMovedEvent svc_src svc_dest.

(** The rename [acme/tmp -> acme/tmp2] of scenario 6. *)
Definition tmp_renamed : FsEvent :=
  DirMovedEvent (orgs_base ++ ["acme"; "tmp"])%list (orgs_base ++ ["acme"; "tmp2"])%list.

(** The remote never shows [other/svc]. *)
Definition env_never_confirmed : Env :=
  scripted_env "git@github.com:acme/svc.git
" (reply_ok "{}") (reply_failed "Could not resolve to a Repository") (reply_ok "") [].

(** The remote answers the request with "already pending". *)
Definition env_already_pending : Env :=
  scripted_env "git@github.com:acme/svc.git
" (reply_failed "Validation Failed: Transfer is already pending")
    (reply_ok "{}") (reply_ok "") [].

(** The working copy still points at a third organisation. *)
Definition env_stale_remote : Env :=
  scripted_env "https://github.com/elsewhere/svc.git
" (reply_ok "{}") (reply_ok "{}") (reply_ok "") [].

(** [acme] lists [web] and the housekeeping repository [.github]. *)
Definition env_housekeeping : Env :=
  scripted_env "" (reply_ok "{}") (reply_ok "{}") (reply_ok "")
    [descriptor "acme" "web"; descriptor "acme" ".github"].

Definition local_housekeeping : LocalRepos :=
  [("acme", [("web", (orgs_base ++ ["acme"; "web"])%list);
             (".github", (orgs_base ++ ["acme"; ".github"])%list)]);
   ("other", [])].

Definition housekeeping_config : Config :=
  mk_config orgs_base ["acme"] 300 [] true "ssh".

(** ** Round trip of clone URLs *)

(** The string holds no ['/']. *)
Definition no_slash (s : string) : Prop := PyStr.contains "/" s = false.

(** No occurrence of [sep] in [a ++ t] starts inside [a]. *)
Fixpoint no_match_in (sep a t : string) : Prop :=
  match a with
  | EmptyString => True
  | String c a' => String.prefix sep (a ++ t) = false /\ no_match_in sep a' t
  end.

(** * Further definitions *)

(** A local tree that mirrors its remote snapshot. *)
Definition remote_mirrored : GithubRepos := [("acme", [("web", descriptor "acme" "web")])].
Definition local_mirrored : LocalRepos :=
  [("acme", [("web", (orgs_base ++ ["acme"; "web"])%list)])].

(** ** Observing the collection of the snapshots *)

(** During the run from [w0] to [w] the folder [path] was reported to be a
    directory with a [.git] directory inside. *)
Definition seen_git (w0 w : World) (path : Path) : Prop :=
  happened (EIsDir path true) w0 w
  /\ happened (EIsDir (Pathlib.div path ".git") true) w0 w.

(** The organisations of a snapshot are those of [orgs], and both levels
    are dicts. *)
Definition snapshot_of {V : Type} (orgs : list string)
    (result : list (string * list (string * V))) : Prop :=
  snapshot_wf result /\ forall org, In org (PyDict.keys result) <-> In org orgs.

(** The command of [list_org_repos]. *)
Definition list_cmd (org : string) : list string :=
  ["gh"; "repo"; "list"; org; "--limit"; "500"; "--json";
   "name,owner,nameWithOwner,url,sshUrl,isPrivate,isArchived,defaultBranchRef"].

(** What the local scan guarantees about a snapshot built between [w0] and
    [w] from the organisations [orgs]. *)
Definition local_scan_ok (orgs : list string) (w0 w : World) (result : LocalRepos) : Prop :=
  snapshot_of orgs result
  /\ forall org name path,
       local_entry result org name path ->
       name = Pathlib.name path /\ seen_git w0 w path.

(** The listing of [org] fails when it is asked after the history [h]: the
    command exits with an error or its output is no JSON. *)
Definition listing_fails (env : Env) (h : list Event) (org : string) : Prop :=
  returncode (run_reply env h (list_cmd org)) <> 0%Z
  \/ decode_repo_list env (stdout (run_reply env h (list_cmd org))) = None.

(** No command succeeds: the network is down. *)
Definition env_offline : Env :=
  {| run_reply := fun _ _ => reply_failed "connection refused";
     is_dir_reply := fun _ _ => true;
     exists_reply := fun _ _ => true;
     iterdir_reply := fun _ _ => [];
     move_reply := fun _ _ _ => None;
     latency := fun _ => 0%Q;
     decode_repo_list := fun _ => None |}.

(** ** The phases of a sync *)

(** Fetching both snapshots and creating the organisation folders. *)
Definition sync_prepare (env : Env) (config : Config) (dry_run : bool)
    : M (LocalRepos * GithubRepos) :=
  print_info env "Fetching repository information..." ;;
  do local_repos <- get_local_repos env config in
  do github_repos <- get_github_repos env config in
  (if negb dry_run then
     for_each (organizations config)
       (fun org _ => path_mkdir env (get_org_path config org)) tt
   else ret tt) ;;
  ret (local_repos, github_repos).

Definition empty_result : SyncResult :=
  {| cloned := []; moved := []; orphaned := []; errors := [] |}.

(** The block [if move_misplaced: ...]. *)
Definition move_phase (env : Env) (config : Config) (move_misplaced dry_run : bool)
    (local_repos : LocalRepos) (github_repos : GithubRepos) (result : SyncResult)
    : M SyncResult :=
  if move_misplaced then
    for_each (find_misplaced_repos local_repos github_repos) (move_one env config dry_run) result
  else ret result.

(** The block [if clone_missing: ...]. *)
Definition clone_phase (env : Env) (config : Config) (clone_missing dry_run : bool)
    (local_repos : LocalRepos) (github_repos : GithubRepos) (result : SyncResult)
    : M SyncResult :=
  if clone_missing then
    for_each (find_missing_repos local_repos github_repos) (clone_one env config dry_run) result
  else ret result.

(** The final loop over the orphaned findings. *)
Definition orphan_phase (env : Env) (local_repos : LocalRepos) (github_repos : GithubRepos)
    (result : SyncResult) : M SyncResult :=
  for_each (find_orphaned_repos local_repos github_repos) (report_orphan env) result.

(** [org/name] of an orphaned finding. *)
Definition orphan_label (finding : string * string * Path) : string :=
  let '(org, repo_name, _) := finding in org ++ "/" ++ repo_name.

(** [(repo, from_org, to_org)] of a misplaced finding. *)
Definition move_triple (finding : string * string * string * Path)
    : string * string * string :=
  let '(repo_name, from_org, to_org, _) := finding in (repo_name, from_org, to_org).

(** An interaction that changes the disk: a move, a new directory, or any
    [git] command. *)
Definition touches_disk (e : Event) : bool :=
  match e with
  | EMove _ _ _ | EMkdir _ => true
  | ERun cmd _ => String.eqb (List.nth 0 cmd "") "git"
  | _ => false
  end.

Definition is_move (e : Event) : bool :=
  match e with EMove _ _ _ => true | _ => false end.

(** The snapshots a sync started in [w] works with. *)
Definition sync_local (env : Env) (config : Config) (w : World) : LocalRepos :=
  fst (get_local_repos env config
         (snd (print_info env "Fetching repository information..." w))).

Definition sync_github (env : Env) (config : Config) (w : World) : GithubRepos :=
  let w0 := snd (print_info env "Fetching repository information..." w) in
  fst (get_github_repos env config (snd (get_local_repos env config w0))).

(** The arguments of the [shutil.move] of a misplaced finding. *)
Definition move_args (config : Config) (finding : string * string * string * Path)
    : string * string :=
  let '(repo_name, _, to_org, current_path) := finding in
  (Pathlib.str current_path, Pathlib.str (get_repo_path config to_org repo_name)).

(** The error entry of a finding whose relocation raised [e]. *)
Definition move_failure (finding : string * string * string * Path) (e : string) : string :=
  let '(repo_name, _, _, _) := finding in "Failed to move " ++ repo_name ++ ": " ++ e.

(** The moves among some interactions, with what they raised. *)
Definition move_runs (evs : list Event) : list ((string * string) * option string) :=
  List.flat_map
    (fun e => match e with EMove src dst raised => [((src, dst), raised)] | _ => [] end)
    evs.

(** The findings whose relocation went through. *)
Definition relocated (attempts : list ((string * string * string * Path) * option string))
    : list (string * string * string * Path) :=
  List.flat_map (fun a => match snd a with None => [fst a] | Some _ => [] end) attempts.

(** The error entries of the relocations that raised. *)
Definition relocation_errors
    (attempts : list ((string * string * string * Path) * option string)) : list string :=
  List.flat_map
    (fun a => match snd a with Some e => [move_failure (fst a) e] | None => [] end)
    attempts.

(** A [git -C <path> ...] command: git run inside an existing repository,
    as [get_repo_remote_url] and [set_repo_remote_url] do. *)
Definition is_git_inside (e : Event) : bool :=
  match e with
  | ERun cmd _ => String.eqb (List.nth 0 cmd "") "git" && String.eqb (List.nth 1 cmd "") "-C"
  | _ => false
  end.

(** ** Observing the transfer workflow *)

(** The reply turns the transfer request down: a failure that does not
    report a pending transfer. *)
Definition rejected (reply : CompletedProcess) : bool :=
  negb (returncode reply =? 0)%Z && negb (already_pending reply).

(** The rejection names a cooldown. *)
Definition on_cooldown (reply : CompletedProcess) : bool :=
  PyStr.contains "must wait" (PyStr.lower (stderr reply))
  || PyStr.contains "cooldown" (PyStr.lower (stderr reply)).

(** The [gh] commands among some interactions. *)
Definition gh_runs (evs : list Event) : list (list string) :=
  List.flat_map
    (fun e => match e with ERun cmd _ => if is_gh e then [cmd] else [] | _ => [] end)
    evs.

(** The command of [set_repo_remote_url]. *)
Definition set_url_cmd (path : Path) (url : string) : list string :=
  ["git"; "-C"; Pathlib.str path; "remote"; "set-url"; "origin"; url].

(** An interaction that is no [gh] command, no rewrite of a remote URL
    and no call of the observer. *)
Definition local_only (e : Event) : Prop := is_gh e = false /\ quiet e.

(** The transfer of [acme/svc] is accepted and [other/svc] shows up at once. *)
Definition env_confirmed : Env :=
  scripted_env "git@github.com:acme/svc.git
" (reply_ok "{}") (reply_ok "{}") (reply_ok "") [].

(** The remote turns the request down because of the cooldown. *)
Definition env_cooldown : Env :=
  scripted_env "git@github.com:acme/svc.git
" (reply_failed "You must wait before transferring this repository again")
    (reply_ok "{}") (reply_ok "") [].

(** The working copy was cloned from another forge. *)
Definition env_foreign_remote : Env :=
  scripted_env "https://gitlab.com/acme/svc.git
" (reply_ok "{}") (reply_ok "{}") (reply_ok "") [].

(** An interaction of the update of the remote URL after a confirmed
    transfer: no call of the observer, and no command but the rewrite to
    [url] inside [path]. *)
Definition update_only (path : Path) (url : string) (e : Event) : Prop :=
  is_callback e = false
  /\ forall cmd reply, e = ERun cmd reply -> cmd = set_url_cmd path url.


(** ** Observing the confirmation poll *)

(** The replies to the lookups of [new_owner/repo] among some interactions. *)
Definition lookups (new_owner repo : string) (evs : list Event) : list CompletedProcess :=
  List.flat_map
    (fun e =>
       match e with
       | ERun cmd reply => if bool_decide (cmd = view_cmd new_owner repo) then [reply] else []
       | _ => []
       end)
    evs.

(** The lookup found the repository. *)
Definition found (reply : CompletedProcess) : bool := (returncode reply =? 0)%Z.

(** What the result of a poll says about the replies to its lookups: on
    [True] the last lookup found the repository and no earlier one did; on
    [False] none did; when the fuel ran out none did in [fuel] lookups. *)
Definition poll_outcome (fuel : nat) (result : option bool) (replies : list CompletedProcess)
    : Prop :=
  match result with
  | Some true =>
      exists failed last,
        replies = (failed ++ [last])%list
        /\ found last = true
        /\ Forall (fun r => found r = false) failed
  | Some false => Forall (fun r => found r = false) replies
  | None => Forall (fun r => found r = false) replies /\ List.length replies = fuel
  end.

(** ** Observing a stream of notifications *)

(** The clock readings at which a stream of notifications started a
    handling task for the debounce key [key]. *)
Fixpoint dispatch_times (env : Env) (self : OrgMoveHandler) (key : string)
    (notifications : list (World * FsEvent)) : list Q :=
  match notifications with
  | [] => []
  | (w, event) :: rest =>
      let '(self', task) := fst (on_moved env self event w) in
      let times := dispatch_times env self' key rest in
      match task with
      | Some (_, _, src_path, dest_path) =>
          if String.eqb (move_key_of src_path dest_path) key
          then sighting_time env w event :: times
          else times
      | None => times
      end
  end.

(** Consecutive readings lie at least [gap] apart. *)
Fixpoint spaced (gap : Q) (times : list Q) : Prop :=
  match times with
  | [] => True
  | t1 :: rest =>
      match rest with
      | [] => True
      | t2 :: _ => (gap <= t2 - t1)%Q
      end
      /\ spaced gap rest
  end.

(** A path component as pathlib keeps it: not empty, not [.], and without
    a ['/']. *)
Definition clean_part (c : string) : Prop := c <> "" /\ c <> "." /\ no_slash c.

(** ** sync.py: first set-up *)

(** [init_local_structure(config)] *)
Definition init_local_structure (env : Env) (config : Config) : M SyncResult :=
  print_info env ("Initializing local structure at: " ++ Pathlib.str (base_path config)) ;;
  path_mkdir env (base_path config) ;;
  for_each (organizations config)
    (fun org _ =>
       let org_path := get_org_path config org in
       path_mkdir env org_path ;;
       print_success env ("Created directory: " ++ Pathlib.str org_path))
    tt ;;
  sync_github_to_local env config true true false.

(** An interaction that asks nothing of the remote but the listing of one
    of the organisations [orgs]. *)
Definition lists_only (orgs : list string) (e : Event) : Prop :=
  forall cmd reply,
    e = ERun cmd reply -> is_gh e = true -> exists org, In org orgs /\ cmd = list_cmd org.

(** ** sync.py: the status report *)

(** The dict [get_sync_status] returns; the three lists are its
    [details]. *)
Record SyncStatus := {
  status_local_repos : nat;
  status_github_repos : nat;
  status_misplaced : nat;
  status_missing : nat;
  status_orphaned : nat;
  status_in_sync : bool;
  details_misplaced : list (string * string * string * Path);
  details_missing : list (string * string * Repository);
  details_orphaned : list (string * string * Path)
}.

(** [sum(len(repos) for repos in snapshot.values())] *)
Definition count_repos {V : Type} (snapshot : list (string * list (string * V))) : nat :=
  List.list_sum (List.map (fun e => List.length (snd e)) snapshot).

(** [get_sync_status(config)] *)
Definition get_sync_status (env : Env) (config : Config) : M SyncStatus :=
  do local_repos <- get_local_repos env config in
  do github_repos <- get_github_repos env config in
  let misplaced := find_misplaced_repos local_repos github_repos in
  let missing := find_missing_repos local_repos github_repos in
  let orphaned := find_orphaned_repos local_repos github_repos in
  let local_count := count_repos local_repos in
  let github_count := count_repos github_repos in
  ret {| status_local_repos := local_count;
         status_github_repos := github_count;
         status_misplaced := List.length misplaced;
         status_missing := List.length missing;
         status_orphaned := List.length orphaned;
         status_in_sync :=
           (List.length misplaced =? 0)%nat && (List.length missing =? 0)%nat;
         details_misplaced := misplaced;
         details_missing := missing;
         details_orphaned := orphaned |}.

(** The snapshots a status report started in [w] works with. *)
Definition status_local (env : Env) (config : Config) (w : World) : LocalRepos :=
  fst (get_local_repos env config w).

Definition status_github (env : Env) (config : Config) (w : World) : GithubRepos :=
  fst (get_github_repos env config (snd (get_local_repos env config w))).

(** [acme/web] is listed remotely and cloned into the folder of [acme];
    next to it lies a folder [notes] that the remote does not know. *)
Definition env_mirrored : Env :=
  {| run_reply := fun _ _ => reply_ok "listing";
     is_dir_reply := fun _ _ => true;
     exists_reply := fun _ _ => true;
     iterdir_reply := fun _ p =>
       if bool_decide (p = (orgs_base ++ ["acme"])%list)
       then [(orgs_base ++ ["acme"; "web"])%list; (orgs_base ++ ["acme"; "notes"])%list]
       else [];
     move_reply := fun _ _ _ => None;
     latency := fun _ => 0%Q;
     decode_repo_list := fun _ => Some [descriptor "acme" "web"] |}.

(** ** Where a sync writes *)

(** A name that can stand for a folder of its own: not empty, not [.] or
    [..], and without a ['/']. *)
Definition proper_name (c : string) : Prop := clean_part c /\ c <> "..".

(** What the collaborators hand to a sync is made of proper names: the
    repository names of every decoded listing and the folders every
    [iterdir] yields. *)
Definition proper_replies (env : Env) : Prop :=
  (forall out repos,
     decode_repo_list env out = Some repos ->
     Forall (fun repo => proper_name (repo_name repo)) repos)
  /\ (forall h p, Forall (fun item => proper_name (Pathlib.name item)) (iterdir_reply env h p)).

(** A move to, or a [git clone] into, the folder [base_path/org/name] of a
    configured organisation [org] and a proper name [name]; or an
    interaction that is neither a move nor a clone. *)
Definition lands_under (config : Config) (e : Event) : Prop :=
  match e with
  | EMove _ dst _ =>
      exists org name,
        In org (organizations config) /\ proper_name name
        /\ dst = Pathlib.str (base_path config ++ [org; name])%list
  | ERun cmd _ =>
      is_clone e = true ->
      exists org name url,
        In org (organizations config) /\ proper_name name
        /\ cmd = ["git"; "clone"; url; Pathlib.str (base_path config ++ [org; name])%list]
  | _ => True
  end.

(** An interaction that neither moves nor clones. *)
Definition no_transfer_of_files (e : Event) : Prop := is_move e = false /\ is_clone e = false.

(** [tools] lies in the folder of [acme] and is listed under [other];
    moving it fails. *)
Definition env_misplaced : Env :=
  {| run_reply := fun _ cmd => reply_ok (List.nth 3 cmd "");
     is_dir_reply := fun _ _ => true;
     exists_reply := fun _ _ => true;
     iterdir_reply := fun _ p =>
       if bool_decide (p = (orgs_base ++ ["acme"])%list)
       then [(orgs_base ++ ["acme"; "tools"])%list]
       else [];
     move_reply := fun _ _ _ => Some "Permission denied";
     latency := fun _ => 0%Q;
     decode_repo_list := fun out =>
       if String.eqb out "other" then Some [descriptor "other" "tools"] else Some [] |}.

(** [demo_config] without the update of remote URLs. *)
Definition manual_config : Config :=
  mk_config orgs_base ["acme"; "other"] 300 [] false "ssh".

(** ** Observing the debounce by pairs of paths *)

(** Both paths of a notification are made of clean components, as
    pathlib keeps them. *)
Definition clean_event (event : FsEvent) : Prop :=
  Forall clean_part (event_src event) /\ Forall clean_part (event_dest event).

(** A notification that passes the filter and carries the pair
    [(src, dest)]. *)
Definition carries (env : Env) (self : OrgMoveHandler) (src dest : Path)
    (n : World * FsEvent) : Prop :=
  accepted env self (fst n) (snd n) = true
  /\ event_src (snd n) = src
  /\ event_dest (snd n) = dest.

(** The number of handling tasks started for the pair [(src, dest)]. *)
Definition dispatched_for_pair (src dest : Path) (tasks : list (option MoveTask)) : nat :=
  List.length
    (List.filter
       (fun task =>
          match task with
          | Some (_, _, src_path, dest_path) =>
              bool_decide (src_path = src /\ dest_path = dest)
          | None => false
          end)
       tasks).

(** The move [acme/web -> other/web], a pair of its own. *)
Definition web_moved : FsEvent :=
  DirMovedEvent (orgs_base ++ ["acme"; "web"])%list (orgs_base ++ ["other"; "web"])%list.

(** A world with the clock reading [t] and nothing done yet. *)
Definition world_at (t : Q) : World := {| clock := t; history := [] |}.

(** * Properties *)

(** ** Sanity checks of the string, URL and path operations *)

Example split_slash : PyStr.split "/" "acme/web" = ["acme"; "web"].
Proof. reflexivity. Qed.

Example split_trailing : PyStr.split "/" "acme/" = ["acme"; ""].
Proof. reflexivity. Qed.

Example split_multi :
  PyStr.split "github.com/" "https://github.com/acme/web.git" = ["https://"; "acme/web.git"].
Proof. reflexivity. Qed.

Example split_absent : PyStr.split "/" "" = [""].
Proof. reflexivity. Qed.

Example strip_both : PyStr.strip " git@github.com:a/b.git
" = "git@github.com:a/b.git".
Proof. reflexivity. Qed.

Example drop_last_git : PyStr.drop_last 4 "web.git" = "web".
Proof. reflexivity. Qed.

Example of_Z_120 : PyStr.of_Z 120 = "120".
Proof. reflexivity. Qed.

Example parse_ssh : parse_github_remote "git@github.com:acme/web.git" = Some ("acme", "web").
Proof. reflexivity. Qed.

Example parse_https :
  parse_github_remote "https://github.com/acme/web.git" = Some ("acme", "web").
Proof. reflexivity. Qed.

Example parse_https_deep :
  parse_github_remote "https://github.com/acme/web/tree/main" = Some ("acme", "web").
Proof. reflexivity. Qed.

Example parse_other : parse_github_remote "git@gitlab.com:acme/web.git" = None.
Proof. reflexivity. Qed.

Example str_path : Pathlib.str ["home"; "orgs"; "acme"] = "/home/orgs/acme".
Proof. reflexivity. Qed.

Example div_path : Pathlib.div ["home"; "orgs"] "acme" = ["home"; "orgs"; "acme"].
Proof. reflexivity. Qed.

Example relative_inside :
  Pathlib.relative_to ["home"; "orgs"; "acme"; "web"] ["home"; "orgs"] = Some ["acme"; "web"].
Proof. reflexivity. Qed.

Example relative_outside : Pathlib.relative_to ["tmp"; "web"] ["home"; "orgs"] = None.
Proof. reflexivity. Qed.

(** ** Dicts *)

Lemma mem_true_iff {V : Type} (k : string) (d : list (string * V)) :
  PyDict.mem k d = true <-> In k (PyDict.keys d).
Proof.
  unfold PyDict.mem. induction d as [|[k' v] d IH]; simpl.
  - split; [discriminate | tauto].
  - destruct (String.eqb_spec k k') as [->|Hne].
    + split; auto.
    + rewrite IH. split; [auto | intros [H|H]; [congruence | exact H]].
Qed.

Lemma mem_false_iff {V : Type} (k : string) (d : list (string * V)) :
  PyDict.mem k d = false <-> ~ In k (PyDict.keys d).
Proof.
  rewrite <- mem_true_iff. destruct (PyDict.mem k d); split; congruence.
Qed.

Lemma get_Some_In {V : Type} (k : string) (v : V) (d : list (string * V)) :
  PyDict.get k d = Some v -> In (k, v) d.
Proof.
  induction d as [|[k' v'] d IH]; simpl; [discriminate|].
  destruct (String.eqb_spec k k') as [->|Hne].
  - intros [= ->]. now left.
  - intros H. right. auto.
Qed.

Lemma get_None_iff {V : Type} (k : string) (d : list (string * V)) :
  PyDict.get k d = None <-> ~ In k (PyDict.keys d).
Proof.
  rewrite <- mem_false_iff. unfold PyDict.mem.
  destruct (PyDict.get k d); split; congruence.
Qed.

Lemma In_get_Some {V : Type} (k : string) (v : V) (d : list (string * V)) :
  PyDict.wf d -> In (k, v) d -> PyDict.get k d = Some v.
Proof.
  unfold PyDict.wf, PyDict.keys.
  induction d as [|[k' v'] d IH]; simpl; [tauto|].
  intros Hnd [H|H].
  - injection H as -> ->. now rewrite String.eqb_refl.
  - inversion Hnd as [|? ? Hnotin Hnd']; subst.
    destruct (String.eqb_spec k k') as [->|Hne].
    + exfalso. apply Hnotin. change k' with (fst (k', v)). now apply in_map.
    + auto.
Qed.

Lemma In_keys {V : Type} (k : string) (d : list (string * V)) :
  In k (PyDict.keys d) <-> exists v, In (k, v) d.
Proof.
  unfold PyDict.keys. rewrite in_map_iff. split.
  - intros [[k' v] [Hk Hin]]. simpl in Hk. subst. eauto.
  - intros [v Hin]. exists (k, v). auto.
Qed.

Lemma str_in_iff (x : string) (l : list string) : str_in x l = true <-> In x l.
Proof.
  unfold str_in. rewrite existsb_exists. split.
  - intros [y [Hin Heq]]. apply String.eqb_eq in Heq. now subst.
  - intros Hin. exists x. split; [exact Hin | apply String.eqb_refl].
Qed.

Lemma str_in_mem {V : Type} (x : string) (d : list (string * V)) :
  str_in x (PyDict.keys d) = PyDict.mem x d.
Proof.
  destruct (PyDict.mem x d) eqn:E.
  - apply str_in_iff, mem_true_iff, E.
  - destruct (str_in x (PyDict.keys d)) eqn:E'; [|reflexivity].
    apply str_in_iff, mem_true_iff in E'. congruence.
Qed.

(** ** The remote indexes of the reconciliation engine *)

Lemma assign_all_lookup (org : string) (names : list string) (acc : gmap string string)
    (name : string) :
  fold_left (fun locs repo_name => <[repo_name := org]> locs) names acc !! name
  = if str_in name names then Some org else acc !! name.
Proof.
  revert acc. induction names as [|n names IH]; intros acc; simpl; [reflexivity|].
  rewrite IH. unfold str_in at 2. simpl. fold (str_in name names).
  destruct (str_in name names); [now rewrite orb_true_r|].
  rewrite orb_false_r. destruct (String.eqb_spec name n) as [->|Hne].
  - apply lookup_insert_eq.
  - apply lookup_insert_ne. congruence.
Qed.

Lemma locations_fold_lookup (g : GithubRepos) (acc : gmap string string) (name : string) :
  fold_left
    (fun locs '(org, repos) =>
       fold_left (fun locs repo_name => <[repo_name := org]> locs) (PyDict.keys repos) locs)
    g acc !! name
  = match last_owner g name with Some o => Some o | None => acc !! name end.
Proof.
  revert acc. induction g as [|[org repos] g IH]; intros acc; simpl; [reflexivity|].
  rewrite IH. destruct (last_owner g name); [reflexivity|].
  rewrite assign_all_lookup, str_in_mem. now destruct (PyDict.mem name repos).
Qed.

Lemma github_locations_lookup (g : GithubRepos) (name : string) :
  github_locations g !! name = last_owner g name.
Proof.
  unfold github_locations. rewrite locations_fold_lookup.
  destruct (last_owner g name); [reflexivity | apply lookup_empty].
Qed.

Lemma last_owner_None (g : GithubRepos) (name : string) :
  last_owner g name = None <-> forall e, In e g -> ~ In name (PyDict.keys (snd e)).
Proof.
  induction g as [|[org repos] g IH]; simpl.
  - split; [intros _ e [] | reflexivity].
  - destruct (last_owner g name) as [o|].
    + split; [discriminate|]. intros H. exfalso.
      assert (Some o = None) as E; [|discriminate].
      apply IH. intros e He. apply H. now right.
    + destruct (PyDict.mem name repos) eqn:E.
      * split; [discriminate|]. intros H. exfalso.
        apply (H (org, repos)); [now left | now apply mem_true_iff].
      * split; [|reflexivity]. intros _ e [<-|He].
        -- now apply mem_false_iff.
        -- now apply IH.
Qed.

Lemma last_owner_None_remote (g : GithubRepos) (name : string) :
  last_owner g name = None <-> ~ remote_name g name.
Proof.
  rewrite last_owner_None. unfold remote_name. split.
  - intros H (org & repos & Hin & Hk). exact (H _ Hin Hk).
  - intros H [org repos] Hin Hk. apply H. eauto.
Qed.

Lemma last_owner_owning (g : GithubRepos) (name org : string) :
  last_owner g name = Some org <-> owning_org g name org.
Proof.
  revert org. induction g as [|[o r] g IH]; intros org; simpl.
  - split; [discriminate|]. intros (before & repos & after & Heq & _).
    destruct before; discriminate.
  - destruct (last_owner g name) as [o'|] eqn:Eo.
    + split.
      * intros [= <-]. destruct (proj1 (IH o') eq_refl) as (before & repos & after & -> & Hk & Hafter).
        exists ((o, r) :: before), repos, after. auto.
      * intros (before & repos & after & Heq & Hk & Hafter).
        destruct before as [|b before]; simpl in Heq; injection Heq as Hb Hg.
        -- subst. exfalso. apply (proj2 (last_owner_None _ _)) in Hafter. congruence.
        -- f_equal. symmetry. assert (Some o' = Some org) as E; [|congruence].
           apply IH. exists before, repos, after. auto.
    + pose proof (proj1 (last_owner_None _ _) Eo) as Eo'. clear Eo. rename Eo' into Eo. split.
      * destruct (PyDict.mem name r) eqn:Em; [|discriminate]. intros [= <-].
        exists [], r, g. split; [reflexivity|]. split; [now apply mem_true_iff | exact Eo].
      * intros (before & repos & after & Heq & Hk & Hafter).
        destruct before as [|b before]; simpl in Heq; injection Heq as Hb Hg.
        -- inversion Hb; subst. apply mem_true_iff in Hk. now rewrite Hk.
        -- exfalso. subst g. apply (Eo (org, repos)); [|exact Hk].
           apply in_or_app. right. now left.
Qed.

Lemma owning_org_remote_name (g : GithubRepos) (name org : string) :
  owning_org g name org -> remote_name g name.
Proof.
  intros (before & repos & after & -> & Hk & _). exists org, repos.
  split; [|exact Hk]. apply in_or_app. right. now left.
Qed.

(** With unique remote names the index holds the one organisation that
    lists the name. *)
Lemma owning_org_unique (g : GithubRepos) (name org : string) :
  remote_names_unique g ->
  (owning_org g name org <-> exists repos, In (org, repos) g /\ In name (PyDict.keys repos)).
Proof.
  intros Huniq. split.
  - intros (before & repos & after & -> & Hk & _). exists repos.
    split; [|exact Hk]. apply in_or_app. right. now left.
  - intros (repos & Hin & Hk).
    destruct (last_owner g name) as [o|] eqn:Eo.
    + apply last_owner_owning in Eo. destruct Eo as (before & repos' & after & Heq & Hk' & Hafter).
      assert (org = o) as ->.
      { apply (Huniq org repos o repos' name); auto.
        rewrite Heq. apply in_or_app. right. now left. }
      exists before, repos', after. auto.
    + exfalso. exact (proj1 (last_owner_None _ _) Eo _ Hin Hk).
Qed.

Lemma names_fold_elem (g : GithubRepos) (acc : gset string) (name : string) :
  name ∈ fold_left (fun names '(_, repos) => names ∪ list_to_set (PyDict.keys repos)) g acc
  <-> name ∈ acc \/ remote_name g name.
Proof.
  revert acc. induction g as [|[org repos] g IH]; intros acc; simpl.
  - split; [auto|]. intros [H|(o & r & [] & _)]. exact H.
  - rewrite IH, elem_of_union, elem_of_list_to_set, list_elem_of_In. unfold remote_name. split.
    + intros [[H|H]|(o & r & Hin & Hk)]; [auto| |].
      * right. exists org, repos. split; [now left | exact H].
      * right. exists o, r. split; [now right | exact Hk].
    + intros [H|(o & r & [Hin|Hin] & Hk)]; [auto| |].
      * injection Hin as -> ->. auto.
      * right. exists o, r. auto.
Qed.

Lemma github_repo_names_elem (g : GithubRepos) (name : string) :
  name ∈ github_repo_names g <-> remote_name g name.
Proof.
  unfold github_repo_names. rewrite names_fold_elem. split; [|auto].
  intros [H|H]; [|exact H]. exfalso. revert H. apply not_elem_of_empty.
Qed.

(** ** Membership in the three finding lists *)

Lemma find_misplaced_In (local_repos : LocalRepos) (github_repos : GithubRepos)
    (name local_org correct_org : string) (path : Path) :
  In (name, local_org, correct_org, path) (find_misplaced_repos local_repos github_repos)
  <-> local_entry local_repos local_org name path
      /\ last_owner github_repos name = Some correct_org
      /\ correct_org <> local_org.
Proof.
  unfold find_misplaced_repos, local_entry. rewrite in_flat_map. split.
  - intros [[org repos] [Hin H]]. apply in_flat_map in H. destruct H as [[n p] [Hin' H]].
    rewrite github_locations_lookup in H.
    destruct (last_owner github_repos n) as [o|] eqn:Eo; [|destruct H].
    destruct (String.eqb_spec o org) as [->|Hne]; [destruct H|].
    destruct H as [H|[]]. inversion H; subst. eauto.
  - intros ((repos & Hin & Hin') & Ho & Hne). exists (local_org, repos). split; [exact Hin|].
    apply in_flat_map. exists (name, path). split; [exact Hin'|].
    rewrite github_locations_lookup, Ho.
    destruct (String.eqb_spec correct_org local_org); [contradiction | now left].
Qed.

Lemma find_missing_In (local_repos : LocalRepos) (github_repos : GithubRepos)
    (org name : string) (repo : Repository) :
  In (org, name, repo) (find_missing_repos local_repos github_repos)
  <-> remote_entry github_repos org name repo
      /\ PyDict.mem name
           (match PyDict.get org local_repos with Some d => d | None => [] end) = false.
Proof.
  unfold find_missing_repos, remote_entry. rewrite in_flat_map. split.
  - intros [[o repos] [Hin H]]. apply in_flat_map in H. destruct H as [[n r] [Hin' H]].
    destruct (PyDict.mem n _) eqn:Em; [destruct H|].
    destruct H as [H|[]]. inversion H; subst. eauto.
  - intros ((repos & Hin & Hin') & Hm). exists (org, repos). split; [exact Hin|].
    apply in_flat_map. exists (name, repo). split; [exact Hin'|].
    rewrite Hm. now left.
Qed.

Lemma find_orphaned_In (local_repos : LocalRepos) (github_repos : GithubRepos)
    (org name : string) (path : Path) :
  In (org, name, path) (find_orphaned_repos local_repos github_repos)
  <-> local_entry local_repos org name path /\ ~ remote_name github_repos name.
Proof.
  unfold find_orphaned_repos, local_entry. rewrite in_flat_map. split.
  - intros [[o repos] [Hin H]]. apply in_flat_map in H. destruct H as [[n p] [Hin' H]].
    destruct (decide (n ∈ github_repo_names github_repos)) as [He|He]; [destruct H|].
    destruct H as [H|[]]. inversion H; subst. split; [eauto|].
    now rewrite <- github_repo_names_elem.
  - intros ((repos & Hin & Hin') & Hn). exists (org, repos). split; [exact Hin|].
    apply in_flat_map. exists (name, path). split; [exact Hin'|].
    destruct (decide (name ∈ github_repo_names github_repos)) as [He|He]; [|now left].
    exfalso. apply Hn. now apply github_repo_names_elem.
Qed.

(** The local dict of [org] holds [name] exactly when some local entry of
    [org] has that name. *)
Lemma local_lookup_mem (local_repos : LocalRepos) (org name : string) :
  PyDict.wf local_repos ->
  (PyDict.mem name (match PyDict.get org local_repos with Some d => d | None => [] end) = true
   <-> exists path, local_entry local_repos org name path).
Proof.
  intros Hwf. rewrite mem_true_iff, In_keys. unfold local_entry. split.
  - intros [path Hin]. exists path.
    destruct (PyDict.get org local_repos) as [d|] eqn:Eg; [|destruct Hin].
    exists d. split; [now apply get_Some_In | exact Hin].
  - intros (path & repos & Hin & Hin'). exists path.
    now rewrite (In_get_Some _ _ _ Hwf Hin).
Qed.

Lemma misplaced_names_In (l : list (string * string * string * Path)) (name : string) :
  In name (misplaced_names l) <-> exists lo co p, In (name, lo, co, p) l.
Proof.
  unfold misplaced_names. rewrite in_map_iff. split.
  - intros [[[[n lo] co] p] [<- Hin]]. eauto.
  - intros (lo & co & p & Hin). now exists (name, lo, co, p).
Qed.

Lemma missing_names_In (l : list (string * string * Repository)) (name : string) :
  In name (missing_names l) <-> exists org repo, In (org, name, repo) l.
Proof.
  unfold missing_names. rewrite in_map_iff. split.
  - intros [[[o n] r] [<- Hin]]. eauto.
  - intros (o & r & Hin). now exists (o, name, r).
Qed.

Lemma orphaned_names_In (l : list (string * string * Path)) (name : string) :
  In name (orphaned_names l) <-> exists org p, In (org, name, p) l.
Proof.
  unfold orphaned_names. rewrite in_map_iff. split.
  - intros [[[o n] p] [<- Hin]]. eauto.
  - intros (o & p & Hin). now exists (o, name, p).
Qed.

Lemma remote_entry_name (github_repos : GithubRepos) (org name : string) (repo : Repository) :
  remote_entry github_repos org name repo -> remote_name github_repos name.
Proof.
  intros (repos & Hin & Hin'). exists org, repos. split; [exact Hin|].
  apply In_keys. eauto.
Qed.

(** ** Reconciliation: the claims *)

(** A repository kept under the wrong local organisation and absent from
    the folder of its owner is reported twice: as misplaced and as missing. *)
Lemma misplaced_also_missing (local_repos : LocalRepos) (github_repos : GithubRepos)
    (name local_org correct_org : string) (path : Path) :
  PyDict.wf local_repos ->
  In (name, local_org, correct_org, path) (find_misplaced_repos local_repos github_repos) ->
  ~ (exists p, local_entry local_repos correct_org name p) ->
  In name (missing_names (find_missing_repos local_repos github_repos)).
Proof.
  intros Hwf Hmis Habsent. apply find_misplaced_In in Hmis. destruct Hmis as (_ & Ho & _).
  apply last_owner_owning in Ho. destruct Ho as (before & repos & after & Heq & Hk & _).
  apply In_keys in Hk. destruct Hk as [repo Hrepo].
  apply missing_names_In. exists correct_org, repo. apply find_missing_In. split.
  - exists repos. split; [|exact Hrepo]. rewrite Heq. apply in_or_app. right. now left.
  - destruct (PyDict.mem name _) eqn:Em; [|reflexivity].
    exfalso. apply Habsent. now apply (local_lookup_mem _ _ _ Hwf).
Qed.

(** C1 (as stated, refuted): in scenario 2 of the specification the name
    [tools] is reported both as misplaced (it lives under [acme], [other]
    owns it) and as missing (the folder of [other] has no [tools]), so the
    three finding lists are not pairwise disjoint on names. *)
Lemma C1_misplaced_and_missing_overlap : ~ findings_disjoint local2 remote2.
Proof.
  intros H. destruct (H "tools") as [H1 _].
  destruct H1 as [Hmissing _]; [vm_compute; auto|].
  apply Hmissing. vm_compute. auto.
Qed.

(** C1 (amended): the orphaned findings share no repository name with the
    misplaced findings nor with the missing findings, for every pair of
    snapshots. *)
Theorem C1_orphaned_disjoint (local_repos : LocalRepos) (github_repos : GithubRepos)
    (name : string) :
  In name (orphaned_names (find_orphaned_repos local_repos github_repos)) ->
  ~ In name (misplaced_names (find_misplaced_repos local_repos github_repos))
  /\ ~ In name (missing_names (find_missing_repos local_repos github_repos)).
Proof.
  rewrite orphaned_names_In, misplaced_names_In, missing_names_In.
  intros (org & p & Horph). apply find_orphaned_In in Horph. destruct Horph as [_ Hnot].
  split.
  - intros (lo & co & p' & Hmis). apply find_misplaced_In in Hmis.
    destruct Hmis as (_ & Ho & _). apply Hnot.
    now apply owning_org_remote_name with co, last_owner_owning.
  - intros (o & r & Hmiss). apply find_missing_In in Hmiss.
    destruct Hmiss as [He _]. apply Hnot. now apply remote_entry_name with o r.
Qed.

(** Scenario 3 of the specification: [legacy] is orphaned only. *)
Lemma C1_orphaned_disjoint_witness :
  In "legacy" (orphaned_names (find_orphaned_repos local3 remote3))
  /\ ~ In "legacy" (misplaced_names (find_misplaced_repos local3 remote3))
  /\ ~ In "legacy" (missing_names (find_missing_repos local3 remote3)).
Proof.
  split.
  - vm_compute. auto.
  - apply (C1_orphaned_disjoint local3 remote3 "legacy"). vm_compute. auto.
Defined.

(** C2: the three functions compute the reference findings.  A tuple is in
    the misplaced list exactly when it is a local entry whose name the
    remote index maps to another organisation; in the missing list exactly
    when it is a remote entry whose name the local dict of the same
    organisation lacks; in the orphaned list exactly when it is a local entry
    whose name no tracked remote organisation lists. *)
Theorem C2_reconcile_refines_spec (local_repos : LocalRepos) (github_repos : GithubRepos) :
  PyDict.wf local_repos ->
  (forall f, In f (find_misplaced_repos local_repos github_repos)
             <-> Misplaced_spec local_repos github_repos f)
  /\ (forall f, In f (find_missing_repos local_repos github_repos)
                <-> Missing_spec local_repos github_repos f)
  /\ (forall f, In f (find_orphaned_repos local_repos github_repos)
                <-> Orphaned_spec local_repos github_repos f).
Proof.
  intros Hwf. split; [|split].
  - intros [[[name lo] co] p]. unfold Misplaced_spec.
    now rewrite find_misplaced_In, last_owner_owning.
  - intros [[org name] repo]. unfold Missing_spec.
    rewrite find_missing_In, <- (local_lookup_mem _ _ _ Hwf).
    destruct (PyDict.mem name _); intuition congruence.
  - intros [[org name] p]. unfold Orphaned_spec. apply find_orphaned_In.
Qed.

(** Scenario 1 of the specification. *)
Lemma C2_reconcile_refines_spec_witness :
  PyDict.wf local1
  /\ (forall f, In f (find_misplaced_repos local1 remote1) <-> Misplaced_spec local1 remote1 f)
  /\ (forall f, In f (find_missing_repos local1 remote1) <-> Missing_spec local1 remote1 f)
  /\ (forall f, In f (find_orphaned_repos local1 remote1) <-> Orphaned_spec local1 remote1 f).
Proof.
  assert (PyDict.wf local1) as Hwf.
  { unfold PyDict.wf. simpl. constructor; [intros [] | constructor]. }
  split; [exact Hwf|].
  exact (C2_reconcile_refines_spec local1 remote1 Hwf).
Defined.

(** ** The world monad *)

Lemma bind_run {A B : Type} (m : M A) (k : A -> M B) (w : World) :
  bind m k w = k (fst (m w)) (snd (m w)).
Proof. unfold bind. now destruct (m w). Qed.

Lemma for_each_invariant {A S : Type} (P : S -> Prop) (body : A -> S -> M S) :
  (forall x s w, P s -> P (fst (body x s w))) ->
  forall l s w, P s -> P (fst (for_each l body s w)).
Proof.
  intros Hbody. induction l as [|x l IH]; intros s w Hs; simpl.
  - exact Hs.
  - rewrite bind_run. apply IH, Hbody, Hs.
Qed.

(** ** Dict updates *)

Lemma set_In {V : Type} (k : string) (v : V) (d : list (string * V)) (e : string * V) :
  In e (PyDict.set k v d) -> e = (k, v) \/ In e d.
Proof.
  induction d as [|[k' v'] d IH]; simpl.
  - intros [<-|[]]. now left.
  - destruct (String.eqb_spec k k') as [->|Hne].
    + intros [<-|H]; auto.
    + intros [<-|H]; [auto|]. destruct (IH H); auto.
Qed.

Lemma set_keys_In {V : Type} (k : string) (v : V) (d : list (string * V)) (x : string) :
  In x (PyDict.keys (PyDict.set k v d)) -> x = k \/ In x (PyDict.keys d).
Proof.
  intros H. apply In_keys in H. destruct H as [v' H]. apply set_In in H.
  destruct H as [H|H]; [injection H; auto|]. right. apply In_keys. eauto.
Qed.

Lemma set_inner_In {V : Type} (org name : string) (v : V)
    (result : list (string * list (string * V))) (e : string * list (string * V)) :
  In e (set_inner org name v result) ->
  In e result \/ exists d, In (org, d) result /\ e = (org, PyDict.set name v d).
Proof.
  unfold set_inner. destruct (PyDict.get org result) as [d|] eqn:Eg; [|auto].
  intros H. apply set_In in H. destruct H as [->|H]; [|auto].
  right. exists d. split; [now apply get_Some_In | reflexivity].
Qed.

(** ** Exclusions *)

Lemma free_of_reset (exclude : list string) (org : string) (result : GithubRepos) :
  free_of exclude result -> free_of exclude (PyDict.set org [] result).
Proof.
  intros H e He. apply set_In in He. destruct He as [->|He]; [intros k [] | now apply H].
Qed.

Lemma free_of_fill (exclude : list string) (org : string) (repos : list Repository)
    (result : GithubRepos) :
  free_of exclude result ->
  free_of exclude
    (fold_left
       (fun result repo =>
          if negb (str_in (repo_name repo) exclude)
          then set_inner org (repo_name repo) repo result
          else result)
       repos result).
Proof.
  revert result. induction repos as [|repo repos IH]; intros result H; simpl; [exact H|].
  apply IH. destruct (str_in (repo_name repo) exclude) eqn:Ex; simpl; [exact H|].
  intros e He. apply set_inner_In in He. destruct He as [He|(d & Hd & ->)]; [now apply H|].
  simpl. intros k Hk. apply set_keys_In in Hk. destruct Hk as [->|Hk]; [exact Ex|].
  exact (H _ Hd k Hk).
Qed.

Lemma get_github_repos_free (env : Env) (config : Config) (w : World) :
  free_of (exclude_repos config) (fst (get_github_repos env config w)).
Proof.
  unfold get_github_repos. apply for_each_invariant.
  - intros org result w' H. rewrite bind_run. unfold ret. simpl.
    now apply free_of_fill, free_of_reset.
  - intros e [].
Qed.

Lemma excluded_not_remote (env : Env) (config : Config) (w : World) (name : string) :
  In name (exclude_repos config) ->
  ~ remote_name (fst (get_github_repos env config w)) name.
Proof.
  intros Hex (org & repos & Hin & Hk).
  pose proof (get_github_repos_free env config w _ Hin name Hk) as H.
  apply str_in_iff in Hex. congruence.
Qed.

(** C3: with the remote snapshot collected by [get_github_repos], a name of
    the exclusion list is in neither the missing nor the misplaced findings,
    whatever the local snapshot and whatever the remote listings; every local
    entry of that name is reported as orphaned. *)
Theorem C3_exclusion_semantics (env : Env) (config : Config) (w : World)
    (local_repos : LocalRepos) (name : string) :
  In name (exclude_repos config) ->
  let github_repos := fst (get_github_repos env config w) in
  ~ In name (missing_names (find_missing_repos local_repos github_repos))
  /\ ~ In name (misplaced_names (find_misplaced_repos local_repos github_repos))
  /\ (forall org path,
        local_entry local_repos org name path ->
        In (org, name, path) (find_orphaned_repos local_repos github_repos)).
Proof.
  intros Hex github_repos.
  pose proof (excluded_not_remote env config w name Hex) as Hnot.
  fold github_repos in Hnot. split; [|split].
  - rewrite missing_names_In. intros (o & r & H). apply find_missing_In in H.
    destruct H as [He _]. apply Hnot. now apply remote_entry_name with o r.
  - rewrite misplaced_names_In. intros (lo & co & p & H). apply find_misplaced_In in H.
    destruct H as (_ & Ho & _). apply Hnot.
    now apply owning_org_remote_name with co, last_owner_owning.
  - intros org path Hloc. apply find_orphaned_In. auto.
Qed.

(** [acme] lists [.github] remotely and has it locally; it is excluded. *)
Lemma C3_exclusion_semantics_witness :
  In ".github" (exclude_repos housekeeping_config)
  /\ (let github_repos := fst (get_github_repos env_housekeeping housekeeping_config world0) in
      ~ In ".github" (missing_names (find_missing_repos local_housekeeping github_repos))
      /\ ~ In ".github" (misplaced_names (find_misplaced_repos local_housekeeping github_repos))
      /\ (forall org path,
            local_entry local_housekeeping org ".github" path ->
            In (org, ".github", path) (find_orphaned_repos local_housekeeping github_repos))).
Proof.
  assert (In ".github" (exclude_repos housekeeping_config)) as Hex by (simpl; auto).
  split; [exact Hex|].
  exact (C3_exclusion_semantics env_housekeeping housekeeping_config world0
           local_housekeeping ".github" Hex).
Defined.

(** ** What a computation adds to the history *)

Lemma events_since_app (w w' : World) (evs : list Event) :
  history w' = (history w ++ evs)%list -> events_since w w' = evs.
Proof.
  intros H. unfold events_since. rewrite H.
  rewrite skipn_app, skipn_all, Nat.sub_diag. reflexivity.
Qed.

Section Emits.
Variable env : Env.
Variable P : Event -> Prop.

Lemma emits_ret {A : Type} (a : A) : emits P (ret a).
Proof. intros w. exists []. simpl. now rewrite app_nil_r. Qed.

Lemma emits_bind {A B : Type} (m : M A) (k : A -> M B) :
  emits P m -> (forall a, emits P (k a)) -> emits P (bind m k).
Proof.
  intros Hm Hk w. rewrite bind_run.
  destruct (Hm w) as (evs1 & E1 & F1).
  destruct (Hk (fst (m w)) (snd (m w))) as (evs2 & E2 & F2).
  exists (evs1 ++ evs2)%list. split.
  - now rewrite E2, E1, app_assoc.
  - now apply Forall_app.
Qed.

Lemma emits_interact (e : Event) : P e -> emits P (interact env e).
Proof. intros He w. exists [e]. simpl. auto. Qed.

Lemma emits_time_time : emits P time_time.
Proof. intros w. exists []. simpl. now rewrite app_nil_r. Qed.

Lemma emits_time_sleep (d : Q) : P (ESleep d) -> emits P (time_sleep env d).
Proof. intros He w. exists [ESleep d]. simpl. auto. Qed.

Lemma emits_subprocess_run (cmd : list string) :
  (forall reply, P (ERun cmd reply)) -> emits P (subprocess_run env cmd).
Proof. intros He w. exists [ERun cmd (run_reply env (history w) cmd)]. simpl. auto. Qed.

Lemma emits_path_is_dir (p : Path) :
  (forall reply, P (EIsDir p reply)) -> emits P (path_is_dir env p).
Proof. intros He w. exists [EIsDir p (is_dir_reply env (history w) p)]. simpl. auto. Qed.

Lemma emits_path_exists (p : Path) :
  (forall reply, P (EExists p reply)) -> emits P (path_exists env p).
Proof. intros He w. exists [EExists p (exists_reply env (history w) p)]. simpl. auto. Qed.

Lemma emits_path_iterdir (p : Path) :
  (forall reply, P (EIterdir p reply)) -> emits P (path_iterdir env p).
Proof. intros He w. exists [EIterdir p (iterdir_reply env (history w) p)]. simpl. auto. Qed.

Lemma emits_shutil_move (src dst : string) :
  (forall reply, P (EMove src dst reply)) -> emits P (shutil_move env src dst).
Proof. intros He w. exists [EMove src dst (move_reply env (history w) src dst)]. simpl. auto. Qed.

Lemma emits_for_each {A S : Type} (body : A -> S -> M S) (l : list A) :
  (forall x s, emits P (body x s)) -> forall s, emits P (for_each l body s).
Proof.
  intros Hbody. induction l as [|x l IH]; intros s; simpl.
  - apply emits_ret.
  - apply emits_bind; [apply Hbody | exact IH].
Qed.

End Emits.

(** One structural step of an [emits] proof. *)
Ltac emits_step :=
  first
    [ apply emits_ret
    | apply emits_time_time
    | apply emits_interact
    | apply emits_time_sleep
    | apply emits_subprocess_run; intros ?
    | apply emits_path_is_dir; intros ?
    | apply emits_path_exists; intros ?
    | apply emits_path_iterdir; intros ?
    | apply emits_shutil_move; intros ?
    | apply emits_bind; [|intros ?]
    | apply emits_for_each; intros ? ?
    | match goal with
      | |- emits _ (if ?b then _ else _) => destruct b
      | |- emits _ (match ?x with _ => _ end) => destruct x
      end ].

Ltac emits_auto := repeat emits_step; try (simpl; auto; fail).

Section EmitsPrograms.
Variable env : Env.
Variable P : Event -> Prop.
Hypothesis P_info : forall message, P (EPrint LInfo message).
Hypothesis P_success : forall message, P (EPrint LSuccess message).
Hypothesis P_warning : forall message, P (EPrint LWarning message).
Hypothesis P_is_dir : forall p reply, P (EIsDir p reply).

Lemma emits_print_info (m : string) : emits P (print_info env m).
Proof. unfold print_info. emits_auto. Qed.

Lemma emits_print_success (m : string) : emits P (print_success env m).
Proof. unfold print_success. emits_auto. Qed.

Lemma emits_print_warning (m : string) : emits P (print_warning env m).
Proof. unfold print_warning. emits_auto. Qed.

Lemma emits_get_repo_remote_url (path : Path) :
  (forall reply,
     P (ERun ["git"; "-C"; Pathlib.str path; "remote"; "get-url"; "origin"] reply)) ->
  emits P (get_repo_remote_url env path).
Proof. intros H. unfold get_repo_remote_url, is_git_repo. emits_auto. Qed.

Lemma emits_set_repo_remote_url (path : Path) (url : string) :
  (forall reply,
     P (ERun ["git"; "-C"; Pathlib.str path; "remote"; "set-url"; "origin"; url] reply)) ->
  emits P (set_repo_remote_url env path url).
Proof. intros H. unfold set_repo_remote_url, is_git_repo. emits_auto. Qed.

Lemma emits_transfer_repo (owner repo new_owner : string) :
  (forall message, P (EPrint LError message)) ->
  (forall reply, P (ERun (transfer_cmd owner repo new_owner) reply)) ->
  emits P (transfer_repo env owner repo new_owner).
Proof.
  intros Herr H. unfold transfer_repo, run_gh_command, print_error.
  apply emits_bind; [apply emits_print_info | intros _].
  apply emits_bind; [apply emits_subprocess_run, H | intros result].
  repeat match goal with
         | |- emits _ (if ?b then _ else _) => destruct b
         end;
    (apply emits_bind; [|intros _; apply emits_ret]);
    auto using emits_print_warning, emits_print_success, emits_interact.
Qed.

Lemma emits_wait_loop (fuel : nat) (new_owner repo : string) (timeout : Z) (start : Q) :
  (forall reply, P (ERun (view_cmd new_owner repo) reply)) ->
  P (ESleep 2) ->
  emits P (wait_loop env fuel new_owner repo timeout start).
Proof.
  intros Hview Hsleep. induction fuel as [|fuel IH]; simpl.
  - apply emits_ret.
  - apply emits_bind; [apply emits_time_time | intros now].
    destruct (Qltb _ _); [|apply emits_ret].
    apply emits_bind; [apply emits_subprocess_run, Hview | intros result].
    destruct (returncode result =? 0)%Z.
    + apply emits_bind; [apply emits_print_success | intros _; apply emits_ret].
    + apply emits_bind; [now apply emits_time_sleep | intros _; exact IH].
Qed.

Lemma emits_wait_for_transfer (fuel : nat) (new_owner repo : string) (timeout : Z) :
  (forall reply, P (ERun (view_cmd new_owner repo) reply)) ->
  P (ESleep 2) ->
  emits P (wait_for_transfer env fuel new_owner repo timeout).
Proof.
  intros Hview Hsleep. unfold wait_for_transfer.
  apply emits_bind; [apply emits_print_info | intros _].
  apply emits_bind; [apply emits_time_time | intros start].
  apply emits_bind; [now apply emits_wait_loop | intros [[|]|]].
  - apply emits_ret.
  - apply emits_bind; [apply emits_print_warning | intros _; apply emits_ret].
  - apply emits_ret.
Qed.

Lemma emits_finish_transfer (fuel : nat) (self : OrgMoveHandler)
    (src_org dest_org : string) (dest_path : Path) (repo : string) :
  (forall reply, P (ERun (view_cmd dest_org repo) reply)) ->
  P (ESleep 2) ->
  (forall url reply,
     P (ERun ["git"; "-C"; Pathlib.str dest_path; "remote"; "set-url"; "origin"; url] reply)) ->
  P (ECallback src_org dest_org repo) ->
  emits P (finish_transfer env fuel self src_org dest_org dest_path repo).
Proof.
  intros Hview Hsleep Hset Hcall. unfold finish_transfer.
  apply emits_bind; [now apply emits_wait_for_transfer | intros [[|]|]].
  - apply emits_bind.
    + destruct (auto_update_remotes (config self)); [|apply emits_ret].
      apply emits_bind; [apply emits_set_repo_remote_url, Hset | intros [|]].
      * apply emits_print_success.
      * apply emits_print_warning.
    + intros _. apply emits_bind; [|intros _; apply emits_ret].
      destruct (on_transfer self); [now apply emits_interact | apply emits_ret].
  - apply emits_bind; [apply emits_print_warning | intros _; apply emits_ret].
  - apply emits_ret.
Qed.

End EmitsPrograms.

(** ** The transfer workflow *)

Lemma parsed_url_truthy (url : string) (r : string * string) :
  parse_github_remote url = Some r -> PyStr.truthy url = true.
Proof. destruct url; [discriminate | reflexivity]. Qed.

Lemma emits_remote_url_no_gh (env : Env) (path : Path) :
  emits (fun e => is_gh e = false) (get_repo_remote_url env path).
Proof. apply emits_get_repo_remote_url; intros; reflexivity. Qed.

(** C7: when the owner parsed from the remote URL of the moved folder is
    not the organisation it was moved from, [_process_move] returns (whatever
    the fuel) after printing the mismatch warning as its last interaction, and
    the whole run issues no [gh] command: neither a transfer request nor a
    poll. *)
Theorem C7_ownership_mismatch_no_transfer (env : Env) (fuel : nat) (self : OrgMoveHandler)
    (src_org dest_org : string) (src_path dest_path : Path) (w : World)
    (url current_owner repo : string) :
  fst (get_repo_remote_url env dest_path w) = Some url ->
  parse_github_remote url = Some (current_owner, repo) ->
  current_owner <> src_org ->
  let run := _process_move env fuel self src_org dest_org src_path dest_path w in
  fst run = Some tt
  /\ (exists before,
        events_since w (snd run)
        = (before ++ [mismatch_warning repo current_owner src_org])%list)
  /\ Forall (fun e => is_gh e = false) (events_since w (snd run)).
Proof.
  intros Hurl Hparse Hne run.
  destruct (emits_remote_url_no_gh env dest_path w) as (evs & Hhist & Hevs).
  assert (run = (Some tt,
                 snd (interact env (mismatch_warning repo current_owner src_org)
                        (snd (get_repo_remote_url env dest_path w))))) as Hrun.
  { unfold run, _process_move. rewrite bind_run, Hurl.
    rewrite (parsed_url_truthy _ _ Hparse), Hparse.
    destruct (String.eqb_spec current_owner src_org) as [E|_]; [contradiction|].
    cbv [negb]. rewrite bind_run. reflexivity. }
  rewrite Hrun. cbn [fst snd].
  assert (events_since w
            (snd (interact env (mismatch_warning repo current_owner src_org)
                    (snd (get_repo_remote_url env dest_path w))))
          = (evs ++ [mismatch_warning repo current_owner src_org])%list) as Hev.
  { apply events_since_app. simpl. now rewrite Hhist, app_assoc. }
  split; [reflexivity|]. split.
  - exists evs. exact Hev.
  - rewrite Hev. apply Forall_app. split; [exact Hevs|]. constructor; [reflexivity | constructor].
Qed.

(** [other/svc] was moved from [acme] and its remote names [elsewhere]. *)
Lemma C7_ownership_mismatch_no_transfer_witness :
  fst (get_repo_remote_url env_stale_remote svc_dest world0)
  = Some "https://github.com/elsewhere/svc.git"
  /\ parse_github_remote "https://github.com/elsewhere/svc.git" = Some ("elsewhere", "svc")
  /\ "elsewhere" <> "acme"
  /\ (let run := _process_move env_stale_remote 61 demo_handler "acme" "other" svc_src svc_dest
                   world0 in
      fst run = Some tt
      /\ (exists before,
            events_since world0 (snd run)
            = (before ++ [mismatch_warning "svc" "elsewhere" "acme"])%list)
      /\ Forall (fun e => is_gh e = false) (events_since world0 (snd run))).
Proof.
  assert ("elsewhere" <> "acme") as Hne by discriminate.
  split; [reflexivity|]. split; [reflexivity|]. split; [exact Hne|].
  exact (C7_ownership_mismatch_no_transfer env_stale_remote 61 demo_handler "acme" "other"
           svc_src svc_dest world0 "https://github.com/elsewhere/svc.git" "elsewhere" "svc"
           eq_refl eq_refl Hne).
Defined.

(** ** Termination of the confirmation poll *)

Lemma Qltb_true_iff (x y : Q) : Qltb x y = true <-> (x < y)%Q.
Proof.
  unfold Qltb. rewrite negb_true_iff. split.
  - intros H. apply Qnot_le_lt. intros Hle. apply Qle_bool_iff in Hle. congruence.
  - intros H. destruct (Qle_bool y x) eqn:E; [|reflexivity].
    apply Qle_bool_iff in E. exfalso. exact (Qlt_not_le _ _ H E).
Qed.

Lemma Qltb_false_iff (x y : Q) : Qltb x y = false <-> (y <= x)%Q.
Proof.
  unfold Qltb. rewrite negb_false_iff. apply Qle_bool_iff.
Qed.

Lemma inject_nat_succ (n : nat) :
  (inject_Z (Z.of_nat (S n)) == inject_Z (Z.of_nat n) + 1)%Q.
Proof. rewrite Nat2Z.inj_succ. unfold Z.succ. rewrite inject_Z_plus. reflexivity. Qed.

Section Poll.
Variable env : Env.
Variable new_owner repo : string.
Variable timeout : Z.
Variable start : Q.

(** Interactions take no negative time. *)
Hypothesis latency_nonneg : forall h, (0 <= latency env h)%Q.

(** What is left of the timeout in the world [w]. *)
Let remaining (w : World) : Q := (inject_Z timeout - (clock w - start))%Q.

(** Every iteration that does not return sleeps two seconds, so [S n]
    iterations are enough once at most [2 * n] seconds are left. *)
Lemma wait_loop_returns (n : nat) (w : World) :
  (remaining w <= 2 * inject_Z (Z.of_nat n))%Q ->
  fst (wait_loop env (S n) new_owner repo timeout start w) <> None.
Proof.
  revert w. induction n as [|n IH]; intros w Hrem;
    cbn [wait_loop]; rewrite bind_run; cbn [time_time fst snd];
    destruct (Qltb (clock w - start) (inject_Z timeout)) eqn:Hlt;
    try (cbn; discriminate).
  - exfalso. apply Qltb_true_iff in Hlt. unfold remaining in Hrem.
    change (inject_Z (Z.of_nat 0)) with 0%Q in Hrem. lra.
  - rewrite bind_run.
    destruct (returncode _ =? 0)%Z; [rewrite bind_run; cbn; discriminate|].
    rewrite bind_run. apply IH.
    unfold remaining in *. cbn [run_gh_command subprocess_run interact time_sleep fst snd clock].
    pose proof (inject_nat_succ n) as Hs.
    match goal with
    | |- context [(clock w + latency env ?h1 + 2 + latency env ?h2)%Q] =>
        pose proof (latency_nonneg h1); pose proof (latency_nonneg h2)
    end.
    lra.
Qed.

(** When no lookup ever finds the repository the poll runs into its timeout. *)
Lemma wait_loop_times_out (n : nat) (w : World) :
  (forall h, returncode (run_reply env h (view_cmd new_owner repo)) <> 0%Z) ->
  (remaining w <= 2 * inject_Z (Z.of_nat n))%Q ->
  fst (wait_loop env (S n) new_owner repo timeout start w) = Some false.
Proof.
  intros Hnever. revert w. induction n as [|n IH]; intros w Hrem;
    cbn [wait_loop]; rewrite bind_run; cbn [time_time fst snd];
    destruct (Qltb (clock w - start) (inject_Z timeout)) eqn:Hlt;
    try reflexivity.
  - exfalso. apply Qltb_true_iff in Hlt. unfold remaining in Hrem.
    change (inject_Z (Z.of_nat 0)) with 0%Q in Hrem. lra.
  - rewrite bind_run.
    assert (returncode (fst (run_gh_command env
              ["repo"; "view"; new_owner ++ "/" ++ repo; "--json"; "name"] w)) <> 0%Z) as Hrc
      by apply Hnever.
    apply Z.eqb_neq in Hrc. rewrite Hrc.
    rewrite bind_run. apply IH.
    unfold remaining in *. cbn [run_gh_command subprocess_run interact time_sleep fst snd clock].
    pose proof (inject_nat_succ n) as Hs.
    match goal with
    | |- context [(clock w + latency env ?h1 + 2 + latency env ?h2)%Q] =>
        pose proof (latency_nonneg h1); pose proof (latency_nonneg h2)
    end.
    lra.
Qed.

End Poll.

Lemma extends_refl (P : Event -> Prop) (w : World) : extends P w w.
Proof. exists []. split; [now rewrite app_nil_r | constructor]. Qed.

Lemma extends_trans (P : Event -> Prop) (w1 w2 w3 : World) :
  extends P w1 w2 -> extends P w2 w3 -> extends P w1 w3.
Proof.
  intros (e1 & H1 & F1) (e2 & H2 & F2). exists (e1 ++ e2)%list. split.
  - now rewrite H2, H1, app_assoc.
  - now apply Forall_app.
Qed.

Lemma emits_extends {A : Type} (P : Event -> Prop) (m : M A) (w : World) :
  emits P m -> extends P w (snd (m w)).
Proof. intros H. exact (H w). Qed.

Lemma extends_events_since (P : Event -> Prop) (w w' : World) :
  extends P w w' -> Forall P (events_since w w').
Proof. intros (evs & H & F). now rewrite (events_since_app _ _ _ H). Qed.

Lemma extends_In (P : Event -> Prop) (w w' : World) (e : Event) :
  extends P w w' -> In e (history w) -> In e (history w').
Proof. intros (evs & H & _) Hin. rewrite H. apply in_or_app. now left. Qed.

Lemma quiet_print (level : Level) (message : string) : quiet (EPrint level message).
Proof. split; reflexivity. Qed.

Lemma quiet_is_dir (p : Path) (reply : bool) : quiet (EIsDir p reply).
Proof. split; reflexivity. Qed.

(** The poll runs into its timeout when no lookup succeeds: 61 iterations
    cover the 120 seconds of [_process_move]. *)
Lemma wait_for_transfer_times_out (env : Env) (new_owner repo : string) (fuel : nat)
    (w : World) :
  (forall h, (0 <= latency env h)%Q) ->
  (forall h, returncode (run_reply env h (view_cmd new_owner repo)) <> 0%Z) ->
  (60 < fuel)%nat ->
  fst (wait_for_transfer env fuel new_owner repo 120 w) = Some false.
Proof.
  intros Hlat Hnever Hfuel. destruct fuel as [|n]; [lia|].
  unfold wait_for_transfer. rewrite bind_run, bind_run. cbn [time_time fst snd].
  rewrite bind_run.
  rewrite (wait_loop_times_out env new_owner repo 120 _ Hlat n _ Hnever).
  - rewrite bind_run. reflexivity.
  - assert (inject_Z 60 <= inject_Z (Z.of_nat n))%Q as H.
    { rewrite <- Zle_Qle. lia. }
    change (inject_Z 60) with 60%Q in H. change (inject_Z 120) with 120%Q. lra.
Qed.

(** C4: take a move whose remote URL resolves to the source organisation
    and whose transfer request succeeded.  If the confirmation poll returns
    [False] (it ran into its timeout), [_process_move] returns and its whole
    run contains neither a [git remote set-url] command nor a call of the
    observer.  And the poll does return [False] whenever interactions take
    no negative time and no lookup finds the repository. *)
Theorem C4_timeout_keeps_remote_url (env : Env) (self : OrgMoveHandler)
    (src_org dest_org : string) (src_path dest_path : Path) (w : World) (url repo : string) :
  fst (get_repo_remote_url env dest_path w) = Some url ->
  parse_github_remote url = Some (src_org, repo) ->
  let w1 := snd (get_repo_remote_url env dest_path w) in
  let w2 := snd (print_info env ("Detected move: " ++ src_org ++ "/" ++ repo ++ " -> "
                                 ++ dest_org ++ "/" ++ repo) w1) in
  let w3 := snd (transfer_repo env src_org repo dest_org w2) in
  fst (transfer_repo env src_org repo dest_org w2) = true ->
  (forall fuel,
     fst (wait_for_transfer env fuel dest_org repo 120 w3) = Some false ->
     let run := _process_move env fuel self src_org dest_org src_path dest_path w in
     fst run = Some tt /\ Forall quiet (events_since w (snd run)))
  /\ ((forall h, (0 <= latency env h)%Q) ->
      (forall h, returncode (run_reply env h (view_cmd dest_org repo)) <> 0%Z) ->
      forall fuel, (60 < fuel)%nat ->
      fst (wait_for_transfer env fuel dest_org repo 120 w3) = Some false).
Proof.
  intros Hurl Hparse w1 w2 w3 Hreq. split.
  - intros fuel Hwait run.
    set (w4 := snd (wait_for_transfer env fuel dest_org repo 120 w3)).
    assert (run = (Some tt,
                   snd (print_warning env
                          ("Transfer may still be in progress. "
                           ++ "Remote URL not updated - do this manually if needed.") w4)))
      as Hrun.
    { unfold run, _process_move. rewrite bind_run, Hurl.
      rewrite (parsed_url_truthy _ _ Hparse), Hparse, String.eqb_refl. cbv [negb].
      rewrite bind_run. fold w1. fold w2. rewrite bind_run, Hreq. fold w3.
      unfold finish_transfer. rewrite bind_run, Hwait. fold w4. rewrite bind_run. reflexivity. }
    rewrite Hrun. cbn [fst snd]. split; [reflexivity|].
    apply extends_events_since.
    apply (extends_trans _ _ w1).
    { apply emits_extends, emits_get_repo_remote_url;
        auto using quiet_is_dir; intros; split; reflexivity. }
    apply (extends_trans _ _ w2).
    { apply emits_extends, emits_print_info. intros; apply quiet_print. }
    apply (extends_trans _ _ w3).
    { apply emits_extends, emits_transfer_repo;
        try (intros; apply quiet_print); intros; split; reflexivity. }
    apply (extends_trans _ _ w4).
    { apply emits_extends, emits_wait_for_transfer;
        try (intros; apply quiet_print); intros; split; reflexivity. }
    apply emits_extends, emits_print_warning. intros; apply quiet_print.
  - intros Hlat Hnever fuel Hfuel. now apply wait_for_transfer_times_out.
Qed.

(** The transfer of [acme/svc] is accepted and [other/svc] never shows up:
    sixty lookups, two seconds apart, then the timeout. *)
Lemma C4_timeout_keeps_remote_url_witness :
  fst (get_repo_remote_url env_never_confirmed svc_dest world0)
  = Some "git@github.com:acme/svc.git"
  /\ parse_github_remote "git@github.com:acme/svc.git" = Some ("acme", "svc")
  /\ (let run := _process_move env_never_confirmed 61 demo_handler "acme" "other"
                   svc_src svc_dest world0 in
      fst run = Some tt /\ Forall quiet (events_since world0 (snd run))).
Proof.
  split; [reflexivity|]. split; [reflexivity|].
  destruct (C4_timeout_keeps_remote_url env_never_confirmed demo_handler "acme" "other"
              svc_src svc_dest world0 "git@github.com:acme/svc.git" "svc"
              eq_refl eq_refl eq_refl) as [Hquiet Htimeout].
  apply Hquiet. apply Htimeout.
  - intros h. discriminate.
  - intros h. discriminate.
  - lia.
Defined.

(** ** Interactions that did happen *)

Lemma In_skipn_le {A : Type} (x : A) (l : list A) (m n : nat) :
  (m <= n)%nat -> In x (skipn n l) -> In x (skipn m l).
Proof.
  intros Hle Hin. replace n with ((n - m) + m)%nat in Hin by lia.
  rewrite <- skipn_skipn in Hin. revert Hin.
  generalize (skipn m l). intros l'. revert l'.
  induction (n - m)%nat as [|k IH]; intros l' Hin; [exact Hin|].
  destruct l' as [|y l']; [destruct Hin|]. right. apply IH. exact Hin.
Qed.

Lemma happened_later (P : Event -> Prop) (e : Event) (w w1 w2 : World) :
  happened e w w1 -> extends P w1 w2 -> happened e w w2.
Proof.
  unfold happened, events_since. intros Hin (evs & H & _).
  rewrite H, skipn_app. apply in_or_app. now left.
Qed.

Lemma happened_earlier (P : Event -> Prop) (e : Event) (w w1 w2 : World) :
  extends P w w1 -> happened e w1 w2 -> happened e w w2.
Proof.
  unfold happened, events_since. intros (evs & H & _) Hin.
  apply In_skipn_le with (List.length (history w1)); [|exact Hin].
  rewrite H, length_app. lia.
Qed.

Lemma happened_interact (env : Env) (e : Event) (w : World) :
  happened e w (snd (interact env e w)).
Proof.
  unfold happened. rewrite (events_since_app w _ [e]); [now left | reflexivity].
Qed.

Lemma any_event_emits_wait_loop (env : Env) (fuel : nat) (new_owner repo : string)
    (timeout : Z) (start : Q) :
  emits any_event (wait_loop env fuel new_owner repo timeout start).
Proof. apply emits_wait_loop; intros; exact I. Qed.

(** The first iteration of the poll looks the repository up. *)
Lemma wait_loop_polls (env : Env) (n : nat) (new_owner repo : string) (timeout : Z)
    (start : Q) (w : World) :
  Qltb (clock w - start) (inject_Z timeout) = true ->
  happened (ERun (view_cmd new_owner repo) (run_reply env (history w) (view_cmd new_owner repo)))
    w (snd (wait_loop env (S n) new_owner repo timeout start w)).
Proof.
  intros Hlt. cbn [wait_loop]. rewrite bind_run. cbn [time_time fst snd]. rewrite Hlt.
  rewrite bind_run.
  set (w1 := snd (run_gh_command env ["repo"; "view"; new_owner ++ "/" ++ repo; "--json"; "name"] w)).
  apply happened_later with (P := any_event) (w1 := w1).
  - apply happened_interact.
  - destruct (returncode _ =? 0)%Z.
    + apply emits_extends. apply emits_bind; [|intros _; apply emits_ret].
      apply emits_print_success. intros; exact I.
    + apply emits_extends. apply emits_bind; [|intros _; apply any_event_emits_wait_loop].
      now apply emits_time_sleep.
Qed.

Lemma Qltb_fresh (c : Q) (timeout : Z) :
  (0 < timeout)%Z -> Qltb (c - c) (inject_Z timeout) = true.
Proof.
  intros H. apply Qltb_true_iff. assert (0 < inject_Z timeout)%Q as H'.
  { change 0%Q with (inject_Z 0). now rewrite <- Zlt_Qlt. }
  lra.
Qed.

(** [wait_for_transfer] announces the wait and looks the repository up at
    least once. *)
Lemma wait_for_transfer_polls (env : Env) (n : nat) (new_owner repo : string)
    (timeout : Z) (w : World) :
  (0 < timeout)%Z ->
  let w' := snd (wait_for_transfer env (S n) new_owner repo timeout w) in
  happened (EPrint LInfo "Waiting for transfer to complete...") w w'
  /\ exists reply, happened (ERun (view_cmd new_owner repo) reply) w w'.
Proof.
  intros Hpos w'. unfold w', wait_for_transfer.
  rewrite bind_run. set (w1 := snd (print_info env _ w)).
  rewrite bind_run. cbn [time_time fst snd]. rewrite bind_run.
  set (w2 := snd (wait_loop env (S n) new_owner repo timeout (clock w1) w1)).
  assert (extends any_event w w1) as H01.
  { apply emits_extends, emits_print_info. intros; exact I. }
  assert (extends any_event w1 w2) as H12.
  { apply emits_extends, any_event_emits_wait_loop. }
  assert (extends any_event w2
            (snd (match fst (wait_loop env (S n) new_owner repo timeout (clock w1) w1) with
                  | Some true => ret (Some true)
                  | Some false =>
                      print_warning env
                        ("Transfer not complete within " ++ PyStr.of_Z timeout
                         ++ "s. It may still be processing.") ;;
                      ret (Some false)
                  | None => ret None
                  end w2))) as H23.
  { apply emits_extends.
    destruct (fst (wait_loop env (S n) new_owner repo timeout (clock w1) w1)) as [[|]|];
      try apply emits_ret.
    apply emits_bind; [|intros _; apply emits_ret].
    apply emits_print_warning. intros; exact I. }
  split.
  - apply happened_later with (P := any_event) (w1 := w1).
    + apply happened_interact.
    + exact (extends_trans _ _ _ _ H12 H23).
  - eexists. apply happened_earlier with (P := any_event) (w1 := w1); [exact H01|].
    apply happened_later with (P := any_event) (w1 := w2); [|exact H23].
    apply wait_loop_polls. now apply Qltb_fresh.
Qed.

Lemma transfer_repo_already_pending (env : Env) (owner repo new_owner : string) (w : World) :
  already_pending (transfer_reply env owner repo new_owner w) = true ->
  fst (transfer_repo env owner repo new_owner w) = true
  /\ extends no_error w (snd (transfer_repo env owner repo new_owner w)).
Proof.
  intros Hpending. unfold transfer_repo. rewrite bind_run.
  set (w1 := snd (print_info env _ w)). rewrite bind_run.
  set (result := fst (run_gh_command env _ w1)).
  set (w2 := snd (run_gh_command env _ w1)).
  assert (result = transfer_reply env owner repo new_owner w) as Hres by reflexivity.
  assert (extends no_error w w2) as H02.
  { apply (extends_trans _ _ w1).
    - apply emits_extends, emits_print_info; intros; reflexivity.
    - apply emits_extends. unfold run_gh_command.
      apply emits_subprocess_run. intros; reflexivity. }
  unfold already_pending in Hpending. rewrite <- Hres in Hpending.
  destruct (negb (returncode result =? 0)%Z).
  - rewrite Hpending, bind_run. unfold ret. cbn [fst snd]. split; [reflexivity|].
    apply (extends_trans _ _ w2); [exact H02|].
    apply emits_extends, emits_print_warning; intros; reflexivity.
  - rewrite bind_run. unfold ret. cbn [fst snd]. split; [reflexivity|].
    apply (extends_trans _ _ w2); [exact H02|].
    apply emits_extends, emits_print_success; intros; reflexivity.
Qed.

(** C5: whenever the reply to the transfer request says that a transfer is
    already pending, [transfer_repo] returns [True], in every world and for
    every repository; in [_process_move] the workflow then announces the wait,
    looks the repository up under the destination organisation, and prints no
    error message in its whole run. *)
Theorem C5_already_pending_advances (env : Env) (self : OrgMoveHandler) (n : nat)
    (src_org dest_org : string) (src_path dest_path : Path) (w : World) (url repo : string) :
  fst (get_repo_remote_url env dest_path w) = Some url ->
  parse_github_remote url = Some (src_org, repo) ->
  let w1 := snd (get_repo_remote_url env dest_path w) in
  let w2 := snd (print_info env ("Detected move: " ++ src_org ++ "/" ++ repo ++ " -> "
                                 ++ dest_org ++ "/" ++ repo) w1) in
  already_pending (transfer_reply env src_org repo dest_org w2) = true ->
  (forall owner name new_owner w',
     already_pending (transfer_reply env owner name new_owner w') = true ->
     fst (transfer_repo env owner name new_owner w') = true)
  /\ fst (transfer_repo env src_org repo dest_org w2) = true
  /\ let run := _process_move env (S n) self src_org dest_org src_path dest_path w in
     happened (EPrint LInfo "Waiting for transfer to complete...") w (snd run)
     /\ (exists reply, happened (ERun (view_cmd dest_org repo) reply) w (snd run))
     /\ Forall no_error (events_since w (snd run)).
Proof.
  intros Hurl Hparse w1 w2 Hpending.
  destruct (transfer_repo_already_pending env src_org repo dest_org w2 Hpending) as [Hreq H23].
  split; [intros owner name new_owner w' H; now apply transfer_repo_already_pending|].
  split; [exact Hreq|]. intros run.
  set (w3 := snd (transfer_repo env src_org repo dest_org w2)) in *.
  set (w4 := snd (finish_transfer env (S n) self src_org dest_org dest_path repo w3)).
  assert (snd run = w4) as Hrun.
  { unfold run, _process_move. rewrite bind_run, Hurl.
    rewrite (parsed_url_truthy _ _ Hparse), Hparse, String.eqb_refl. cbv [negb].
    rewrite bind_run. fold w1. fold w2. rewrite bind_run, Hreq. reflexivity. }
  rewrite Hrun.
  assert (extends no_error w w3) as H03.
  { apply (extends_trans _ _ w1).
    { apply emits_extends, emits_get_repo_remote_url; intros; reflexivity. }
    apply (extends_trans _ _ w2); [|exact H23].
    apply emits_extends, emits_print_info; intros; reflexivity. }
  set (w3' := snd (wait_for_transfer env (S n) dest_org repo 120 w3)).
  assert (extends any_event w3' w4) as Hrest.
  { unfold w4, finish_transfer. rewrite bind_run. fold w3'.
    apply emits_extends.
    destruct (fst (wait_for_transfer env (S n) dest_org repo 120 w3)) as [[|]|].
    - apply emits_bind.
      + destruct (auto_update_remotes (config self)); [|apply emits_ret].
        apply emits_bind; [apply emits_set_repo_remote_url; intros; exact I | intros [|]].
        * apply emits_print_success; intros; exact I.
        * apply emits_print_warning; intros; exact I.
      + intros _. apply emits_bind; [|intros _; apply emits_ret].
        destruct (on_transfer self); [now apply emits_interact | apply emits_ret].
    - apply emits_bind; [apply emits_print_warning; intros; exact I | intros _; apply emits_ret].
    - apply emits_ret. }
  destruct (wait_for_transfer_polls env n dest_org repo 120 w3 eq_refl) as [Hwait [reply Hpoll]].
  fold w3' in Hwait, Hpoll.
  split; [|split].
  - apply happened_earlier with (P := no_error) (w1 := w3); [exact H03|].
    now apply happened_later with (P := any_event) (w1 := w3').
  - exists reply. apply happened_earlier with (P := no_error) (w1 := w3); [exact H03|].
    now apply happened_later with (P := any_event) (w1 := w3').
  - apply extends_events_since. apply (extends_trans _ _ w3); [exact H03|].
    apply emits_extends, emits_finish_transfer; intros; reflexivity.
Qed.

(** The request for [acme/svc] is answered with "already pending". *)
Lemma C5_already_pending_advances_witness :
  fst (get_repo_remote_url env_already_pending svc_dest world0)
  = Some "git@github.com:acme/svc.git"
  /\ parse_github_remote "git@github.com:acme/svc.git" = Some ("acme", "svc")
  /\ (let w1 := snd (get_repo_remote_url env_already_pending svc_dest world0) in
      let w2 := snd (print_info env_already_pending "Detected move: acme/svc -> other/svc" w1) in
      already_pending (transfer_reply env_already_pending "acme" "svc" "other" w2) = true
      /\ fst (transfer_repo env_already_pending "acme" "svc" "other" w2) = true)
  /\ (let run := _process_move env_already_pending 1 demo_handler "acme" "other"
                   svc_src svc_dest world0 in
      happened (EPrint LInfo "Waiting for transfer to complete...") world0 (snd run)
      /\ (exists reply, happened (ERun (view_cmd "other" "svc") reply) world0 (snd run))
      /\ Forall no_error (events_since world0 (snd run))).
Proof.
  pose proof (C5_already_pending_advances env_already_pending demo_handler 0 "acme" "other"
                svc_src svc_dest world0 "git@github.com:acme/svc.git" "svc"
                eq_refl eq_refl eq_refl) as (_ & Hreq & Hrun).
  split; [reflexivity|]. split; [reflexivity|]. split.
  - split; [reflexivity | exact Hreq].
  - exact Hrun.
Defined.

(** ** The move detector *)

(** C9: a notification whose source and destination lie under the same
    organisation folder of the watched base path starts no handling task and
    leaves the handler as it was. *)
Theorem C9_same_org_filtered (env : Env) (self : OrgMoveHandler) (event : FsEvent)
    (w : World) (org : string) :
  _get_org_from_path self (event_src event) = Some org ->
  _get_org_from_path self (event_dest event) = Some org ->
  fst (on_moved env self event w) = (self, None).
Proof.
  intros Hsrc Hdest. destruct event as [src_path dest_path|src_path dest_path];
    [|reflexivity].
  cbn [event_src event_dest] in Hsrc, Hdest. unfold on_moved. rewrite Hsrc, Hdest.
  destruct (negb (PyStr.truthy org) || negb (PyStr.truthy org)); [reflexivity|].
  destruct (negb (_is_direct_child src_path _)); [reflexivity|].
  destruct (negb (_is_direct_child dest_path _)); [reflexivity|].
  rewrite String.eqb_refl, bind_run. reflexivity.
Qed.

(** Scenario 6 of the specification: [acme/tmp -> acme/tmp2]. *)
Lemma C9_same_org_filtered_witness :
  _get_org_from_path demo_handler (event_src tmp_renamed) = Some "acme"
  /\ _get_org_from_path demo_handler (event_dest tmp_renamed) = Some "acme"
  /\ fst (on_moved env_stale_remote demo_handler tmp_renamed world0) = (demo_handler, None).
Proof.
  split; [reflexivity|]. split; [reflexivity|].
  exact (C9_same_org_filtered env_stale_remote demo_handler tmp_renamed world0 "acme"
           eq_refl eq_refl).
Defined.

(** The decision of [on_moved]: a notification that fails the filter is
    dropped; an accepted one goes through the debounce with the clock reading
    taken after the look at the destination folder. *)
Lemma on_moved_decision (env : Env) (self : OrgMoveHandler) (event : FsEvent) (w : World) :
  fst (on_moved env self event w)
  = if accepted env self w event then debounce self event (sighting_time env w event)
    else (self, None).
Proof.
  destruct event as [src_path dest_path|src_path dest_path]; [|reflexivity].
  unfold on_moved, accepted, debounce, task_of, sighting_time. cbn [event_src event_dest].
  destruct (_get_org_from_path self src_path) as [src_org|]; [|reflexivity].
  destruct (_get_org_from_path self dest_path) as [dest_org|]; [|reflexivity].
  destruct (PyStr.truthy src_org); [|reflexivity].
  destruct (PyStr.truthy dest_org); [|reflexivity].
  destruct (_is_direct_child src_path _); [|reflexivity].
  destruct (_is_direct_child dest_path _); [|reflexivity].
  destruct (String.eqb src_org dest_org);
    [cbn [negb orb andb]; rewrite bind_run; reflexivity|].
  cbn [negb orb andb]. rewrite bind_run.
  replace (fst (is_git_repo env dest_path w))
    with (is_dir_reply env (history w) (Pathlib.div dest_path ".git")) by reflexivity.
  destruct (is_dir_reply env (history w) (Pathlib.div dest_path ".git")).
  - cbn [negb]. rewrite bind_run. cbn [time_time fst snd].
    destruct (pending_moves self !! move_key_of src_path dest_path) as [seen|]; [|reflexivity].
    destruct (Qltb _ _); reflexivity.
  - cbn [negb]. rewrite bind_run. reflexivity.
Qed.

Lemma deliver_cons (env : Env) (self : OrgMoveHandler) (w : World) (event : FsEvent)
    (rest : list (World * FsEvent)) :
  deliver env self ((w, event) :: rest)
  = (fst (deliver env (fst (fst (on_moved env self event w))) rest),
     snd (fst (on_moved env self event w))
       :: snd (deliver env (fst (fst (on_moved env self event w))) rest)).
Proof.
  cbn [deliver]. destruct (fst (on_moved env self event w)) as [self' task].
  cbn [fst snd]. now destruct (deliver env self' rest).
Qed.

Lemma deliver_app (env : Env) (self : OrgMoveHandler) (l1 l2 : list (World * FsEvent)) :
  deliver env self (l1 ++ l2)%list
  = (fst (deliver env (fst (deliver env self l1)) l2),
     (snd (deliver env self l1) ++ snd (deliver env (fst (deliver env self l1)) l2))%list).
Proof.
  revert self. induction l1 as [|[w event] l1 IH]; intros self.
  - cbn [app deliver fst snd]. now destruct (deliver env self l2).
  - rewrite <- app_comm_cons, !deliver_cons, IH. reflexivity.
Qed.

Lemma dispatched_for_app (key : string) (t1 t2 : list (option MoveTask)) :
  dispatched_for key (t1 ++ t2)%list = (dispatched_for key t1 + dispatched_for key t2)%nat.
Proof. unfold dispatched_for. now rewrite List.filter_app, List.length_app. Qed.

Lemma accepted_config (env : Env) (self self' : OrgMoveHandler) (w : World) (event : FsEvent) :
  config self' = config self -> accepted env self' w event = accepted env self w event.
Proof.
  intros H. unfold accepted, _get_org_from_path. now rewrite H.
Qed.

Lemma accepted_task (env : Env) (self : OrgMoveHandler) (w : World) (event : FsEvent) :
  accepted env self w event = true ->
  exists src_org dest_org,
    task_of self event = Some (src_org, dest_org, event_src event, event_dest event).
Proof.
  unfold accepted, task_of. destruct event as [s d|s d]; [|discriminate].
  cbn [event_src event_dest].
  destruct (_get_org_from_path self s) as [so|]; [|discriminate].
  destruct (_get_org_from_path self d) as [do_|]; [|discriminate]. eauto.
Qed.

Lemma task_of_key (self : OrgMoveHandler) (event : FsEvent) (key : string) :
  dispatched_for key [task_of self event]
  = match task_of self event with
    | Some _ =>
        if String.eqb (move_key_of (event_src event) (event_dest event)) key then 1%nat else 0%nat
    | None => 0%nat
    end.
Proof.
  unfold dispatched_for, task_of.
  destruct (_get_org_from_path self (event_src event)); [|reflexivity].
  destruct (_get_org_from_path self (event_dest event)); [|reflexivity].
  cbn [List.filter]. now destruct (String.eqb _ key).
Qed.

Lemma untouched_step (env : Env) (self0 self : OrgMoveHandler) (key : string)
    (w : World) (event : FsEvent) :
  config self = config self0 ->
  ~ touches env self0 key (w, event) ->
  stable key self (fst (fst (on_moved env self event w)))
  /\ dispatched_for key [snd (fst (on_moved env self event w))] = 0%nat.
Proof.
  intros Hcfg Hnot. rewrite on_moved_decision.
  destruct (accepted env self w event) eqn:Hacc; [|now repeat split].
  assert (move_key_of (event_src event) (event_dest event) <> key) as Hkey.
  { intros Hk. apply Hnot. split; [|exact Hk]. cbn [fst snd].
    now rewrite <- (accepted_config env self0 self w event Hcfg). }
  unfold debounce.
  destruct (pending_moves self !! move_key_of (event_src event) (event_dest event)) as [seen|].
  - destruct (Qltb _ _); [now repeat split|]. cbn [fst snd]. split.
    + repeat split. cbn. now apply lookup_insert_ne.
    + rewrite task_of_key. destruct (task_of self event); [|reflexivity].
      now destruct (String.eqb_spec (move_key_of (event_src event) (event_dest event)) key).
  - cbn [fst snd]. split.
    + repeat split. cbn. now apply lookup_insert_ne.
    + rewrite task_of_key. destruct (task_of self event); [|reflexivity].
      now destruct (String.eqb_spec (move_key_of (event_src event) (event_dest event)) key).
Qed.

Lemma untouched_run (env : Env) (self0 : OrgMoveHandler) (key : string)
    (l : list (World * FsEvent)) :
  Forall (fun n => ~ touches env self0 key n) l ->
  forall self, config self = config self0 ->
  stable key self (fst (deliver env self l))
  /\ dispatched_for key (snd (deliver env self l)) = 0%nat.
Proof.
  induction 1 as [|[w event] l Hn Hl IH]; intros self Hcfg.
  - now repeat split.
  - rewrite deliver_cons. cbn [fst snd].
    destruct (untouched_step env self0 self key w event Hcfg Hn) as [(Hc & Hd & Hp) Hzero].
    destruct (IH (fst (fst (on_moved env self event w)))) as [(Hc' & Hd' & Hp') Hzero'].
    { congruence. }
    split; [repeat split; congruence|].
    change (?x :: ?l) with ([x] ++ l)%list. rewrite dispatched_for_app. lia.
Qed.

Lemma dispatched_for_cons (key : string) (task : option MoveTask)
    (tasks : list (option MoveTask)) :
  dispatched_for key (task :: tasks)
  = (dispatched_for key [task] + dispatched_for key tasks)%nat.
Proof. change (task :: tasks) with ([task] ++ tasks)%list. apply dispatched_for_app. Qed.

Lemma accepted_dispatch_counts (env : Env) (self : OrgMoveHandler) (w : World)
    (event : FsEvent) :
  accepted env self w event = true ->
  dispatched_for (move_key_of (event_src event) (event_dest event)) [task_of self event]
  = 1%nat.
Proof.
  intros Hacc. destruct (accepted_task env self w event Hacc) as (so & do_ & Htask).
  rewrite task_of_key, Htask, String.eqb_refl. reflexivity.
Qed.

Lemma two_sightings (env : Env) (cfg : Config) (observer : bool) (event : FsEvent)
    (w1 w2 : World) (pre mid post : list (World * FsEvent)) :
  let self0 := new_handler cfg observer in
  let key := move_key_of (event_src event) (event_dest event) in
  accepted env self0 w1 event = true ->
  accepted env self0 w2 event = true ->
  Forall (fun n => ~ touches env self0 key n) pre ->
  Forall (fun n => ~ touches env self0 key n) mid ->
  Forall (fun n => ~ touches env self0 key n) post ->
  dispatched_for key
    (snd (deliver env self0 (pre ++ (w1, event) :: mid ++ (w2, event) :: post)%list))
  = if Qltb (sighting_time env w2 event - sighting_time env w1 event) 2 then 1%nat else 2%nat.
Proof.
  intros self0 key Hacc1 Hacc2 Hpre Hmid Hpost.
  assert (forall self w, accepted env self w event = true ->
            fst (on_moved env self event w) = debounce self event (sighting_time env w event))
    as Hdecide.
  { intros self w Hacc. now rewrite on_moved_decision, Hacc. }
  set (t1 := sighting_time env w1 event). set (t2 := sighting_time env w2 event).
  rewrite deliver_app. cbn [snd]. rewrite dispatched_for_app.
  destruct (untouched_run env self0 key pre Hpre self0 eq_refl) as [(HcA & HdA & HpA) ->].
  set (sA := fst (deliver env self0 pre)) in *.
  assert (accepted env sA w1 event = true) as HaccA
    by (now rewrite (accepted_config env self0 sA w1 event HcA)).
  assert (fst (on_moved env sA event w1) = (record_move sA key t1, task_of sA event)) as Hstep1.
  { rewrite (Hdecide sA w1 HaccA). unfold debounce. fold key. rewrite HpA.
    reflexivity. }
  rewrite deliver_cons, Hstep1. cbn [fst snd]. rewrite dispatched_for_cons.
  pose proof (accepted_dispatch_counts env sA w1 event HaccA) as Hone. fold key in Hone.
  rewrite Hone.
  set (sB := record_move sA key t1).
  assert (config sB = config self0) as HcB by exact HcA.
  rewrite deliver_app. cbn [snd]. rewrite dispatched_for_app.
  destruct (untouched_run env self0 key mid Hmid sB HcB) as [(HcC & HdC & HpC) ->].
  set (sC := fst (deliver env sB mid)) in *.
  assert (config sC = config self0) as HcC0 by (rewrite HcC; exact HcB).
  assert (accepted env sC w2 event = true) as HaccC
    by (now rewrite (accepted_config env self0 sC w2 event HcC0)).
  assert (pending_moves sC !! key = Some t1) as HpC'.
  { rewrite HpC. apply lookup_insert_eq. }
  assert (debounce_seconds sC = 2%Q) as HdC'.
  { rewrite HdC. change (debounce_seconds sB) with (debounce_seconds sA). now rewrite HdA. }
  assert (fst (on_moved env sC event w2)
          = if Qltb (t2 - t1) 2 then (sC, None)
            else (record_move sC key t2, task_of sC event)) as Hstep2.
  { rewrite (Hdecide sC w2 HaccC). unfold debounce. fold key. rewrite HpC', HdC'.
    reflexivity. }
  rewrite deliver_cons, Hstep2.
  destruct (Qltb (t2 - t1) 2); cbn [fst snd]; rewrite dispatched_for_cons.
  - destruct (untouched_run env self0 key post Hpost sC HcC0) as [_ ->]. reflexivity.
  - pose proof (accepted_dispatch_counts env sC w2 event HaccC) as Htwo. fold key in Htwo.
    rewrite Htwo.
    destruct (untouched_run env self0 key post Hpost (record_move sC key t2) HcC0) as [_ ->].
    reflexivity.
Qed.

(** ** The clone phase of a sync *)

Lemma clone_runs_app (a b : list Event) :
  clone_runs (a ++ b)%list = (clone_runs a ++ clone_runs b)%list.
Proof. unfold clone_runs. apply flat_map_app. Qed.

Lemma clone_runs_none (evs : list Event) : Forall no_clone evs -> clone_runs evs = [].
Proof.
  induction 1 as [|e evs He _ IH]; [reflexivity|].
  change (e :: evs) with ([e] ++ evs)%list. rewrite clone_runs_app, IH, app_nil_r.
  unfold no_clone in He. destruct e; try reflexivity. unfold clone_runs. cbn [flat_map].
  now rewrite He.
Qed.

(** [clone_repo]: one [git clone], one message, and the verdict [clone_ok]
    on the reply. *)
Lemma clone_repo_run (env : Env) (owner repo dest_path protocol : string) (w : World) :
  let cmd := ["git"; "clone"; build_github_url owner repo protocol; dest_path] in
  let reply := run_reply env (history w) cmd in
  fst (clone_repo env owner repo dest_path protocol w) = clone_ok reply
  /\ exists message,
       history (snd (clone_repo env owner repo dest_path protocol w))
       = (history w ++ [ERun cmd reply; message])%list
       /\ no_clone message.
Proof.
  intros cmd reply. unfold clone_repo. rewrite bind_run. cbv beta zeta.
  assert (fst (subprocess_run env cmd w) = reply) as E by reflexivity.
  fold cmd. rewrite !E.
  unfold clone_ok.
  destruct (returncode reply =? 0)%Z; cbn [negb orb].
  - rewrite bind_run. split; [reflexivity|]. eexists.
    split; [cbn; now rewrite <- app_assoc | reflexivity].
  - destruct (PyStr.contains "already exists" (stderr reply)).
    + rewrite bind_run. split; [reflexivity|]. eexists.
      split; [cbn; now rewrite <- app_assoc | reflexivity].
    + rewrite bind_run. split; [reflexivity|]. eexists.
      split; [cbn; now rewrite <- app_assoc | reflexivity].
Qed.

Lemma clone_one_run (env : Env) (config : Config) (finding : string * string * Repository)
    (result : SyncResult) (w : World) :
  let reply := run_reply env (history w) (clone_cmd config finding) in
  fst (clone_one env config false finding result w)
  = (if clone_ok reply then add_cloned (finding_label finding) result
     else add_error (clone_failure finding) result)
  /\ exists message,
       history (snd (clone_one env config false finding result w))
       = (history w ++ [ERun (clone_cmd config finding) reply; message])%list
       /\ no_clone message.
Proof.
  destruct finding as [[org name] repo]. intros reply.
  unfold clone_one. rewrite bind_run. cbv beta zeta.
  destruct (clone_repo_run env org name (Pathlib.str (get_repo_path config org name))
              (clone_protocol config) w) as [Hok Hhist].
  cbv zeta in Hok. rewrite Hok. fold (clone_cmd config (org, name, repo)). fold reply.
  split.
  - now destruct (clone_ok reply).
  - destruct Hhist as (message & Hh & Hm). exists message. split; [|exact Hm].
    now destruct (clone_ok reply).
Qed.

Lemma findings_with_cons (keep : CompletedProcess -> bool) (f : string * string * Repository)
    (reply : CompletedProcess)
    (attempts : list ((string * string * Repository) * CompletedProcess)) :
  findings_with keep ((f, reply) :: attempts)
  = if keep reply then f :: findings_with keep attempts else findings_with keep attempts.
Proof. unfold findings_with. cbn [List.filter snd]. now destruct (keep reply). Qed.

(** The loop over the missing findings: every finding gets one clone
    attempt, in order, and is entered in [cloned] or in [errors] by the
    verdict on the reply to its own attempt. *)
Lemma clone_loop_run (env : Env) (config : Config)
    (missing : list (string * string * Repository)) :
  forall (result : SyncResult) (w : World),
  let run := for_each missing (clone_one env config false) result w in
  exists replies evs,
    List.length replies = List.length missing
    /\ history (snd run) = (history w ++ evs)%list
    /\ clone_runs evs = List.combine (List.map (clone_cmd config) missing) replies
    /\ cloned (fst run)
       = (cloned result
          ++ List.map finding_label (findings_with clone_ok (List.combine missing replies)))%list
    /\ errors (fst run)
       = (errors result
          ++ List.map clone_failure
               (findings_with (fun r => negb (clone_ok r)) (List.combine missing replies)))%list.
Proof.
  induction missing as [|f missing IH]; intros result w run.
  - exists [], []. unfold run. cbn. now rewrite !app_nil_r.
  - unfold run. cbn [for_each]. rewrite bind_run.
    destruct (clone_one_run env config f result w) as [Hres (message & Hhist & Hmsg)].
    cbv zeta in Hres, Hhist.
    set (reply := run_reply env (history w) (clone_cmd config f)) in *.
    set (result1 := fst (clone_one env config false f result w)) in *.
    set (w1 := snd (clone_one env config false f result w)) in *.
    destruct (IH result1 w1) as (replies & evs & Hlen & Hh & Hruns & Hcloned & Herrors).
    exists (reply :: replies), ([ERun (clone_cmd config f) reply; message] ++ evs)%list.
    split; [cbn; now rewrite Hlen|]. split; [now rewrite Hh, Hhist, app_assoc|].
    split.
    { rewrite clone_runs_app, Hruns.
      change [ERun (clone_cmd config f) reply; message]
        with ([ERun (clone_cmd config f) reply] ++ [message])%list.
      rewrite clone_runs_app, (clone_runs_none [message]) by (now constructor).
      destruct f as [[org name] repo]. reflexivity. }
    cbn [List.combine]. rewrite !findings_with_cons, Hcloned, Herrors, Hres.
    destruct (clone_ok reply); cbn [negb cloned errors add_cloned add_error List.map].
    + split; [now rewrite <- app_assoc | reflexivity].
    + split; [reflexivity | now rewrite <- app_assoc].
Qed.

Lemma no_clone_get_local_repos (env : Env) (config : Config) :
  emits no_clone (get_local_repos env config).
Proof.
  unfold get_local_repos, is_git_repo. apply emits_for_each. intros org result.
  apply emits_bind; [apply emits_path_exists; intros; reflexivity | intros present].
  destruct (negb present); [apply emits_ret|].
  apply emits_bind; [apply emits_path_iterdir; intros; reflexivity | intros items].
  apply emits_for_each. intros item result'.
  apply emits_bind; [apply emits_path_is_dir; intros; reflexivity | intros d].
  apply emits_bind.
  - destruct d; [apply emits_path_is_dir; intros; reflexivity | apply emits_ret].
  - intros g. destruct (d && g); apply emits_ret.
Qed.

Lemma no_clone_list_org_repos (env : Env) (org : string) :
  emits no_clone (list_org_repos env org).
Proof.
  unfold list_org_repos, run_gh_command, print_error.
  apply emits_bind; [apply emits_subprocess_run; intros; reflexivity | intros result].
  destruct (negb _).
  - apply emits_bind; [now apply emits_interact | intros _; apply emits_ret].
  - destruct (decode_repo_list env (stdout result)); [apply emits_ret|].
    apply emits_bind; [now apply emits_interact | intros _; apply emits_ret].
Qed.

Lemma no_clone_get_github_repos (env : Env) (config : Config) :
  emits no_clone (get_github_repos env config).
Proof.
  unfold get_github_repos. apply emits_for_each. intros org result.
  apply emits_bind; [apply no_clone_list_org_repos | intros repos; apply emits_ret].
Qed.

Lemma no_clone_move_one (env : Env) (config : Config) (dry_run : bool)
    (finding : string * string * string * Path) (result : SyncResult) :
  emits no_clone (move_one env config dry_run finding result).
Proof.
  destruct finding as [[[repo_name from_org] to_org] current_path].
  unfold move_one, print_error. destruct dry_run.
  - apply emits_bind; [apply emits_print_info; intros; reflexivity | intros _; apply emits_ret].
  - apply emits_bind; [apply emits_print_info; intros; reflexivity | intros _].
    apply emits_bind; [apply emits_shutil_move; intros; reflexivity | intros [e|]].
    + apply emits_bind; [now apply emits_interact | intros _; apply emits_ret].
    + apply emits_bind.
      * destruct (auto_update_remotes config); [|apply emits_ret].
        apply emits_bind; [|intros _; apply emits_ret].
        apply emits_set_repo_remote_url; intros; reflexivity.
      * intros _. apply emits_bind; [|intros _; apply emits_ret].
        apply emits_print_success; intros; reflexivity.
Qed.

Lemma no_clone_report_orphan (env : Env) (finding : string * string * Path)
    (result : SyncResult) :
  emits no_clone (report_orphan env finding result).
Proof.
  destruct finding as [[org repo_name] path]. unfold report_orphan.
  apply emits_bind; [apply emits_print_warning; intros; reflexivity | intros _; apply emits_ret].
Qed.

Lemma move_one_keeps_cloned (env : Env) (config : Config) (dry_run : bool)
    (finding : string * string * string * Path) (result : SyncResult) (w : World) :
  cloned (fst (move_one env config dry_run finding result w)) = cloned result.
Proof.
  destruct finding as [[[repo_name from_org] to_org] current_path].
  unfold move_one. destruct dry_run.
  - rewrite bind_run. reflexivity.
  - rewrite bind_run, bind_run. destruct (fst (shutil_move env _ _ _)).
    + rewrite bind_run. reflexivity.
    + rewrite bind_run, bind_run. reflexivity.
Qed.

Lemma report_orphan_keeps (env : Env) (finding : string * string * Path)
    (result : SyncResult) (w : World) :
  cloned (fst (report_orphan env finding result w)) = cloned result
  /\ errors (fst (report_orphan env finding result w)) = errors result.
Proof.
  destruct finding as [[org repo_name] path]. unfold report_orphan.
  rewrite bind_run. split; reflexivity.
Qed.

(** C8: [sync_github_to_local] with [clone_missing] on and [dry_run] off
    makes one clone attempt for every missing finding, in order, whatever the
    replies.  A finding whose attempt succeeded, or failed with a message
    saying that the destination already exists, is entered in [cloned]; every
    other finding is entered in [errors] with its own name; [cloned] holds
    nothing else, and [errors] holds besides only what the relocations before
    the clone phase entered. *)
Theorem C8_clone_failures_isolated (env : Env) (config : Config) (move_misplaced : bool)
    (w : World) :
  let run := sync_github_to_local env config true move_misplaced false w in
  let w0 := snd (print_info env "Fetching repository information..." w) in
  let local_repos := fst (get_local_repos env config w0) in
  let github_repos := fst (get_github_repos env config (snd (get_local_repos env config w0))) in
  let missing := find_missing_repos local_repos github_repos in
  exists replies earlier_errors,
    List.length replies = List.length missing
    /\ clone_runs (events_since w (snd run))
       = List.combine (List.map (clone_cmd config) missing) replies
    /\ cloned (fst run)
       = List.map finding_label (findings_with clone_ok (List.combine missing replies))
    /\ errors (fst run)
       = (earlier_errors
          ++ List.map clone_failure
               (findings_with (fun r => negb (clone_ok r)) (List.combine missing replies)))%list.
Proof.
  intros run w0 local_repos github_repos missing.
  set (w1 := snd (get_local_repos env config w0)).
  set (w2 := snd (get_github_repos env config w1)).
  set (mkdirs := for_each (organizations config)
                   (fun org (_ : unit) => path_mkdir env (get_org_path config org)) tt).
  set (w3 := snd (mkdirs w2)).
  set (start := {| cloned := []; moved := []; orphaned := []; errors := [] |}).
  set (moves := if move_misplaced
                then for_each (find_misplaced_repos local_repos github_repos)
                       (move_one env config false) start
                else ret start).
  set (result1 := fst (moves w3)). set (w4 := snd (moves w3)).
  set (clones := for_each missing (clone_one env config false) result1).
  set (result2 := fst (clones w4)). set (w5 := snd (clones w4)).
  set (orphans := for_each (find_orphaned_repos local_repos github_repos)
                    (report_orphan env) result2).
  assert (run = orphans w5) as Hrun.
  { unfold run, sync_github_to_local. rewrite bind_run. fold w0.
    rewrite bind_run. fold local_repos. fold w1.
    rewrite bind_run. fold github_repos. fold w2.
    cbn [negb]. rewrite bind_run. fold mkdirs. fold w3.
    rewrite bind_run. fold start. fold moves. fold result1. fold w4.
    rewrite bind_run. reflexivity. }
  assert (extends no_clone w w4) as Hbefore.
  { apply (extends_trans _ _ w0).
    { apply emits_extends, emits_print_info; intros; reflexivity. }
    apply (extends_trans _ _ w1); [apply emits_extends, no_clone_get_local_repos|].
    apply (extends_trans _ _ w2); [apply emits_extends, no_clone_get_github_repos|].
    apply (extends_trans _ _ w3).
    { apply emits_extends. unfold mkdirs. apply emits_for_each. intros org u.
      unfold path_mkdir. now apply emits_interact. }
    apply emits_extends. unfold moves. destruct move_misplaced; [|apply emits_ret].
    apply emits_for_each. intros f r. apply no_clone_move_one. }
  assert (extends no_clone w5 (snd (orphans w5))) as Hafter.
  { apply emits_extends. unfold orphans. apply emits_for_each. intros f r.
    apply no_clone_report_orphan. }
  assert (cloned result1 = []) as Hc1.
  { unfold result1, moves. destruct move_misplaced; [|reflexivity].
    apply for_each_invariant with (P := fun r => cloned r = []); [|reflexivity].
    intros f r w' Hr. now rewrite move_one_keeps_cloned. }
  assert (cloned (fst (orphans w5)) = cloned result2
          /\ errors (fst (orphans w5)) = errors result2) as [Hc3 He3].
  { unfold orphans.
    apply for_each_invariant
      with (P := fun r => cloned r = cloned result2 /\ errors r = errors result2);
      [|split; reflexivity].
    intros f r w' [Hc He]. destruct (report_orphan_keeps env f r w') as [Hc' He'].
    split; congruence. }
  destruct (clone_loop_run env config missing result1 w4)
    as (replies & evs & Hlen & Hhist & Hruns & Hcloned & Herrors).
  fold clones in Hhist, Hcloned, Herrors. fold w5 in Hhist.
  fold result2 in Hcloned, Herrors.
  exists replies, (errors result1). rewrite Hrun.
  split; [exact Hlen|]. split; [|split].
  - destruct Hbefore as (pre & Hpre & Fpre). destruct Hafter as (post & Hpost & Fpost).
    rewrite (events_since_app w _ (pre ++ evs ++ post)%list).
    + rewrite !clone_runs_app, (clone_runs_none pre Fpre), (clone_runs_none post Fpost).
      now rewrite app_nil_r.
    + rewrite Hpost, Hhist, Hpre, <- !app_assoc. reflexivity.
  - rewrite Hc3, Hcloned, Hc1. reflexivity.
  - rewrite He3. exact Herrors.
Qed.


(** ** Strings *)

Lemma append_cons (c : ascii) (s t : string) : String c s ++ t = String c (s ++ t).
Proof. reflexivity. Qed.

Lemma append_nil_l (s : string) : "" ++ s = s.
Proof. reflexivity. Qed.

Lemma append_nil_r (s : string) : s ++ "" = s.
Proof. induction s as [|c s IH]; [reflexivity | now rewrite append_cons, IH]. Qed.

Lemma append_assoc (a b c : string) : (a ++ b) ++ c = a ++ (b ++ c).
Proof. induction a as [|x a IH]; [reflexivity | now rewrite !append_cons, IH]. Qed.

Lemma length_append (a b : string) :
  String.length (a ++ b) = (String.length a + String.length b)%nat.
Proof.
  induction a as [|x a IH]; [reflexivity|].
  rewrite append_cons. cbn [String.length]. now rewrite IH.
Qed.

Lemma prefix_nil (s : string) : String.prefix "" s = true.
Proof. now destruct s. Qed.

Lemma prefix_app (p s : string) : String.prefix p (p ++ s) = true.
Proof.
  induction p as [|c p IH]; [apply prefix_nil|].
  rewrite append_cons. cbn [String.prefix].
  destruct (ascii_dec c c); [exact IH | contradiction].
Qed.

Lemma prefix_true (p s : string) : String.prefix p s = true -> exists t, s = p ++ t.
Proof.
  revert s. induction p as [|c p IH]; intros s H.
  - now exists s.
  - destruct s as [|b s]; cbn [String.prefix] in H; [discriminate|].
    destruct (ascii_dec c b) as [->|]; [|discriminate].
    destruct (IH s H) as [t ->]. now exists t.
Qed.

Lemma drop_app (p s : string) : PyStr.drop (String.length p) (p ++ s) = s.
Proof.
  induction p as [|c p IH]; [now destruct s|].
  rewrite append_cons. cbn [String.length PyStr.drop]. exact IH.
Qed.

Lemma take_app (s t : string) : PyStr.take (String.length s) (s ++ t) = s.
Proof.
  induction s as [|c s IH]; [now destruct t|].
  rewrite append_cons. cbn [String.length PyStr.take]. now rewrite IH.
Qed.

Lemma take_drop (n : nat) (s : string) : PyStr.take n s ++ PyStr.drop n s = s.
Proof.
  revert s. induction n as [|n IH]; intros s; [now destruct s|].
  destruct s as [|c s]; [reflexivity|].
  cbn [PyStr.take PyStr.drop]. now rewrite append_cons, IH.
Qed.

Lemma endswith_app (s p : string) : PyStr.endswith p (s ++ p) = true.
Proof.
  unfold PyStr.endswith. rewrite length_append.
  replace (String.length s + String.length p - String.length p)%nat
    with (String.length s) by lia.
  rewrite drop_app, String.eqb_refl, andb_true_r. apply Nat.leb_le. lia.
Qed.

Lemma endswith_true (p s : string) : PyStr.endswith p s = true -> exists a, s = a ++ p.
Proof.
  unfold PyStr.endswith. intros H. apply andb_true_iff in H. destruct H as [_ H].
  apply String.eqb_eq in H.
  exists (PyStr.take (String.length s - String.length p) s).
  pose proof (take_drop (String.length s - String.length p) s) as E.
  rewrite H in E. now symmetry.
Qed.

Lemma drop_last_app (s p : string) : PyStr.drop_last (String.length p) (s ++ p) = s.
Proof.
  unfold PyStr.drop_last. rewrite length_append.
  replace (String.length s + String.length p - String.length p)%nat
    with (String.length s) by lia.
  apply take_app.
Qed.

Lemma contains_cons (p : string) (c : ascii) (s : string) :
  PyStr.contains p (String c s) = String.prefix p (String c s) || PyStr.contains p s.
Proof. reflexivity. Qed.

Lemma contains_app (a p t : string) : PyStr.contains p (a ++ p ++ t) = true.
Proof.
  induction a as [|c a IH].
  - rewrite append_nil_l. destruct (p ++ t) eqn:E.
    + destruct p; [reflexivity | discriminate].
    + rewrite contains_cons, <- E, prefix_app. reflexivity.
  - rewrite append_cons, contains_cons, IH. apply orb_true_r.
Qed.

Lemma prefix_char (a c : ascii) (s : string) :
  String.prefix (String a "") (String c s) = if ascii_dec a c then true else false.
Proof.
  cbn [String.prefix]. destruct (ascii_dec a c); [apply prefix_nil | reflexivity].
Qed.

Lemma no_slash_cons (c : ascii) (s : string) :
  no_slash (String c s) <-> c <> "/"%char /\ no_slash s.
Proof.
  unfold no_slash. rewrite contains_cons.
  change "/" with (String "/"%char "") at 1. rewrite prefix_char.
  destruct (ascii_dec "/" c) as [<-|Hne]; cbn [orb].
  - split; [discriminate | intros [H _]; contradiction].
  - split; [intros H; split; [congruence | exact H] | intros [_ H]; exact H].
Qed.

Lemma no_slash_app (a b : string) : no_slash a -> no_slash b -> no_slash (a ++ b).
Proof.
  induction a as [|c a IH]; intros Ha Hb; [exact Hb|].
  apply no_slash_cons in Ha. destruct Ha as [Hc Ha]. rewrite append_cons.
  apply no_slash_cons. split; [exact Hc | now apply IH].
Qed.

(** ** [str.split] *)

Lemma split_go_absent (sep s cur : string) :
  PyStr.contains sep s = false -> PyStr.split_go sep s 0 cur = [cur ++ s].
Proof.
  revert cur. induction s as [|c s IH]; intros cur H.
  - cbn [PyStr.split_go]. now rewrite append_nil_r.
  - rewrite contains_cons in H. apply orb_false_iff in H. destruct H as [Hp Hc].
    cbn [PyStr.split_go]. rewrite Hp, (IH _ Hc), append_assoc. reflexivity.
Qed.

Lemma split_go_skip (sep s1 t cur : string) :
  PyStr.split_go sep (s1 ++ t) (String.length s1) cur = PyStr.split_go sep t 0 cur.
Proof.
  induction s1 as [|c s1 IH]; [reflexivity|].
  rewrite append_cons. cbn [String.length PyStr.split_go]. exact IH.
Qed.

Lemma split_go_match (c : ascii) (sep' t cur : string) :
  PyStr.split_go (String c sep') (String c sep' ++ t) 0 cur
  = cur :: PyStr.split_go (String c sep') t 0 "".
Proof.
  pose proof (prefix_app (String c sep') t) as Hp.
  rewrite append_cons in *. cbn [PyStr.split_go]. rewrite Hp.
  replace (String.length (String c sep') - 1)%nat with (String.length sep')
    by (cbn [String.length]; lia).
  now rewrite split_go_skip.
Qed.

Lemma split_go_before (sep a t cur : string) :
  no_match_in sep a t ->
  PyStr.split_go sep (a ++ t) 0 cur = PyStr.split_go sep t 0 (cur ++ a).
Proof.
  revert cur. induction a as [|c a IH]; intros cur H.
  - now rewrite append_nil_l, append_nil_r.
  - destruct H as [Hp Ha]. rewrite append_cons in *. cbn [PyStr.split_go].
    rewrite Hp, (IH _ Ha), append_assoc. reflexivity.
Qed.

Lemma no_slash_no_match (a t : string) : no_slash a -> no_match_in "/" a ("/" ++ t).
Proof.
  induction a as [|c a IH]; intros H; [exact I|].
  apply no_slash_cons in H. destruct H as [Hc Ha]. split; [|now apply IH].
  rewrite append_cons. change "/" with (String "/"%char "") at 1. rewrite prefix_char.
  destruct (ascii_dec "/" c); [congruence | reflexivity].
Qed.

(** [(owner + "/" + repo).split("/")] *)
Lemma split_owner_repo (owner repo : string) :
  no_slash owner -> no_slash repo ->
  PyStr.split "/" (owner ++ "/" ++ repo) = [owner; repo].
Proof.
  intros Ho Hr. unfold PyStr.split.
  rewrite (split_go_before "/" owner ("/" ++ repo) "" (no_slash_no_match _ _ Ho)).
  rewrite append_nil_l. change "/" with (String "/"%char "") at 1 2.
  rewrite split_go_match. now rewrite (split_go_absent _ repo "" Hr).
Qed.

(** What both branches of [parse_github_remote] do with [owner/repo.git]. *)
Lemma strip_git_suffix (owner repo : string) :
  let path := owner ++ "/" ++ repo ++ ".git" in
  (if PyStr.endswith ".git" path then PyStr.drop_last 4 path else path)
  = owner ++ "/" ++ repo.
Proof.
  intros path.
  assert (path = (owner ++ "/" ++ repo) ++ ".git") as ->.
  { unfold path. now rewrite !append_assoc. }
  rewrite endswith_app. exact (drop_last_app (owner ++ "/" ++ repo) ".git").
Qed.

Lemma roundtrip_ssh (owner repo : string) :
  no_slash owner -> no_slash repo ->
  parse_github_remote (build_github_url owner repo "ssh") = Some (owner, repo).
Proof.
  intros Ho Hr. unfold build_github_url. rewrite String.eqb_refl.
  unfold parse_github_remote, PyStr.startswith. rewrite prefix_app.
  change 15%nat with (String.length "git@github.com:"). rewrite drop_app.
  rewrite (strip_git_suffix owner repo), (split_owner_repo owner repo Ho Hr).
  reflexivity.
Qed.

(** A string without a slash holds no marker that has one. *)
Lemma no_slash_no_marker (x y s : string) :
  no_slash s -> PyStr.contains (x ++ "/" ++ y) s = false.
Proof.
  induction s as [|c s IH]; intros H.
  - cbn [PyStr.contains]. destruct x; reflexivity.
  - rewrite contains_cons. apply no_slash_cons in H as H'. destruct H' as [_ Hs].
    rewrite (IH Hs), orb_false_r.
    destruct (String.prefix (x ++ "/" ++ y) (String c s)) eqn:Hp; [|reflexivity].
    apply prefix_true in Hp. destruct Hp as [t Ht]. unfold no_slash in H.
    rewrite Ht, !append_assoc, contains_app in H. discriminate.
Qed.

(** Two splittings at the first slash agree. *)
Lemma first_slash (a b t u : string) :
  no_slash a -> no_slash b -> a ++ "/" ++ t = b ++ "/" ++ u -> a = b.
Proof.
  revert b. induction a as [|c a IH]; intros b Ha Hb E.
  - destruct b as [|d b]; [reflexivity|].
    apply no_slash_cons in Hb. destruct Hb as [Hd _].
    rewrite append_nil_l, append_cons in E. injection E as E _. congruence.
  - apply no_slash_cons in Ha. destruct Ha as [Hc Ha].
    destruct b as [|d b].
    + rewrite append_nil_l, append_cons in E. injection E as E _. congruence.
    + apply no_slash_cons in Hb. destruct Hb as [_ Hb].
      rewrite !append_cons in E. injection E as -> E. f_equal. now apply IH with (b := b).
Qed.

Lemma endswith_cons (p : string) (c : ascii) (s : string) :
  PyStr.endswith p s = true -> PyStr.endswith p (String c s) = true.
Proof.
  intros H. apply endswith_true in H. destruct H as [a ->].
  rewrite <- append_cons. apply endswith_app.
Qed.

(** The marker occurs in [owner/rest] only when [owner] ends in the host. *)
Lemma marker_absent (owner rest : string) :
  no_slash owner -> no_slash rest ->
  PyStr.endswith "github.com" owner = false ->
  PyStr.contains "github.com/" (owner ++ "/" ++ rest) = false.
Proof.
  intros Ho Hr. induction owner as [|c owner IH]; intros He.
  - rewrite append_nil_l.
    change ("/" ++ rest) with (String "/"%char rest). rewrite contains_cons.
    change "github.com/" with ("github.com" ++ "/" ++ "").
    rewrite (no_slash_no_marker "github.com" "" rest Hr), orb_false_r.
    destruct rest; reflexivity.
  - rewrite append_cons, contains_cons. apply no_slash_cons in Ho as Ho'.
    destruct Ho' as [_ Ho'].
    rewrite IH, orb_false_r.
    + destruct (String.prefix "github.com/" (String c (owner ++ "/" ++ rest))) eqn:Hp;
        [|reflexivity].
      apply prefix_true in Hp. destruct Hp as [t Ht]. rewrite <- append_cons in Ht.
      change ("github.com/" ++ t) with ("github.com" ++ "/" ++ t) in Ht.
      apply first_slash in Ht; [|exact Ho|reflexivity].
      rewrite Ht in He. discriminate.
    + exact Ho'.
    + destruct (PyStr.endswith "github.com" owner) eqn:E; [|reflexivity].
      rewrite (endswith_cons _ c _ E) in He. discriminate.
Qed.

Lemma roundtrip_https (owner repo protocol : string) :
  no_slash owner -> no_slash repo ->
  protocol <> "ssh" ->
  PyStr.endswith "github.com" owner = false ->
  parse_github_remote (build_github_url owner repo protocol) = Some (owner, repo).
Proof.
  intros Ho Hr Hp He. unfold build_github_url.
  destruct (String.eqb_spec protocol "ssh") as [E|_]; [contradiction|].
  assert (no_slash (repo ++ ".git")) as Hrest by (apply no_slash_app; [exact Hr | reflexivity]).
  pose proof (marker_absent owner (repo ++ ".git") Ho Hrest He) as Habsent.
  unfold parse_github_remote, PyStr.startswith.
  change (String.prefix "git@github.com:" ("https://github.com/" ++ owner ++ "/" ++ repo ++ ".git"))
    with false.
  cbv iota zeta.
  change ("https://github.com/" ++ owner ++ "/" ++ repo ++ ".git")
    with ("https://" ++ "github.com/" ++ owner ++ "/" ++ repo ++ ".git").
  rewrite contains_app.
  unfold PyStr.split.
  rewrite (split_go_before "github.com/" "https://"
             ("github.com/" ++ owner ++ "/" ++ repo ++ ".git") "").
  - rewrite append_nil_l. change "github.com/" with (String "g"%char "ithub.com/") at 1 2.
    rewrite split_go_match.
    change (String "g"%char "ithub.com/") with "github.com/".
    rewrite (split_go_absent _ _ "" Habsent), append_nil_l.
    rewrite (strip_git_suffix owner repo).
    fold (PyStr.split "/" (owner ++ "/" ++ repo)).
    rewrite (split_owner_repo owner repo Ho Hr). reflexivity.
  - repeat split.
Qed.

(** X1: for an owner and a name without a slash, the clone URL parses back
    to its owner and name: always over SSH, and over HTTPS unless the owner
    ends in the host name. *)
Lemma parse_build_roundtrip (owner repo protocol : string) :
  no_slash owner -> no_slash repo ->
  protocol = "ssh" \/ PyStr.endswith "github.com" owner = false ->
  parse_github_remote (build_github_url owner repo protocol) = Some (owner, repo).
Proof.
  intros Ho Hr [->|He]; [now apply roundtrip_ssh|].
  destruct (String.eqb_spec protocol "ssh") as [->|Hne].
  - now apply roundtrip_ssh.
  - now apply roundtrip_https.
Qed.

(** ** URL round trip *)

(** An owner without a dot does not end in the host name. *)
Lemma dot_free_not_host (owner : string) :
  PyStr.contains "." owner = false -> PyStr.endswith "github.com" owner = false.
Proof.
  intros H. destruct (PyStr.endswith "github.com" owner) eqn:E; [|reflexivity].
  destruct (endswith_true _ _ E) as [a ->].
  change "github.com" with ("github" ++ "." ++ "com") in H.
  rewrite <- append_assoc, contains_app in H. discriminate.
Qed.

(** C10: for an owner and a name without a slash, where the owner holds no
    dot (as every GitHub login) or at least does not end in [github.com],
    the clone URL built for either protocol parses back to the owner and the
    name. *)
Theorem C10_roundtrip_of_clone_urls (owner repo protocol : string) :
  no_slash owner -> no_slash repo ->
  protocol = "ssh" \/ protocol = "https" ->
  PyStr.contains "." owner = false \/ PyStr.endswith "github.com" owner = false ->
  parse_github_remote (build_github_url owner repo protocol) = Some (owner, repo).
Proof.
  intros Ho Hr Hp Hhost.
  assert (PyStr.endswith "github.com" owner = false) as He
    by (destruct Hhost as [Hdot|He]; [now apply dot_free_not_host | exact He]).
  destruct Hp as [->| ->].
  - now apply roundtrip_ssh.
  - apply roundtrip_https; [exact Ho | exact Hr | discriminate | exact He].
Qed.

(** The HTTPS clone URL of [acme/web]. *)
Lemma C10_roundtrip_of_clone_urls_witness :
  no_slash "acme" /\ no_slash "web"
  /\ PyStr.contains "." "acme" = false
  /\ parse_github_remote (build_github_url "acme" "web" "https") = Some ("acme", "web").
Proof.
  assert (no_slash "acme") as Ho by reflexivity.
  assert (no_slash "web") as Hr by reflexivity.
  split; [exact Ho|]. split; [exact Hr|]. split; [reflexivity|].
  exact (C10_roundtrip_of_clone_urls "acme" "web" "https" Ho Hr
           (or_intror eq_refl) (or_introl eq_refl)).
Defined.

(** C10 as worded, for every owner without a slash, fails where the owner
    ends in the host name: for the owner [github.com] and a non-empty name
    without a slash, the HTTPS clone URL does not parse back.
    [url.split("github.com/")] cuts at both occurrences of the marker, so the
    piece taken as the path is empty.  The SSH URL of the same owner and every
    usual HTTPS URL do parse back. *)
Theorem C10_https_owner_ending_in_marker :
  build_github_url "github.com" "repo" "https" = "https://github.com/github.com/repo.git"
  /\ PyStr.split "github.com/" "https://github.com/github.com/repo.git"
     = ["https://"; ""; "repo.git"]
  /\ parse_github_remote (build_github_url "github.com" "repo" "https") = None
  /\ parse_github_remote (build_github_url "github.com" "repo" "ssh")
     = Some ("github.com", "repo")
  /\ parse_github_remote (build_github_url "acme" "repo" "https") = Some ("acme", "repo").
Proof. repeat split; reflexivity. Qed.

(** * Further properties of the code *)

(** ** Parsed remote URLs *)

Lemma split_go_slash_free (s cur : string) (skip : nat) :
  no_slash cur -> Forall no_slash (PyStr.split_go "/" s skip cur).
Proof.
  revert cur skip. induction s as [|c s IH]; intros cur skip Hcur.
  - cbn [PyStr.split_go]. now constructor.
  - cbn [PyStr.split_go]. destruct skip as [|k]; [|now apply IH].
    change "/" with (String "/"%char "") at 1. rewrite prefix_char.
    destruct (ascii_dec "/" c) as [<-|Hne].
    + constructor; [exact Hcur | now apply IH].
    + apply IH. apply no_slash_app; [exact Hcur|].
      apply no_slash_cons. split; [congruence | reflexivity].
Qed.

Lemma split_slash_free (s : string) : Forall no_slash (PyStr.split "/" s).
Proof. apply split_go_slash_free. reflexivity. Qed.

(** X2: Whatever URL is parsed, the owner and the name that come out hold no
    slash. *)
Theorem parsed_remote_slash_free (url owner repo : string) :
  parse_github_remote url = Some (owner, repo) -> no_slash owner /\ no_slash repo.
Proof.
  unfold parse_github_remote. intros H.
  assert (forall path o r,
            match PyStr.split "/" path with
            | o' :: r' :: _ => Some (o', r')
            | _ => None
            end = Some (o, r) -> no_slash o /\ no_slash r) as Hpieces.
  { intros path o r Hm. pose proof (split_slash_free path) as Hf.
    destruct (PyStr.split "/" path) as [|o' [|r' rest]]; try discriminate.
    injection Hm as <- <-. inversion Hf as [|? ? Ho Hf']; subst.
    inversion Hf' as [|? ? Hr _]; subst. now split. }
  destruct (PyStr.startswith "git@github.com:" url).
  - set (path := if PyStr.endswith ".git" (PyStr.drop 15 url)
                 then PyStr.drop_last 4 (PyStr.drop 15 url) else PyStr.drop 15 url) in *.
    pose proof (split_slash_free path) as Hf.
    destruct (PyStr.split "/" path) as [|o' [|r' [|x rest]]] eqn:Es.
    + destruct (PyStr.contains "github.com/" url); [|discriminate].
      destruct (PyStr.split "github.com/" url) as [|a [|p rest]]; try discriminate.
      exact (Hpieces _ _ _ H).
    + destruct (PyStr.contains "github.com/" url); [|discriminate].
      destruct (PyStr.split "github.com/" url) as [|a [|p rest]]; try discriminate.
      exact (Hpieces _ _ _ H).
    + injection H as <- <-. inversion Hf as [|? ? Ho Hf']; subst.
      inversion Hf' as [|? ? Hr _]; subst. now split.
    + destruct (PyStr.contains "github.com/" url); [|discriminate].
      destruct (PyStr.split "github.com/" url) as [|a [|p rest']]; try discriminate.
      exact (Hpieces _ _ _ H).
  - destruct (PyStr.contains "github.com/" url); [|discriminate].
    destruct (PyStr.split "github.com/" url) as [|a [|p rest]]; try discriminate.
    exact (Hpieces _ _ _ H).
Qed.

Lemma parsed_remote_slash_free_witness :
  parse_github_remote "https://github.com/acme/web/tree/main" = Some ("acme", "web")
  /\ no_slash "acme" /\ no_slash "web".
Proof.
  split; [reflexivity|].
  exact (parsed_remote_slash_free "https://github.com/acme/web/tree/main" "acme" "web" eq_refl).
Defined.

Lemma parse_build_roundtrip_witness :
  no_slash "acme" /\ no_slash "web"
  /\ ("https" = "ssh" \/ PyStr.endswith "github.com" "acme" = false)
  /\ parse_github_remote (build_github_url "acme" "web" "https") = Some ("acme", "web").
Proof.
  assert (no_slash "acme") as Ho by reflexivity.
  assert (no_slash "web") as Hr by reflexivity.
  assert ("https" = "ssh" \/ PyStr.endswith "github.com" "acme" = false) as Hp
    by (right; reflexivity).
  split; [exact Ho|]. split; [exact Hr|]. split; [exact Hp|].
  exact (parse_build_roundtrip "acme" "web" "https" Ho Hr Hp).
Defined.

(** ** Reconciliation: what every entry is *)

(** X4: Every local entry is in exactly one of three situations: orphaned, or
    misplaced, or in the folder of the organisation that owns its name. *)
Theorem local_entry_classified (local_repos : LocalRepos) (github_repos : GithubRepos)
    (org name : string) (path : Path) :
  local_entry local_repos org name path ->
  let is_orphaned := In (org, name, path) (find_orphaned_repos local_repos github_repos) in
  let is_misplaced :=
    exists correct_org,
      In (name, org, correct_org, path) (find_misplaced_repos local_repos github_repos) in
  let in_place := owning_org github_repos name org in
  (is_orphaned /\ ~ is_misplaced /\ ~ in_place)
  \/ (is_misplaced /\ ~ is_orphaned /\ ~ in_place)
  \/ (in_place /\ ~ is_orphaned /\ ~ is_misplaced).
Proof.
  intros Hloc is_orphaned is_misplaced in_place.
  unfold is_orphaned, is_misplaced, in_place. clear is_orphaned is_misplaced in_place.
  rewrite find_orphaned_In, <- last_owner_owning, <- last_owner_None_remote.
  assert ((exists correct_org,
             In (name, org, correct_org, path) (find_misplaced_repos local_repos github_repos))
          <-> exists correct_org,
                last_owner github_repos name = Some correct_org /\ correct_org <> org) as ->.
  { split.
    - intros [co H]. apply find_misplaced_In in H. destruct H as (_ & Ho & Hne). eauto.
    - intros (co & Ho & Hne). exists co. apply find_misplaced_In. auto. }
  destruct (last_owner github_repos name) as [o|] eqn:Eo.
  - destruct (String.eqb_spec o org) as [->|Hne].
    + right. right. split; [reflexivity|]. split.
      * intros [_ H]. discriminate.
      * intros (co & [= <-] & Hne). contradiction.
    + right. left. split; [exists o; auto|]. split.
      * intros [_ H]. discriminate.
      * intros [= ->]. contradiction.
  - left. split; [auto|]. split.
    + intros (co & H & _). discriminate.
    + discriminate.
Qed.

Lemma local_entry_classified_witness :
  local_entry local2 "acme" "tools" (orgs_base ++ ["acme"; "tools"])%list
  /\ exists correct_org,
       In ("tools", "acme", correct_org, (orgs_base ++ ["acme"; "tools"])%list)
         (find_misplaced_repos local2 remote2).
Proof.
  assert (local_entry local2 "acme" "tools" (orgs_base ++ ["acme"; "tools"])%list) as Hloc.
  { eexists. split; [left; reflexivity | left; reflexivity]. }
  split; [exact Hloc|].
  destruct (local_entry_classified local2 remote2 "acme" "tools" _ Hloc)
    as [(Ho & _)|[(Hm & _)|(Hp & _)]].
  - exfalso. vm_compute in Ho. exact Ho.
  - exact Hm.
  - exfalso. apply last_owner_owning in Hp. discriminate.
Defined.

(** X5: Every remote entry is either missing or has a local entry of its name
    under its own organisation, never both. *)
Theorem remote_entry_classified (local_repos : LocalRepos) (github_repos : GithubRepos)
    (org name : string) (repo : Repository) :
  PyDict.wf local_repos ->
  remote_entry github_repos org name repo ->
  let is_missing := In (org, name, repo) (find_missing_repos local_repos github_repos) in
  let is_present := exists path, local_entry local_repos org name path in
  (is_missing /\ ~ is_present) \/ (is_present /\ ~ is_missing).
Proof.
  intros Hwf Hrem is_missing is_present. unfold is_missing, is_present.
  rewrite find_missing_In, <- (local_lookup_mem _ _ _ Hwf).
  destruct (PyDict.mem name _).
  - right. split; [reflexivity|]. intros [_ H]. discriminate.
  - left. split; [auto | discriminate].
Qed.

Lemma local1_wf : PyDict.wf local1.
Proof. unfold PyDict.wf. simpl. constructor; [intros [] | constructor]. Qed.

Lemma remote_entry_classified_witness :
  PyDict.wf local1
  /\ remote_entry remote1 "other" "api" (descriptor "other" "api")
  /\ In ("other", "api", descriptor "other" "api") (find_missing_repos local1 remote1).
Proof.
  assert (remote_entry remote1 "other" "api" (descriptor "other" "api")) as Hrem.
  { eexists. split; [right; left; reflexivity | left; reflexivity]. }
  split; [exact local1_wf|]. split; [exact Hrem|].
  destruct (remote_entry_classified local1 remote1 "other" "api" _ local1_wf Hrem)
    as [[Hm _]|[Hp _]].
  - exact Hm.
  - exfalso. destruct Hp as (p & repos & [H|[]] & Hin).
    injection H as H _. discriminate.
Defined.

(** X6: When the local tree holds exactly the (organisation, name) pairs of the
    remote snapshot and no name has two owners, reconciliation finds nothing. *)
Theorem mirror_has_no_findings (local_repos : LocalRepos) (github_repos : GithubRepos) :
  PyDict.wf local_repos ->
  remote_names_unique github_repos ->
  (forall org name,
     (exists path, local_entry local_repos org name path)
     <-> (exists repo, remote_entry github_repos org name repo)) ->
  find_misplaced_repos local_repos github_repos = []
  /\ find_missing_repos local_repos github_repos = []
  /\ find_orphaned_repos local_repos github_repos = [].
Proof.
  intros Hwf Huniq Hsame.
  assert (forall {A : Type} (l : list A), (forall x, ~ In x l) -> l = []) as Hnil.
  { intros A [|x l] H; [reflexivity|]. exfalso. apply (H x). now left. }
  split; [|split]; apply Hnil.
  - intros [[[name lo] co] p] H. apply find_misplaced_In in H.
    destruct H as (Hloc & Ho & Hne). apply last_owner_owning in Ho.
    apply (owning_org_unique _ _ _ Huniq) in Ho. destruct Ho as (repos & Hin & Hk).
    destruct (proj1 (Hsame lo name) (ex_intro _ p Hloc)) as (r & repos' & Hin' & Hr).
    apply Hne. apply (Huniq co repos lo repos' name Hin Hin' Hk).
    apply In_keys. eauto.
  - intros [[org name] repo] H. apply find_missing_In in H. destruct H as [Hrem Hmem].
    assert (exists path, local_entry local_repos org name path) as Hloc
      by (apply Hsame; eauto).
    apply (local_lookup_mem _ _ _ Hwf) in Hloc. congruence.
  - intros [[org name] p] H. apply find_orphaned_In in H. destruct H as [Hloc Hno].
    destruct (proj1 (Hsame org name) (ex_intro _ p Hloc)) as (r & Hrem).
    apply Hno. now apply remote_entry_name with org r.
Qed.

Lemma mirror_has_no_findings_witness :
  PyDict.wf local_mirrored
  /\ remote_names_unique remote_mirrored
  /\ (forall org name,
        (exists path, local_entry local_mirrored org name path)
        <-> (exists repo, remote_entry remote_mirrored org name repo))
  /\ find_misplaced_repos local_mirrored remote_mirrored = []
  /\ find_missing_repos local_mirrored remote_mirrored = []
  /\ find_orphaned_repos local_mirrored remote_mirrored = [].
Proof.
  assert (PyDict.wf local_mirrored) as Hwf.
  { unfold PyDict.wf. simpl. constructor; [intros [] | constructor]. }
  assert (remote_names_unique remote_mirrored) as Huniq.
  { intros o1 r1 o2 r2 name [H1|[]] [H2|[]] _ _. congruence. }
  assert (forall org name,
            (exists path, local_entry local_mirrored org name path)
            <-> (exists repo, remote_entry remote_mirrored org name repo)) as Hsame.
  { intros org name. split.
    - intros (p & repos & [H|[]] & Hin). injection H as <- <-.
      destruct Hin as [Hin|[]]. injection Hin as <- _.
      eexists. eexists. split; [left; reflexivity | left; reflexivity].
    - intros (r & repos & [H|[]] & Hin). injection H as <- <-.
      destruct Hin as [Hin|[]]. injection Hin as <- _.
      eexists. eexists. split; [left; reflexivity | left; reflexivity]. }
  split; [exact Hwf|]. split; [exact Huniq|]. split; [exact Hsame|].
  exact (mirror_has_no_findings local_mirrored remote_mirrored Hwf Huniq Hsame).
Defined.

(** ** Dict updates keep dicts *)

Lemma keys_set_present {V : Type} (k : string) (v : V) (d : list (string * V)) :
  In k (PyDict.keys d) -> PyDict.keys (PyDict.set k v d) = PyDict.keys d.
Proof.
  unfold PyDict.keys. induction d as [|[k' v'] d IH]; simpl; [tauto|].
  destruct (String.eqb_spec k k') as [->|Hne]; [reflexivity|].
  intros [H|H]; [congruence|]. simpl. now rewrite IH.
Qed.

Lemma keys_set_absent {V : Type} (k : string) (v : V) (d : list (string * V)) :
  ~ In k (PyDict.keys d) -> PyDict.keys (PyDict.set k v d) = (PyDict.keys d ++ [k])%list.
Proof.
  unfold PyDict.keys. induction d as [|[k' v'] d IH]; simpl; [reflexivity|].
  destruct (String.eqb_spec k k') as [->|Hne]; [intros H; exfalso; apply H; now left|].
  intros H. simpl. rewrite IH; [reflexivity|]. intros Hin. apply H. now right.
Qed.

Lemma keys_set_In {V : Type} (k : string) (v : V) (d : list (string * V)) (x : string) :
  In x (PyDict.keys (PyDict.set k v d)) <-> x = k \/ In x (PyDict.keys d).
Proof.
  split; [apply set_keys_In|].
  destruct (in_dec string_dec k (PyDict.keys d)) as [Hin|Hnot].
  - rewrite (keys_set_present _ _ _ Hin). intros [->|H]; auto.
  - rewrite (keys_set_absent _ _ _ Hnot). intros [->|H]; apply in_or_app; [right; now left | now left].
Qed.

Lemma set_wf {V : Type} (k : string) (v : V) (d : list (string * V)) :
  PyDict.wf d -> PyDict.wf (PyDict.set k v d).
Proof.
  unfold PyDict.wf. intros Hwf.
  destruct (in_dec string_dec k (PyDict.keys d)) as [Hin|Hnot].
  - now rewrite (keys_set_present _ _ _ Hin).
  - rewrite (keys_set_absent _ _ _ Hnot). apply List.NoDup_app.
    + exact Hwf.
    + constructor; [intros [] | constructor].
    + intros x Hx [<-|[]]. contradiction.
Qed.

Lemma set_Forall {V : Type} (Q : string * V -> Prop) (k : string) (v : V)
    (d : list (string * V)) :
  Forall Q d -> Q (k, v) -> Forall Q (PyDict.set k v d).
Proof.
  intros Hd Hq. apply List.Forall_forall. intros e He. apply set_In in He.
  destruct He as [->|He]; [exact Hq|]. revert e He. now apply List.Forall_forall.
Qed.

(** Lookup after assignment. *)
Lemma get_set_same {V : Type} (k : string) (v : V) (d : list (string * V)) :
  PyDict.get k (PyDict.set k v d) = Some v.
Proof.
  induction d as [|[k' v'] d IH]; simpl.
  - now rewrite String.eqb_refl.
  - destruct (String.eqb_spec k k') as [->|Hne]; simpl.
    + now rewrite String.eqb_refl.
    + destruct (String.eqb_spec k k'); [contradiction | exact IH].
Qed.

Lemma get_set_other {V : Type} (k k' : string) (v : V) (d : list (string * V)) :
  k' <> k -> PyDict.get k' (PyDict.set k v d) = PyDict.get k' d.
Proof.
  intros Hne. induction d as [|[k0 v0] d IH]; simpl.
  - destruct (String.eqb_spec k' k); [contradiction | reflexivity].
  - destruct (String.eqb_spec k k0) as [->|Hk]; simpl.
    + destruct (String.eqb_spec k' k0); [contradiction | reflexivity].
    + destruct (String.eqb_spec k' k0); [reflexivity | exact IH].
Qed.

Lemma snapshot_set_empty {V : Type} (org : string)
    (result : list (string * list (string * V))) :
  snapshot_wf result -> snapshot_wf (PyDict.set org [] result).
Proof.
  intros [Hwf Hin]. split; [now apply set_wf|].
  apply set_Forall; [exact Hin | constructor].
Qed.

Lemma snapshot_set_inner {V : Type} (org name : string) (v : V)
    (result : list (string * list (string * V))) :
  snapshot_wf result -> snapshot_wf (set_inner org name v result).
Proof.
  intros [Hwf Hin]. unfold set_inner.
  destruct (PyDict.get org result) as [d|] eqn:Eg; [|now split].
  split; [now apply set_wf|]. apply set_Forall; [exact Hin|].
  cbn [snd]. apply set_wf. apply get_Some_In in Eg.
  rewrite List.Forall_forall in Hin. exact (Hin _ Eg).
Qed.

Lemma set_inner_keys {V : Type} (org name : string) (v : V)
    (result : list (string * list (string * V))) :
  PyDict.keys (set_inner org name v result) = PyDict.keys result.
Proof.
  unfold set_inner. destruct (PyDict.get org result) as [d|] eqn:Eg; [|reflexivity].
  apply keys_set_present. apply In_keys. exists d. now apply get_Some_In.
Qed.

(** An induction principle for loops: [P] may speak of the items done so
    far, the loop state and the world. *)
Lemma for_each_ind {A S : Type} (P : list A -> S -> World -> Prop) (body : A -> S -> M S) :
  (forall done x s w, P done s w -> P (done ++ [x])%list (fst (body x s w)) (snd (body x s w))) ->
  forall l done s w,
    P done s w ->
    P (done ++ l)%list (fst (for_each l body s w)) (snd (for_each l body s w)).
Proof.
  intros Hstep. induction l as [|x l IH]; intros done s w H.
  - rewrite app_nil_r. exact H.
  - cbn [for_each]. rewrite bind_run.
    replace (done ++ x :: l)%list with ((done ++ [x]) ++ l)%list
      by (now rewrite <- app_assoc).
    apply IH, Hstep, H.
Qed.

(** ** The local snapshot *)

Lemma happened_is_dir (env : Env) (p : Path) (w : World) :
  happened (EIsDir p (fst (path_is_dir env p w))) w (snd (path_is_dir env p w)).
Proof.
  unfold happened. rewrite (events_since_app w _ [EIsDir p (is_dir_reply env (history w) p)]);
    [now left | reflexivity].
Qed.

Lemma any_event_path_is_dir (env : Env) (p : Path) : emits any_event (path_is_dir env p).
Proof. apply emits_path_is_dir. intros; exact I. Qed.

Lemma seen_git_later (w0 w w' : World) (path : Path) :
  seen_git w0 w path -> extends any_event w w' -> seen_git w0 w' path.
Proof.
  intros [H1 H2] He. split; now apply happened_later with (P := any_event) (w1 := w).
Qed.

Lemma seen_git_earlier (w0 w w' : World) (path : Path) :
  extends any_event w0 w -> seen_git w w' path -> seen_git w0 w' path.
Proof.
  intros He [H1 H2]. split; now apply happened_earlier with (P := any_event) (w1 := w).
Qed.

(** One item of a folder: it enters the snapshot only after both looks
    answered yes. *)
Lemma local_item_step (env : Env) (org : string) (item : Path) (s : LocalRepos) (w : World) :
  let run :=
    (do d <- path_is_dir env item in
     do g <- (if d then is_git_repo env item else ret false) in
     if d && g then ret (set_inner org (Pathlib.name item) item s) else ret s) w in
  extends any_event w (snd run)
  /\ (fst run = s
      \/ (fst run = set_inner org (Pathlib.name item) item s /\ seen_git w (snd run) item)).
Proof.
  intros run. unfold run. rewrite bind_run.
  pose proof (happened_is_dir env item w) as Hd.
  pose proof (emits_extends any_event _ w (any_event_path_is_dir env item)) as Hx1.
  set (d := fst (path_is_dir env item w)) in *.
  set (w1 := snd (path_is_dir env item w)) in *.
  destruct d.
  - rewrite bind_run. unfold is_git_repo in *.
    pose proof (happened_is_dir env (Pathlib.div item ".git") w1) as Hg.
    pose proof (emits_extends any_event _ w1
                  (any_event_path_is_dir env (Pathlib.div item ".git"))) as Hx2.
    set (g := fst (path_is_dir env (Pathlib.div item ".git") w1)) in *.
    set (w2 := snd (path_is_dir env (Pathlib.div item ".git") w1)) in *.
    destruct g; cbn [andb ret fst snd].
    + split; [exact (extends_trans _ _ _ _ Hx1 Hx2)|]. right. split; [reflexivity|].
      split.
      * now apply happened_later with (P := any_event) (w1 := w1).
      * now apply happened_earlier with (P := any_event) (w1 := w1).
    + split; [exact (extends_trans _ _ _ _ Hx1 Hx2) | now left].
  - rewrite bind_run. cbn [andb ret fst snd]. split; [exact Hx1 | now left].
Qed.

Lemma local_entry_set_empty (org : string) (s : LocalRepos) (o n : string) (p : Path) :
  local_entry (PyDict.set org [] s) o n p -> local_entry s o n p.
Proof.
  intros (repos & Hin & Hin'). apply set_In in Hin. destruct Hin as [H|H].
  - injection H as _ ->. destruct Hin'.
  - exists repos. auto.
Qed.

Lemma local_entry_set_inner (org name : string) (v : Path) (s : LocalRepos)
    (o n : string) (p : Path) :
  local_entry (set_inner org name v s) o n p ->
  (n = name /\ p = v) \/ local_entry s o n p.
Proof.
  intros (repos & Hin & Hin'). apply set_inner_In in Hin.
  destruct Hin as [H|(d & Hd & H)].
  - right. exists repos. auto.
  - injection H as -> ->. apply set_In in Hin'. destruct Hin' as [H|H].
    + left. injection H as -> ->. auto.
    + right. exists d. auto.
Qed.

(** X7: [get_local_repos] returns a snapshot that is a dict at both levels, has
    exactly the configured organisations as keys, and holds a folder only
    under its own name and only after the folder and its [.git] were both
    reported to be directories during the scan. *)
Theorem get_local_repos_scan (env : Env) (config : Config) (w0 : World) :
  let run := get_local_repos env config w0 in
  local_scan_ok (organizations config) w0 (snd run) (fst run).
Proof.
  intros run. unfold run, get_local_repos.
  set (P := fun (done : list string) (s : LocalRepos) (w : World) =>
              extends any_event w0 w /\ local_scan_ok done w0 w s).
  enough (P ([] ++ organizations config)%list
            (fst (for_each (organizations config) _ [] w0))
            (snd (for_each (organizations config) _ [] w0))) as [_ H] by exact H.
  apply for_each_ind.
  2:{ split; [apply extends_refl|]. split; [split; [split; constructor|]|].
      - intros org. split; intros [].
      - intros org name path (repos & [] & _). }
  intros done org s w (Hext & (Hwf & Hkeys) & Hent).
  set (s1 := PyDict.set org [] s).
  assert (local_scan_ok (done ++ [org])%list w0 w s1) as H1.
  { split; [split|].
    - unfold s1. now apply snapshot_set_empty.
    - intros o. unfold s1. rewrite keys_set_In, in_app_iff, Hkeys. cbn [In]. intuition.
    - intros o n p Hloc. apply (Hent o). now apply local_entry_set_empty with org. }
  rewrite bind_run.
  pose proof (emits_extends any_event _ w
                (emits_path_exists env any_event (get_org_path config org)
                   (fun _ => I))) as Hx1.
  set (w1 := snd (path_exists env (get_org_path config org) w)) in *.
  assert (forall w', extends any_event w w' -> P (done ++ [org])%list s1 w') as Hkeep.
  { intros w' Hx. split; [exact (extends_trans _ _ _ _ Hext Hx)|].
    destruct H1 as [Hs He]. split; [exact Hs|].
    intros o n p Hloc. destruct (He o n p Hloc) as [Hn Hseen].
    split; [exact Hn | now apply seen_git_later with w]. }
  destruct (negb (fst (path_exists env (get_org_path config org) w))).
  { apply Hkeep. exact Hx1. }
  rewrite bind_run.
  pose proof (emits_extends any_event _ w1
                (emits_path_iterdir env any_event (get_org_path config org)
                   (fun _ => I))) as Hx2.
  set (items := fst (path_iterdir env (get_org_path config org) w1)).
  set (w2 := snd (path_iterdir env (get_org_path config org) w1)) in *.
  set (Q := fun (seen : list Path) (s' : LocalRepos) (w' : World) =>
              P (done ++ [org])%list s' w').
  enough (Q ([] ++ items)%list
            (fst (for_each items _ s1 w2)) (snd (for_each items _ s1 w2))) as H by exact H.
  apply for_each_ind; [|apply Hkeep; exact (extends_trans _ _ _ _ Hx1 Hx2)].
  intros seen item s' w' (Hext' & (Hwf' & Hkeys') & Hent').
  pose proof (local_item_step env org item s' w') as Hstep. cbv zeta in Hstep. cbv beta.
  enough (forall r : LocalRepos * World,
            extends any_event w' (snd r)
            /\ (fst r = s'
                \/ (fst r = set_inner org (Pathlib.name item) item s'
                    /\ seen_git w' (snd r) item)) ->
            Q (seen ++ [item])%list (fst r) (snd r)) as Hgen
    by (apply Hgen; exact Hstep).
  clear Hstep. intros r [Hx [->|[-> Hseen]]].
  - split; [exact (extends_trans _ _ _ _ Hext' Hx)|]. split; [now split|].
    intros o n p Hloc. destruct (Hent' o n p Hloc) as [Hn Hs].
    split; [exact Hn | now apply seen_git_later with w'].
  - split; [exact (extends_trans _ _ _ _ Hext' Hx)|]. split; [split|].
    + now apply snapshot_set_inner.
    + intros o. now rewrite set_inner_keys.
    + intros o n p Hloc. apply local_entry_set_inner in Hloc.
      destruct Hloc as [[-> ->]|Hloc].
      * split; [reflexivity | now apply seen_git_earlier with w'].
      * destruct (Hent' o n p Hloc) as [Hn Hs].
        split; [exact Hn | now apply seen_git_later with w'].
Qed.

(** ** The remote snapshot *)

Lemma remote_entry_set_empty (org : string) (s : GithubRepos) (o n : string)
    (r : Repository) :
  remote_entry (PyDict.set org [] s) o n r -> remote_entry s o n r.
Proof.
  intros (repos & Hin & Hin'). apply set_In in Hin. destruct Hin as [H|H].
  - injection H as _ ->. destruct Hin'.
  - exists repos. auto.
Qed.

Lemma remote_entry_set_inner (org name : string) (v : Repository) (s : GithubRepos)
    (o n : string) (r : Repository) :
  remote_entry (set_inner org name v s) o n r ->
  (n = name /\ r = v) \/ remote_entry s o n r.
Proof.
  intros (repos & Hin & Hin'). apply set_inner_In in Hin.
  destruct Hin as [H|(d & Hd & H)].
  - right. exists repos. auto.
  - injection H as -> ->. apply set_In in Hin'. destruct Hin' as [H|H].
    + left. injection H as -> ->. auto.
    + right. exists d. auto.
Qed.

(** X8: [get_github_repos] returns a snapshot that is a dict at both levels and
    has exactly the configured organisations as keys; every descriptor is
    stored under its own name, and no stored name is excluded. *)
Theorem get_github_repos_snapshot (env : Env) (config : Config) (w0 : World) :
  let github_repos := fst (get_github_repos env config w0) in
  snapshot_of (organizations config) github_repos
  /\ forall org name repo,
       remote_entry github_repos org name repo ->
       name = repo_name repo /\ ~ In name (exclude_repos config).
Proof.
  intros github_repos. unfold github_repos, get_github_repos.
  set (ok := fun (s : GithubRepos) =>
               forall org name repo,
                 remote_entry s org name repo ->
                 name = repo_name repo /\ ~ In name (exclude_repos config)).
  set (P := fun (done : list string) (s : GithubRepos) (w : World) =>
              snapshot_of done s /\ ok s).
  match goal with
  | |- context [for_each _ ?body _ _] =>
      refine (for_each_ind P body _ (organizations config) [] [] w0 _)
  end.
  2:{ split; [split; [split; constructor|]|].
      - intros org. split; intros [].
      - intros org name repo (repos & [] & _). }
  intros done org s w [[Hwf Hkeys] Hok]. rewrite bind_run. cbn [ret fst snd].
  set (repos := fst (list_org_repos env org w)).
  set (s1 := PyDict.set org [] s).
  assert (P (done ++ [org])%list s1 w) as H1.
  { split; [split|].
    - unfold s1. now apply snapshot_set_empty.
    - intros o. unfold s1. rewrite keys_set_In, in_app_iff, Hkeys. cbn [In]. intuition.
    - intros o n r Hrem. apply (Hok o). now apply remote_entry_set_empty with org. }
  clearbody s1 repos. clear Hwf Hkeys Hok.
  revert s1 H1. induction repos as [|repo repos IH]; intros s1 H1; [exact H1|].
  cbn [fold_left]. apply IH. destruct H1 as [[Hwf Hkeys] Hok].
  destruct (str_in (repo_name repo) (exclude_repos config)) eqn:Ex; cbn [negb];
    [exact (conj (conj Hwf Hkeys) Hok)|].
  split; [split|].
  - now apply snapshot_set_inner.
  - intros o. now rewrite set_inner_keys.
  - intros o n r Hrem. apply remote_entry_set_inner in Hrem.
    destruct Hrem as [[-> ->]|Hrem]; [|now apply (Hok o)].
    split; [reflexivity|]. intros Hin. apply str_in_iff in Hin. congruence.
Qed.

Lemma list_org_repos_failed (env : Env) (org : string) (w : World) :
  listing_fails env (history w) org -> fst (list_org_repos env org w) = [].
Proof.
  intros Hfail. unfold list_org_repos. rewrite bind_run.
  assert (fst (run_gh_command env (List.tl (list_cmd org)) w)
          = run_reply env (history w) (list_cmd org)) as E by reflexivity.
  cbn [List.tl list_cmd] in E. rewrite E.
  destruct Hfail as [Hrc|Hdec].
  - apply Z.eqb_neq in Hrc. rewrite Hrc. cbn [negb]. now rewrite bind_run.
  - destruct (negb _); [now rewrite bind_run|]. rewrite Hdec. now rewrite bind_run.
Qed.

(** X9: When every listing fails, the remote snapshot is empty: nothing is
    missing or misplaced, and every local repository is reported orphaned. *)
Theorem failed_listings_orphan_everything (env : Env) (config : Config) (w0 : World)
    (local_repos : LocalRepos) :
  (forall h org, listing_fails env h org) ->
  let github_repos := fst (get_github_repos env config w0) in
  find_missing_repos local_repos github_repos = []
  /\ find_misplaced_repos local_repos github_repos = []
  /\ forall org name path,
       local_entry local_repos org name path ->
       In (org, name, path) (find_orphaned_repos local_repos github_repos).
Proof.
  intros Hfail github_repos.
  assert (forall org name repo, ~ remote_entry github_repos org name repo) as Hempty.
  { assert (forall e, In e github_repos -> snd e = []) as Hnil.
    { unfold github_repos, get_github_repos.
      apply for_each_invariant with (P := fun s : GithubRepos => forall e, In e s -> snd e = []).
      - intros org s w Hs. rewrite bind_run.
        rewrite (list_org_repos_failed env org w (Hfail _ _)). cbn [ret fst fold_left].
        intros e He. apply set_In in He. destruct He as [->|He]; [reflexivity | now apply Hs].
      - intros e []. }
    intros org name repo (repos & Hin & Hin'). apply Hnil in Hin. cbn [snd] in Hin.
    subst repos. destruct Hin'. }
  assert (forall name, ~ remote_name github_repos name) as Hnone.
  { intros name (org & repos & Hin & Hk). apply In_keys in Hk. destruct Hk as [r Hr].
    apply (Hempty org name r). exists repos. auto. }
  assert (forall {A : Type} (l : list A), (forall x, ~ In x l) -> l = []) as Hnil.
  { intros A [|x l] H; [reflexivity|]. exfalso. apply (H x). now left. }
  split; [|split].
  - apply Hnil. intros [[org name] repo] H. apply find_missing_In in H.
    destruct H as [H _]. exact (Hempty _ _ _ H).
  - apply Hnil. intros [[[name lo] co] p] H. apply find_misplaced_In in H.
    destruct H as (_ & Ho & _). apply (Hnone name).
    now apply owning_org_remote_name with co, last_owner_owning.
  - intros org name path Hloc. apply find_orphaned_In. auto.
Qed.

Lemma failed_listings_orphan_everything_witness :
  (forall h org, listing_fails env_offline h org)
  /\ In ("acme", "web", (orgs_base ++ ["acme"; "web"])%list)
       (find_orphaned_repos local1 (fst (get_github_repos env_offline demo_config world0))).
Proof.
  assert (forall h org, listing_fails env_offline h org) as Hfail.
  { intros h org. left. discriminate. }
  split; [exact Hfail|].
  apply (failed_listings_orphan_everything env_offline demo_config world0 local1 Hfail).
  eexists. split; [left; reflexivity | left; reflexivity].
Defined.

(** ** The phases of a sync *)

Lemma sync_by_phases (env : Env) (config : Config) (clone_missing move_misplaced dry_run : bool)
    (w : World) :
  let p := sync_prepare env config dry_run w in
  let local_repos := sync_local env config w in
  let github_repos := sync_github env config w in
  let m := move_phase env config move_misplaced dry_run local_repos github_repos
             empty_result (snd p) in
  let c := clone_phase env config clone_missing dry_run local_repos github_repos
             (fst m) (snd m) in
  fst p = (local_repos, github_repos)
  /\ sync_github_to_local env config clone_missing move_misplaced dry_run w
     = orphan_phase env local_repos github_repos (fst c) (snd c).
Proof.
  cbv zeta. unfold sync_local, sync_github, sync_prepare, sync_github_to_local.
  rewrite !bind_run. cbn [ret fst snd]. split; [reflexivity|].
  reflexivity.
Qed.

Section SyncEmits.
Variable env : Env.
Variable P : Event -> Prop.
Hypothesis P_print : forall level message, P (EPrint level message).
Hypothesis P_is_dir : forall p reply, P (EIsDir p reply).
Hypothesis P_exists : forall p reply, P (EExists p reply).
Hypothesis P_iterdir : forall p reply, P (EIterdir p reply).
Hypothesis P_gh : forall args reply, P (ERun ("gh" :: args) reply).

Lemma emits_print (level : Level) (m : string) : emits P (interact env (EPrint level m)).
Proof. apply emits_interact, P_print. Qed.

Lemma emits_get_local_repos (config : Config) : emits P (get_local_repos env config).
Proof.
  unfold get_local_repos, is_git_repo. apply emits_for_each. intros org result.
  apply emits_bind; [now apply emits_path_exists | intros present].
  destruct (negb present); [apply emits_ret|].
  apply emits_bind; [now apply emits_path_iterdir | intros items].
  apply emits_for_each. intros item result'.
  apply emits_bind; [now apply emits_path_is_dir | intros d].
  apply emits_bind.
  - destruct d; [now apply emits_path_is_dir | apply emits_ret].
  - intros g. destruct (d && g); apply emits_ret.
Qed.

Lemma emits_list_org_repos (org : string) : emits P (list_org_repos env org).
Proof.
  unfold list_org_repos, run_gh_command, print_error.
  apply emits_bind; [apply emits_subprocess_run; intros; apply P_gh | intros result].
  destruct (negb _).
  - apply emits_bind; [apply emits_print | intros _; apply emits_ret].
  - destruct (decode_repo_list env (stdout result)); [apply emits_ret|].
    apply emits_bind; [apply emits_print | intros _; apply emits_ret].
Qed.

Lemma emits_get_github_repos (config : Config) : emits P (get_github_repos env config).
Proof.
  unfold get_github_repos. apply emits_for_each. intros org result.
  apply emits_bind; [apply emits_list_org_repos | intros repos; apply emits_ret].
Qed.

Lemma emits_orphan_phase (local_repos : LocalRepos) (github_repos : GithubRepos)
    (result : SyncResult) :
  emits P (orphan_phase env local_repos github_repos result).
Proof.
  unfold orphan_phase. apply emits_for_each. intros [[org name] path] r.
  unfold report_orphan, print_warning.
  apply emits_bind; [apply emits_print | intros _; apply emits_ret].
Qed.

Lemma emits_sync_prepare (config : Config) (dry_run : bool) :
  (forall p, dry_run = false -> P (EMkdir p)) ->
  emits P (sync_prepare env config dry_run).
Proof.
  intros Hmk. unfold sync_prepare, print_info.
  apply emits_bind; [apply emits_print | intros _].
  apply emits_bind; [apply emits_get_local_repos | intros local_repos].
  apply emits_bind; [apply emits_get_github_repos | intros github_repos].
  apply emits_bind; [|intros _; apply emits_ret].
  destruct dry_run; cbn [negb]; [apply emits_ret|].
  apply emits_for_each. intros org u. unfold path_mkdir. apply emits_interact. now apply Hmk.
Qed.

Lemma emits_move_one (config : Config) (dry_run : bool)
    (finding : string * string * string * Path) (result : SyncResult) :
  (dry_run = false -> forall src dst raised, P (EMove src dst raised)) ->
  (dry_run = false -> auto_update_remotes config = true ->
   forall cmd reply, P (ERun ("git" :: "-C" :: cmd) reply)) ->
  emits P (move_one env config dry_run finding result).
Proof.
  intros Hmove Hgit. destruct finding as [[[repo_name from_org] to_org] current_path].
  unfold move_one, print_error, print_info, print_success. destruct dry_run.
  - apply emits_bind; [apply emits_print | intros _; apply emits_ret].
  - apply emits_bind; [apply emits_print | intros _].
    apply emits_bind; [apply emits_shutil_move; intros; now apply Hmove | intros [e|]].
    + apply emits_bind; [apply emits_print | intros _; apply emits_ret].
    + apply emits_bind.
      * destruct (auto_update_remotes config) eqn:Ea; [|apply emits_ret].
        apply emits_bind; [|intros _; apply emits_ret].
        unfold set_repo_remote_url, is_git_repo.
        apply emits_bind; [now apply emits_path_is_dir | intros g].
        destruct (negb g); [apply emits_ret|].
        apply emits_bind; [|intros r; apply emits_ret].
        apply emits_subprocess_run. intros. now apply Hgit.
      * intros _. apply emits_bind; [apply emits_print | intros _; apply emits_ret].
Qed.

Lemma emits_move_phase (config : Config) (move_misplaced dry_run : bool)
    (local_repos : LocalRepos) (github_repos : GithubRepos) (result : SyncResult) :
  (move_misplaced = true -> dry_run = false -> forall src dst raised, P (EMove src dst raised)) ->
  (move_misplaced = true -> dry_run = false -> auto_update_remotes config = true ->
   forall cmd reply, P (ERun ("git" :: "-C" :: cmd) reply)) ->
  emits P (move_phase env config move_misplaced dry_run local_repos github_repos result).
Proof.
  intros Hmove Hgit. unfold move_phase. destruct move_misplaced; [|apply emits_ret].
  apply emits_for_each. intros f r. apply emits_move_one; auto.
Qed.

Lemma emits_clone_one (config : Config) (dry_run : bool)
    (finding : string * string * Repository) (result : SyncResult) :
  (dry_run = false -> forall cmd reply, P (ERun ("git" :: "clone" :: cmd) reply)) ->
  emits P (clone_one env config dry_run finding result).
Proof.
  intros Hclone. destruct finding as [[org name] repo].
  unfold clone_one, print_info. destruct dry_run.
  - apply emits_bind; [apply emits_print | intros _; apply emits_ret].
  - apply emits_bind; [|intros [|]; apply emits_ret].
    unfold clone_repo, print_warning, print_error, print_success.
    apply emits_bind; [apply emits_subprocess_run; intros; now apply Hclone | intros r].
    destruct (negb _); [destruct (PyStr.contains _ _)|];
      (apply emits_bind; [apply emits_print | intros _; apply emits_ret]).
Qed.

Lemma emits_clone_phase (config : Config) (clone_missing dry_run : bool)
    (local_repos : LocalRepos) (github_repos : GithubRepos) (result : SyncResult) :
  (clone_missing = true -> dry_run = false ->
   forall cmd reply, P (ERun ("git" :: "clone" :: cmd) reply)) ->
  emits P (clone_phase env config clone_missing dry_run local_repos github_repos result).
Proof.
  intros Hclone. unfold clone_phase. destruct clone_missing; [|apply emits_ret].
  apply emits_for_each. intros f r. apply emits_clone_one; auto.
Qed.

End SyncEmits.

(** *** What each phase does to the result *)

Lemma orphan_phase_result (env : Env) (local_repos : LocalRepos) (github_repos : GithubRepos)
    (r : SyncResult) (w : World) :
  let r' := fst (orphan_phase env local_repos github_repos r w) in
  cloned r' = cloned r /\ moved r' = moved r /\ errors r' = errors r
  /\ orphaned r'
     = (orphaned r ++ List.map orphan_label (find_orphaned_repos local_repos github_repos))%list.
Proof.
  intros r'. unfold r', orphan_phase.
  set (P := fun (done : list (string * string * Path)) (s : SyncResult) (_ : World) =>
              cloned s = cloned r /\ moved s = moved r /\ errors s = errors r
              /\ orphaned s = (orphaned r ++ List.map orphan_label done)%list).
  refine (for_each_ind P (report_orphan env) _
            (find_orphaned_repos local_repos github_repos) [] r w _).
  - intros done [[org name] path] s w' (Hc & Hm & He & Ho).
    unfold report_orphan. rewrite bind_run. cbn [ret fst snd]. unfold P.
    cbn [cloned moved errors orphaned add_orphaned].
    rewrite Ho, map_app, <- app_assoc. auto.
  - unfold P. cbn [List.map]. now rewrite app_nil_r.
Qed.

Lemma move_one_result (env : Env) (config : Config) (dry_run : bool)
    (finding : string * string * string * Path) (r : SyncResult) (w : World) :
  let r' := fst (move_one env config dry_run finding r w) in
  cloned r' = cloned r /\ orphaned r' = orphaned r
  /\ (dry_run = true ->
      moved r' = (moved r ++ [move_triple finding])%list /\ errors r' = errors r).
Proof.
  destruct finding as [[[repo_name from_org] to_org] current_path].
  intros r'. unfold r', move_one. destruct dry_run.
  - rewrite bind_run. cbn [ret fst snd]. repeat split.
  - rewrite bind_run, bind_run. destruct (fst (shutil_move env _ _ _)).
    + rewrite bind_run. cbn [ret fst snd]. repeat split; discriminate.
    + rewrite bind_run, bind_run. cbn [ret fst snd]. repeat split; discriminate.
Qed.

Lemma clone_one_result (env : Env) (config : Config) (dry_run : bool)
    (finding : string * string * Repository) (r : SyncResult) (w : World) :
  let r' := fst (clone_one env config dry_run finding r w) in
  moved r' = moved r /\ orphaned r' = orphaned r
  /\ (dry_run = true ->
      cloned r' = (cloned r ++ [finding_label finding])%list /\ errors r' = errors r).
Proof.
  destruct finding as [[org name] repo].
  intros r'. unfold r', clone_one. destruct dry_run.
  - rewrite bind_run. cbn [ret fst snd]. repeat split.
  - rewrite bind_run. destruct (fst (clone_repo env _ _ _ _ _));
      cbn [ret fst snd]; repeat split; discriminate.
Qed.

Lemma move_phase_result (env : Env) (config : Config) (move_misplaced dry_run : bool)
    (local_repos : LocalRepos) (github_repos : GithubRepos) (r : SyncResult) (w : World) :
  let r' := fst (move_phase env config move_misplaced dry_run local_repos github_repos r w) in
  cloned r' = cloned r /\ orphaned r' = orphaned r
  /\ (move_misplaced = false -> moved r' = moved r /\ errors r' = errors r)
  /\ (move_misplaced = true -> dry_run = true ->
      moved r'
      = (moved r ++ List.map move_triple (find_misplaced_repos local_repos github_repos))%list
      /\ errors r' = errors r).
Proof.
  intros r'. unfold r', move_phase. destruct move_misplaced.
  2:{ cbn [ret fst]. repeat split; discriminate. }
  set (P := fun (done : list (string * string * string * Path)) (s : SyncResult) (_ : World) =>
              cloned s = cloned r /\ orphaned s = orphaned r
              /\ (dry_run = true ->
                  moved s = (moved r ++ List.map move_triple done)%list
                  /\ errors s = errors r)).
  enough (P ([] ++ find_misplaced_repos local_repos github_repos)%list
            (fst (for_each (find_misplaced_repos local_repos github_repos)
                    (move_one env config dry_run) r w))
            (snd (for_each (find_misplaced_repos local_repos github_repos)
                    (move_one env config dry_run) r w))) as (Hc & Ho & Hd).
  { split; [exact Hc|]. split; [exact Ho|]. split; [discriminate | intros _; exact Hd]. }
  apply for_each_ind.
  - intros done f s w' (Hc & Ho & Hd).
    destruct (move_one_result env config dry_run f s w') as (Hc' & Ho' & Hd').
    split; [congruence|]. split; [congruence|]. intros Hdry.
    destruct (Hd Hdry) as [Hm He]. destruct (Hd' Hdry) as [Hm' He'].
    split; [|congruence]. now rewrite Hm', Hm, map_app, <- app_assoc.
  - split; [reflexivity|]. split; [reflexivity|]. intros _. cbn [List.map].
    now rewrite app_nil_r.
Qed.

Lemma clone_phase_result (env : Env) (config : Config) (clone_missing dry_run : bool)
    (local_repos : LocalRepos) (github_repos : GithubRepos) (r : SyncResult) (w : World) :
  let r' := fst (clone_phase env config clone_missing dry_run local_repos github_repos r w) in
  moved r' = moved r /\ orphaned r' = orphaned r
  /\ (clone_missing = false -> cloned r' = cloned r /\ errors r' = errors r)
  /\ (clone_missing = true -> dry_run = true ->
      cloned r'
      = (cloned r ++ List.map finding_label (find_missing_repos local_repos github_repos))%list
      /\ errors r' = errors r).
Proof.
  intros r'. unfold r', clone_phase. destruct clone_missing.
  2:{ cbn [ret fst]. repeat split; discriminate. }
  set (P := fun (done : list (string * string * Repository)) (s : SyncResult) (_ : World) =>
              moved s = moved r /\ orphaned s = orphaned r
              /\ (dry_run = true ->
                  cloned s = (cloned r ++ List.map finding_label done)%list
                  /\ errors s = errors r)).
  enough (P ([] ++ find_missing_repos local_repos github_repos)%list
            (fst (for_each (find_missing_repos local_repos github_repos)
                    (clone_one env config dry_run) r w))
            (snd (for_each (find_missing_repos local_repos github_repos)
                    (clone_one env config dry_run) r w))) as (Hm & Ho & Hd).
  { split; [exact Hm|]. split; [exact Ho|]. split; [discriminate | intros _; exact Hd]. }
  apply for_each_ind.
  - intros done f s w' (Hm & Ho & Hd).
    destruct (clone_one_result env config dry_run f s w') as (Hm' & Ho' & Hd').
    split; [congruence|]. split; [congruence|]. intros Hdry.
    destruct (Hd Hdry) as [Hc He]. destruct (Hd' Hdry) as [Hc' He'].
    split; [|congruence]. now rewrite Hc', Hc, map_app, <- app_assoc.
  - split; [reflexivity|]. split; [reflexivity|]. intros _. cbn [List.map].
    now rewrite app_nil_r.
Qed.

(** *** Properties of a whole sync *)

(** X11: A dry run fetches and prints only: it moves nothing, creates no
    directory and runs no git command.  Its result lists every misplaced
    and every missing finding as if it had been handled, and no error. *)
Theorem dry_run_changes_nothing (env : Env) (config : Config)
    (clone_missing move_misplaced : bool) (w : World) :
  let run := sync_github_to_local env config clone_missing move_misplaced true w in
  let local_repos := sync_local env config w in
  let github_repos := sync_github env config w in
  Forall (fun e => touches_disk e = false) (events_since w (snd run))
  /\ moved (fst run)
     = (if move_misplaced
        then List.map move_triple (find_misplaced_repos local_repos github_repos) else [])
  /\ cloned (fst run)
     = (if clone_missing
        then List.map finding_label (find_missing_repos local_repos github_repos) else [])
  /\ errors (fst run) = [].
Proof.
  intros run local_repos github_repos.
  destruct (sync_by_phases env config clone_missing move_misplaced true w) as [_ Hrun].
  cbv zeta in Hrun. fold local_repos github_repos in Hrun. unfold run. rewrite Hrun.
  set (p := sync_prepare env config true w) in *.
  set (m := move_phase env config move_misplaced true local_repos github_repos
              empty_result (snd p)) in *.
  set (c := clone_phase env config clone_missing true local_repos github_repos
              (fst m) (snd m)) in *.
  destruct (orphan_phase_result env local_repos github_repos (fst c) (snd c))
    as (Hc3 & Hm3 & He3 & _).
  destruct (clone_phase_result env config clone_missing true local_repos github_repos
              (fst m) (snd m)) as (Hm2 & _ & Hoff2 & Hon2).
  destruct (move_phase_result env config move_misplaced true local_repos github_repos
              empty_result (snd p)) as (Hc1 & _ & Hoff1 & Hon1).
  fold m in Hc1, Hoff1, Hon1. fold c in Hm2, Hoff2, Hon2.
  split; [|split; [|split]].
  - apply extends_events_since.
    apply (extends_trans _ _ (snd p)).
    { apply emits_extends, emits_sync_prepare; try (intros; reflexivity). discriminate. }
    apply (extends_trans _ _ (snd m)).
    { apply emits_extends, emits_move_phase; try (intros; reflexivity); discriminate. }
    apply (extends_trans _ _ (snd c)).
    { apply emits_extends, emits_clone_phase; try (intros; reflexivity); discriminate. }
    apply emits_extends, emits_orphan_phase; intros; reflexivity.
  - rewrite Hm3, Hm2. destruct move_misplaced.
    + now destruct (Hon1 eq_refl eq_refl) as [-> _].
    + now destruct (Hoff1 eq_refl) as [-> _].
  - rewrite Hc3. destruct clone_missing.
    + destruct (Hon2 eq_refl eq_refl) as [-> _]. now rewrite Hc1.
    + destruct (Hoff2 eq_refl) as [-> _]. exact Hc1.
  - rewrite He3. assert (errors (fst m) = []) as Hem.
    { destruct move_misplaced;
        [now destruct (Hon1 eq_refl eq_refl) as [_ ->] | now destruct (Hoff1 eq_refl) as [_ ->]]. }
    destruct clone_missing.
    + destruct (Hon2 eq_refl eq_refl) as [_ ->]. exact Hem.
    + destruct (Hoff2 eq_refl) as [_ ->]. exact Hem.
Qed.

(** X12: Whatever the flags, the orphaned list of the result names exactly the
    orphaned findings of the two snapshots, in order. *)
Theorem sync_reports_orphans (env : Env) (config : Config)
    (clone_missing move_misplaced dry_run : bool) (w : World) :
  let run := sync_github_to_local env config clone_missing move_misplaced dry_run w in
  orphaned (fst run)
  = List.map orphan_label
      (find_orphaned_repos (sync_local env config w) (sync_github env config w)).
Proof.
  intros run.
  destruct (sync_by_phases env config clone_missing move_misplaced dry_run w) as [_ Hrun].
  cbv zeta in Hrun. unfold run. rewrite Hrun.
  set (local_repos := sync_local env config w) in *.
  set (github_repos := sync_github env config w) in *.
  set (p := sync_prepare env config dry_run w) in *.
  set (m := move_phase env config move_misplaced dry_run local_repos github_repos
              empty_result (snd p)) in *.
  set (c := clone_phase env config clone_missing dry_run local_repos github_repos
              (fst m) (snd m)) in *.
  destruct (orphan_phase_result env local_repos github_repos (fst c) (snd c))
    as (_ & _ & _ & ->).
  destruct (clone_phase_result env config clone_missing dry_run local_repos github_repos
              (fst m) (snd m)) as (_ & Ho2 & _).
  destruct (move_phase_result env config move_misplaced dry_run local_repos github_repos
              empty_result (snd p)) as (_ & Ho1 & _).
  fold m in Ho1. fold c in Ho2. rewrite Ho2, Ho1. reflexivity.
Qed.

Lemma disabled_phase_run (env : Env) (config : Config)
    (clone_missing move_misplaced dry_run : bool) (w : World) :
  let run := sync_github_to_local env config clone_missing move_misplaced dry_run w in
  (clone_missing = false ->
   cloned (fst run) = [] /\ Forall no_clone (events_since w (snd run)))
  /\ (move_misplaced = false ->
      moved (fst run) = []
      /\ Forall (fun e => is_move e = false) (events_since w (snd run))).
Proof.
  intros run.
  destruct (sync_by_phases env config clone_missing move_misplaced dry_run w) as [_ Hrun].
  cbv zeta in Hrun. unfold run. rewrite Hrun.
  set (local_repos := sync_local env config w) in *.
  set (github_repos := sync_github env config w) in *.
  set (p := sync_prepare env config dry_run w) in *.
  set (m := move_phase env config move_misplaced dry_run local_repos github_repos
              empty_result (snd p)) in *.
  set (c := clone_phase env config clone_missing dry_run local_repos github_repos
              (fst m) (snd m)) in *.
  destruct (orphan_phase_result env local_repos github_repos (fst c) (snd c))
    as (Hc3 & Hm3 & _ & _).
  destruct (clone_phase_result env config clone_missing dry_run local_repos github_repos
              (fst m) (snd m)) as (Hm2 & _ & Hoff2 & _).
  destruct (move_phase_result env config move_misplaced dry_run local_repos github_repos
              empty_result (snd p)) as (Hc1 & _ & Hoff1 & _).
  fold m in Hc1, Hoff1. fold c in Hm2, Hoff2.
  split.
  - intros ->. split.
    + rewrite Hc3. destruct (Hoff2 eq_refl) as [-> _]. exact Hc1.
    + apply extends_events_since.
      apply (extends_trans _ _ (snd p)).
      { apply emits_extends, emits_sync_prepare; intros; reflexivity. }
      apply (extends_trans _ _ (snd m)).
      { apply emits_extends, emits_move_phase; intros; reflexivity. }
      apply (extends_trans _ _ (snd c)).
      { apply emits_extends, emits_clone_phase; try (intros; reflexivity). discriminate. }
      apply emits_extends, emits_orphan_phase; intros; reflexivity.
  - intros ->. split.
    + rewrite Hm3, Hm2. now destruct (Hoff1 eq_refl) as [-> _].
    + apply extends_events_since.
      apply (extends_trans _ _ (snd p)).
      { apply emits_extends, emits_sync_prepare; intros; reflexivity. }
      apply (extends_trans _ _ (snd m)).
      { apply emits_extends, emits_move_phase; try (intros; reflexivity); discriminate. }
      apply (extends_trans _ _ (snd c)).
      { apply emits_extends, emits_clone_phase; intros; reflexivity. }
      apply emits_extends, emits_orphan_phase; intros; reflexivity.
Qed.

(** X13: A phase that is switched off does nothing: without [clone_missing] no
    [git clone] is run and nothing is listed as cloned; without
    [move_misplaced] nothing is moved and nothing is listed as moved. *)
Theorem disabled_phase_does_nothing (env : Env) (config : Config)
    (other_flag dry_run : bool) (w : World) :
  let without_clone := sync_github_to_local env config false other_flag dry_run w in
  let without_move := sync_github_to_local env config other_flag false dry_run w in
  (cloned (fst without_clone) = []
   /\ Forall no_clone (events_since w (snd without_clone)))
  /\ (moved (fst without_move) = []
      /\ Forall (fun e => is_move e = false) (events_since w (snd without_move))).
Proof.
  intros without_clone without_move. split.
  - exact (proj1 (disabled_phase_run env config false other_flag dry_run w) eq_refl).
  - exact (proj2 (disabled_phase_run env config other_flag false dry_run w) eq_refl).
Qed.

(** X14: Relocations come before clones: the interactions of a sync split into
    a first part without any [git clone] and a second part without any move. *)
Theorem moves_precede_clones (env : Env) (config : Config)
    (clone_missing move_misplaced dry_run : bool) (w : World) :
  let run := sync_github_to_local env config clone_missing move_misplaced dry_run w in
  exists first second,
    events_since w (snd run) = (first ++ second)%list
    /\ Forall no_clone first
    /\ Forall (fun e => is_move e = false) second.
Proof.
  intros run.
  destruct (sync_by_phases env config clone_missing move_misplaced dry_run w) as [_ Hrun].
  cbv zeta in Hrun. unfold run. rewrite Hrun.
  set (local_repos := sync_local env config w) in *.
  set (github_repos := sync_github env config w) in *.
  set (p := sync_prepare env config dry_run w) in *.
  set (m := move_phase env config move_misplaced dry_run local_repos github_repos
              empty_result (snd p)) in *.
  set (c := clone_phase env config clone_missing dry_run local_repos github_repos
              (fst m) (snd m)) in *.
  assert (extends no_clone w (snd m)) as [first [H1 F1]].
  { apply (extends_trans _ _ (snd p)).
    { apply emits_extends, emits_sync_prepare; intros; reflexivity. }
    apply emits_extends, emits_move_phase; intros; reflexivity. }
  assert (extends (fun e => is_move e = false) (snd m)
            (snd (orphan_phase env local_repos github_repos (fst c) (snd c))))
    as [second [H2 F2]].
  { apply (extends_trans _ _ (snd c)).
    { apply emits_extends, emits_clone_phase; intros; reflexivity. }
    apply emits_extends, emits_orphan_phase; intros; reflexivity. }
  exists first, second. split; [|now split].
  apply events_since_app. now rewrite H2, H1, app_assoc.
Qed.

(** *** Relocations *)

Lemma move_runs_app (a b : list Event) :
  move_runs (a ++ b)%list = (move_runs a ++ move_runs b)%list.
Proof. unfold move_runs. apply flat_map_app. Qed.

Lemma move_runs_none (evs : list Event) :
  Forall (fun e => is_move e = false) evs -> move_runs evs = [].
Proof.
  induction 1 as [|e evs He _ IH]; [reflexivity|].
  change (e :: evs) with ([e] ++ evs)%list. rewrite move_runs_app, IH, app_nil_r.
  destruct e; try reflexivity. discriminate.
Qed.

(** One relocation: one move; the finding is entered in [moved] when the
    move returned and in [errors], with what was raised, when it did not. *)
Lemma move_one_run (env : Env) (config : Config)
    (finding : string * string * string * Path) (r : SyncResult) (w : World) :
  let run := move_one env config false finding r w in
  exists raised evs,
    history (snd run) = (history w ++ evs)%list
    /\ move_runs evs = [(move_args config finding, raised)]
    /\ moved (fst run)
       = (moved r ++ List.map move_triple (relocated [(finding, raised)]))%list
    /\ errors (fst run) = (errors r ++ relocation_errors [(finding, raised)])%list.
Proof.
  destruct finding as [[[repo_name from_org] to_org] current_path]. intros run.
  unfold run, move_one. rewrite bind_run.
  set (w1 := snd (print_info env _ w)).
  rewrite bind_run.
  set (src := Pathlib.str current_path).
  set (dst := Pathlib.str (get_repo_path config to_org repo_name)).
  set (raised := fst (shutil_move env src dst w1)).
  set (w2 := snd (shutil_move env src dst w1)).
  assert (exists m, history w2 = (history w ++ [m; EMove src dst raised])%list
                    /\ is_move m = false) as (m0 & Hh2 & Hm0).
  { eexists. split; [unfold w2, w1; cbn; now rewrite <- app_assoc | reflexivity]. }
  exists raised.
  assert (forall (k : M SyncResult),
            emits (fun e => is_move e = false) k ->
            exists evs,
              history (snd (k w2)) = (history w ++ evs)%list
              /\ move_runs evs = [(src, dst, raised)]) as Hrest.
  { intros k Hk. destruct (Hk w2) as (evs & He & Hf).
    exists ([m0; EMove src dst raised] ++ evs)%list. split.
    - now rewrite He, Hh2, app_assoc.
    - rewrite move_runs_app, (move_runs_none evs Hf), app_nil_r.
      change [m0; EMove src dst raised] with ([m0] ++ [EMove src dst raised])%list.
      rewrite move_runs_app, (move_runs_none [m0]) by (now constructor). reflexivity. }
  destruct raised as [e|].
  - destruct (Hrest (print_error env ("Failed to move " ++ repo_name ++ ": " ++ e) ;;
                     ret (add_error ("Failed to move " ++ repo_name ++ ": " ++ e) r)))
      as (evs & He & Hruns).
    { apply emits_bind; [|intros _; apply emits_ret]. unfold print_error.
      now apply emits_interact. }
    exists evs. split; [exact He|]. split; [exact Hruns|].
    rewrite bind_run. cbn [ret fst snd moved errors add_error relocated relocation_errors
                             flat_map List.map move_failure]. now rewrite !app_nil_r.
  - match goal with
    | |- context [bind ?a ?b w2] =>
        destruct (Hrest (bind a b)) as (evs & He & Hruns)
    end.
    { apply emits_bind.
      - destruct (auto_update_remotes config); [|apply emits_ret].
        apply emits_bind; [|intros _; apply emits_ret].
        apply emits_set_repo_remote_url; intros; reflexivity.
      - intros _. apply emits_bind; [|intros _; apply emits_ret].
        apply emits_print_success; intros; reflexivity. }
    exists evs. split; [exact He|]. split; [exact Hruns|].
    rewrite bind_run, bind_run. cbn [ret fst snd moved errors add_moved relocated
                                       relocation_errors flat_map List.map move_triple].
    now rewrite !app_nil_r.
Qed.

Lemma relocated_app (a b : list ((string * string * string * Path) * option string)) :
  relocated (a ++ b)%list = (relocated a ++ relocated b)%list.
Proof. unfold relocated. apply flat_map_app. Qed.

Lemma relocation_errors_app (a b : list ((string * string * string * Path) * option string)) :
  relocation_errors (a ++ b)%list = (relocation_errors a ++ relocation_errors b)%list.
Proof. unfold relocation_errors. apply flat_map_app. Qed.

Lemma move_loop_run (env : Env) (config : Config)
    (misplaced : list (string * string * string * Path)) :
  forall (r : SyncResult) (w : World),
  let run := for_each misplaced (move_one env config false) r w in
  exists outcomes evs,
    List.length outcomes = List.length misplaced
    /\ history (snd run) = (history w ++ evs)%list
    /\ move_runs evs = List.combine (List.map (move_args config) misplaced) outcomes
    /\ moved (fst run)
       = (moved r ++ List.map move_triple (relocated (List.combine misplaced outcomes)))%list
    /\ errors (fst run)
       = (errors r ++ relocation_errors (List.combine misplaced outcomes))%list.
Proof.
  induction misplaced as [|f misplaced IH]; intros r w run.
  - exists [], []. unfold run. cbn. now rewrite !app_nil_r.
  - unfold run. cbn [for_each]. rewrite bind_run.
    destruct (move_one_run env config f r w) as (raised & evs1 & Hh1 & Hr1 & Hm1 & He1).
    cbv zeta in Hh1, Hm1, He1.
    set (r1 := fst (move_one env config false f r w)) in *.
    set (w1 := snd (move_one env config false f r w)) in *.
    destruct (IH r1 w1) as (outcomes & evs & Hlen & Hh & Hruns & Hmoved & Herrors).
    exists (raised :: outcomes), (evs1 ++ evs)%list.
    split; [cbn; now rewrite Hlen|]. split; [now rewrite Hh, Hh1, app_assoc|].
    split; [rewrite move_runs_app, Hr1, Hruns; reflexivity|].
    cbn [List.combine].
    change ((f, raised) :: List.combine misplaced outcomes)
      with ([(f, raised)] ++ List.combine misplaced outcomes)%list.
    rewrite relocated_app, relocation_errors_app, map_app, Hmoved, Herrors, Hm1, He1.
    now rewrite <- !app_assoc.
Qed.

(** X15: With [move_misplaced] on and [dry_run] off, every misplaced finding
    gets exactly one move, in order, to the folder of its owner.  A finding
    whose move returned is listed in [moved]; one whose move raised is listed
    in [errors] with the message, and the next findings are still handled.
    Without [auto_update_remotes] the sync runs no git command inside a
    repository, so no remote URL is rewritten. *)
Theorem relocation_failures_isolated (env : Env) (config : Config) (clone_missing : bool)
    (w : World) :
  let run := sync_github_to_local env config clone_missing true false w in
  let misplaced := find_misplaced_repos (sync_local env config w) (sync_github env config w) in
  (exists outcomes later_errors,
     List.length outcomes = List.length misplaced
     /\ move_runs (events_since w (snd run))
        = List.combine (List.map (move_args config) misplaced) outcomes
     /\ moved (fst run) = List.map move_triple (relocated (List.combine misplaced outcomes))
     /\ errors (fst run)
        = (relocation_errors (List.combine misplaced outcomes) ++ later_errors)%list)
  /\ (auto_update_remotes config = false ->
      Forall (fun e => is_git_inside e = false) (events_since w (snd run))).
Proof.
  intros run misplaced.
  destruct (sync_by_phases env config clone_missing true false w) as [_ Hrun].
  cbv zeta in Hrun. unfold run. rewrite Hrun.
  set (local_repos := sync_local env config w) in *.
  set (github_repos := sync_github env config w) in *.
  set (p := sync_prepare env config false w) in *.
  set (m := move_phase env config true false local_repos github_repos
              empty_result (snd p)) in *.
  set (c := clone_phase env config clone_missing false local_repos github_repos
              (fst m) (snd m)) in *.
  set (final := orphan_phase env local_repos github_repos (fst c) (snd c)).
  split.
  - destruct (move_loop_run env config misplaced empty_result (snd p))
      as (outcomes & evs & Hlen & Hh & Hruns & Hmoved & Herrors).
    change (for_each misplaced (move_one env config false) empty_result (snd p)) with m
      in Hh, Hmoved, Herrors.
    destruct (orphan_phase_result env local_repos github_repos (fst c) (snd c))
      as (_ & Hm3 & He3 & _).
    destruct (clone_phase_result env config clone_missing false local_repos github_repos
                (fst m) (snd m)) as (Hm2 & _ & Hoff2 & _).
    fold c in Hm2, Hoff2. fold final in Hm3, He3.
    assert (exists later, errors (fst c) = (errors (fst m) ++ later)%list) as [later Hlater].
    { destruct clone_missing.
      - destruct (clone_loop_run env config (find_missing_repos local_repos github_repos)
                    (fst m) (snd m)) as (replies & evs' & _ & _ & _ & _ & He).
        eexists. exact He.
      - exists []. rewrite app_nil_r. now destruct (Hoff2 eq_refl). }
    exists outcomes, later. split; [exact Hlen|].
    assert (extends (fun e => is_move e = false) w (snd p)) as (pre & Hpre & Fpre).
    { apply emits_extends, emits_sync_prepare; intros; reflexivity. }
    assert (extends (fun e => is_move e = false) (snd m) (snd final)) as (post & Hpost & Fpost).
    { apply (extends_trans _ _ (snd c)).
      { apply emits_extends, emits_clone_phase; intros; reflexivity. }
      apply emits_extends, emits_orphan_phase; intros; reflexivity. }
    split; [|split].
    + rewrite (events_since_app w _ (pre ++ evs ++ post)%list).
      * rewrite !move_runs_app, (move_runs_none pre Fpre), (move_runs_none post Fpost).
        now rewrite app_nil_r.
      * rewrite Hpost, Hh, Hpre, <- !app_assoc. reflexivity.
    + rewrite Hm3, Hm2, Hmoved. reflexivity.
    + rewrite He3, Hlater, Herrors. reflexivity.
  - intros Hauto. apply extends_events_since.
    apply (extends_trans _ _ (snd p)).
    { apply emits_extends, emits_sync_prepare; intros; reflexivity. }
    apply (extends_trans _ _ (snd m)).
    { apply emits_extends, emits_move_phase; try (intros; reflexivity).
      intros _ _ Hon. congruence. }
    apply (extends_trans _ _ (snd c)).
    { apply emits_extends, emits_clone_phase; intros; reflexivity. }
    apply emits_extends, emits_orphan_phase; intros; reflexivity.
Qed.

(** [tools] cannot be moved from [acme] to [other]: one move is tried and
    its failure is reported; the remote URL is left alone. *)
Lemma relocation_failures_isolated_witness :
  auto_update_remotes manual_config = false
  /\ (let run := sync_github_to_local env_misplaced manual_config true true false world0 in
      let misplaced :=
        find_misplaced_repos (sync_local env_misplaced manual_config world0)
          (sync_github env_misplaced manual_config world0) in
      misplaced = [("tools", "acme", "other", (orgs_base ++ ["acme"; "tools"])%list)]
      /\ (exists outcomes later_errors,
            List.length outcomes = List.length misplaced
            /\ move_runs (events_since world0 (snd run))
               = List.combine (List.map (move_args manual_config) misplaced) outcomes
            /\ moved (fst run)
               = List.map move_triple (relocated (List.combine misplaced outcomes))
            /\ errors (fst run)
               = (relocation_errors (List.combine misplaced outcomes) ++ later_errors)%list)
      /\ Forall (fun e => is_git_inside e = false) (events_since world0 (snd run))).
Proof.
  split; [reflexivity|]. split; [vm_compute; reflexivity|].
  destruct (relocation_failures_isolated env_misplaced manual_config true world0)
    as [Hmoves Hquiet].
  split; [exact Hmoves | exact (Hquiet eq_refl)].
Defined.

(** ** The transfer workflow *)

Lemma gh_runs_app (a b : list Event) : gh_runs (a ++ b)%list = (gh_runs a ++ gh_runs b)%list.
Proof. unfold gh_runs. apply flat_map_app. Qed.

Lemma gh_runs_none (evs : list Event) :
  Forall (fun e => is_gh e = false) evs -> gh_runs evs = [].
Proof.
  induction 1 as [|e evs He _ IH]; [reflexivity|].
  cbn [gh_runs List.flat_map]. fold (gh_runs evs). rewrite IH.
  destruct e; try reflexivity. now rewrite He.
Qed.

Lemma local_only_quiet (evs : list Event) : Forall local_only evs -> Forall quiet evs.
Proof. apply List.Forall_impl. now intros e [_ H]. Qed.

Lemma local_only_no_gh (evs : list Event) :
  Forall local_only evs -> Forall (fun e => is_gh e = false) evs.
Proof. apply List.Forall_impl. now intros e [H _]. Qed.

Lemma emits_remote_url_local (env : Env) (path : Path) :
  emits local_only (get_repo_remote_url env path).
Proof. apply emits_get_repo_remote_url; intros; repeat split; reflexivity. Qed.

(** A request that is turned down: [transfer_repo] prints its
    announcement, runs the request and prints the reason. *)
Lemma transfer_repo_rejected (env : Env) (owner repo new_owner : string) (w : World) :
  let reply := transfer_reply env owner repo new_owner w in
  rejected reply = true ->
  fst (transfer_repo env owner repo new_owner w) = false
  /\ exists message,
       history (snd (transfer_repo env owner repo new_owner w))
       = (history w
          ++ [EPrint LInfo ("Transferring " ++ owner ++ "/" ++ repo ++ " to "
                            ++ new_owner ++ "...");
              ERun (transfer_cmd owner repo new_owner) reply;
              EPrint (if on_cooldown reply then LWarning else LError) message])%list.
Proof.
  intros reply Hrej. unfold transfer_repo. rewrite bind_run.
  set (w1 := snd (print_info env _ w)). rewrite bind_run.
  set (result := fst (run_gh_command env _ w1)).
  set (w2 := snd (run_gh_command env _ w1)).
  assert (result = reply) as Hres by reflexivity.
  unfold rejected in Hrej. apply andb_prop in Hrej. destruct Hrej as [Hrc Hpend].
  rewrite Hres, Hrc.
  apply negb_true_iff in Hpend. unfold already_pending in Hpend. rewrite Hpend.
  fold (on_cooldown reply).
  destruct (on_cooldown reply); rewrite bind_run; unfold ret; cbn [fst snd];
    (split; [reflexivity|]); eexists;
    unfold print_warning, print_error, interact; cbn [fst snd history];
    unfold w2, run_gh_command, subprocess_run, interact; cbn [fst snd history];
    unfold w1, print_info, interact; cbn [fst snd history];
    rewrite <- !app_assoc; reflexivity.
Qed.

(** X19: When the remote turns the transfer request down (the command fails
    and does not report a pending transfer), [_process_move] stops there,
    whatever the fuel: the request is the only [gh] command of the run, so
    nothing is polled; no remote URL is rewritten and the observer is not
    called.  The last interaction is a warning when the reply names a
    cooldown, and an error message otherwise. *)
Theorem rejected_transfer_stops_workflow (env : Env) (fuel : nat) (self : OrgMoveHandler)
    (src_org dest_org : string) (src_path dest_path : Path) (w : World) (url repo : string) :
  fst (get_repo_remote_url env dest_path w) = Some url ->
  parse_github_remote url = Some (src_org, repo) ->
  let w1 := snd (get_repo_remote_url env dest_path w) in
  let w2 := snd (print_info env ("Detected move: " ++ src_org ++ "/" ++ repo ++ " -> "
                                 ++ dest_org ++ "/" ++ repo) w1) in
  let reply := transfer_reply env src_org repo dest_org w2 in
  rejected reply = true ->
  let run := _process_move env fuel self src_org dest_org src_path dest_path w in
  fst run = Some tt
  /\ gh_runs (events_since w (snd run)) = [transfer_cmd src_org repo dest_org]
  /\ Forall quiet (events_since w (snd run))
  /\ exists before message,
       events_since w (snd run)
       = (before ++ [EPrint (if on_cooldown reply then LWarning else LError) message])%list.
Proof.
  intros Hurl Hparse w1 w2 reply Hrej run.
  destruct (transfer_repo_rejected env src_org repo dest_org w2 Hrej) as [Hreq [message Hh3]].
  fold reply in Hh3.
  set (w3 := snd (transfer_repo env src_org repo dest_org w2)) in *.
  assert (run = (Some tt, w3)) as Hrun.
  { unfold run, _process_move. rewrite bind_run, Hurl.
    rewrite (parsed_url_truthy _ _ Hparse), Hparse, String.eqb_refl. cbv [negb].
    rewrite bind_run. fold w1. fold w2. rewrite bind_run, Hreq. reflexivity. }
  rewrite Hrun. cbn [fst snd].
  destruct (emits_remote_url_local env dest_path w) as (evs & Hh1 & Hevs). fold w1 in Hh1.
  set (detected := EPrint LInfo ("Detected move: " ++ src_org ++ "/" ++ repo ++ " -> "
                                 ++ dest_org ++ "/" ++ repo)).
  set (announce := EPrint LInfo ("Transferring " ++ src_org ++ "/" ++ repo ++ " to "
                                 ++ dest_org ++ "...")) in *.
  set (last := EPrint (if on_cooldown reply then LWarning else LError) message) in *.
  assert (events_since w w3
          = (evs ++ [detected; announce; ERun (transfer_cmd src_org repo dest_org) reply; last])%list)
    as Hev.
  { apply events_since_app. rewrite Hh3. unfold w2, print_info, interact. cbn [fst snd history].
    rewrite Hh1, <- !app_assoc. reflexivity. }
  rewrite Hev. split; [reflexivity|]. split; [|split].
  - rewrite gh_runs_app, (gh_runs_none evs (local_only_no_gh _ Hevs)). reflexivity.
  - apply Forall_app. split; [exact (local_only_quiet _ Hevs)|].
    unfold last. repeat constructor.
  - exists (evs ++ [detected; announce; ERun (transfer_cmd src_org repo dest_org) reply])%list,
      message.
    rewrite <- app_assoc. reflexivity.
Qed.

(** The request for [acme/svc] runs into the cooldown. *)
Lemma rejected_transfer_stops_workflow_witness :
  fst (get_repo_remote_url env_cooldown svc_dest world0) = Some "git@github.com:acme/svc.git"
  /\ parse_github_remote "git@github.com:acme/svc.git" = Some ("acme", "svc")
  /\ (let run := _process_move env_cooldown 61 demo_handler "acme" "other" svc_src svc_dest
                   world0 in
      fst run = Some tt
      /\ gh_runs (events_since world0 (snd run)) = [transfer_cmd "acme" "svc" "other"]
      /\ Forall quiet (events_since world0 (snd run))
      /\ exists before message,
           events_since world0 (snd run) = (before ++ [EPrint LWarning message])%list).
Proof.
  split; [reflexivity|]. split; [reflexivity|].
  exact (rejected_transfer_stops_workflow env_cooldown 61 demo_handler "acme" "other"
           svc_src svc_dest world0 "git@github.com:acme/svc.git" "svc"
           eq_refl eq_refl eq_refl).
Defined.

Lemma update_only_other (path : Path) (url : string) (e : Event) :
  is_callback e = false -> (forall cmd reply, e <> ERun cmd reply) -> update_only path url e.
Proof. intros Hc Hr. split; [exact Hc|]. intros cmd reply E. now destruct (Hr cmd reply). Qed.

(** X20: After a confirmed transfer: up to the confirmation the run rewrote no
    remote URL and did not call the observer.  Afterwards the only command
    that can run is [git remote set-url origin] with the URL built for the
    destination organisation; it does not run without
    [auto_update_remotes], and it does run with it when the folder is still
    a working copy.  The observer, when there is one, is called last, with
    the source organisation, the destination organisation and the name of
    the repository. *)
Theorem confirmed_transfer_completes (env : Env) (fuel : nat) (self : OrgMoveHandler)
    (src_org dest_org : string) (src_path dest_path : Path) (w : World) (url repo : string) :
  fst (get_repo_remote_url env dest_path w) = Some url ->
  parse_github_remote url = Some (src_org, repo) ->
  let w1 := snd (get_repo_remote_url env dest_path w) in
  let w2 := snd (print_info env ("Detected move: " ++ src_org ++ "/" ++ repo ++ " -> "
                                 ++ dest_org ++ "/" ++ repo) w1) in
  let w3 := snd (transfer_repo env src_org repo dest_org w2) in
  let w4 := snd (wait_for_transfer env fuel dest_org repo 120 w3) in
  fst (transfer_repo env src_org repo dest_org w2) = true ->
  fst (wait_for_transfer env fuel dest_org repo 120 w3) = Some true ->
  let new_url := build_github_url dest_org repo (clone_protocol (config self)) in
  let run := _process_move env fuel self src_org dest_org src_path dest_path w in
  fst run = Some tt
  /\ Forall quiet (events_since w w4)
  /\ exists update,
       events_since w4 (snd run)
       = (update ++ (if on_transfer self then [ECallback src_org dest_org repo] else []))%list
       /\ Forall (update_only dest_path new_url) update
       /\ (auto_update_remotes (config self) = false -> update = [])
       /\ (auto_update_remotes (config self) = true ->
           is_dir_reply env (history w4) (Pathlib.div dest_path ".git") = true ->
           exists reply, In (ERun (set_url_cmd dest_path new_url) reply) update).
Proof.
  intros Hurl Hparse w1 w2 w3 w4 Hreq Hwait new_url run.
  assert (run = finish_transfer env fuel self src_org dest_org dest_path repo w3) as Hrun.
  { unfold run, _process_move. rewrite bind_run, Hurl.
    rewrite (parsed_url_truthy _ _ Hparse), Hparse, String.eqb_refl. cbv [negb].
    rewrite bind_run. fold w1. fold w2. rewrite bind_run, Hreq. reflexivity. }
  rewrite Hrun. clear Hrun run.
  unfold finish_transfer. rewrite bind_run, Hwait. fold w4. rewrite bind_run.
  fold new_url.
  match goal with
  | |- context [snd (?m w4)] => set (U := m)
  end.
  set (w5 := snd (U w4)).
  assert (exists update,
            history w5 = (history w4 ++ update)%list
            /\ Forall (update_only dest_path new_url) update
            /\ (auto_update_remotes (config self) = false -> update = [])
            /\ (auto_update_remotes (config self) = true ->
                is_dir_reply env (history w4) (Pathlib.div dest_path ".git") = true ->
                exists reply, In (ERun (set_url_cmd dest_path new_url) reply) update))
    as (update & Hh5 & Hupd & Hoff & Hon).
  { unfold w5, U. destruct (auto_update_remotes (config self)).
    - assert (emits (update_only dest_path new_url)
                (do updated <- set_repo_remote_url env dest_path new_url in
                 if updated then print_success env ("Updated remote URL to " ++ new_url)
                 else print_warning env "Could not update remote URL automatically")) as Hem.
      { apply emits_bind.
        - apply emits_set_repo_remote_url;
            try (intros; apply update_only_other; [reflexivity | discriminate]).
          intros reply. split; [reflexivity|]. intros cmd r E. now injection E as <- _.
        - intros [|]; [apply emits_print_success | apply emits_print_warning];
            intros; apply update_only_other; (reflexivity || discriminate). }
      destruct (Hem w4) as (update & Hh & Hall).
      exists update. split; [exact Hh|]. split; [exact Hall|]. split; [discriminate|].
      intros _ Hdir.
      set (wB := snd (is_git_repo env dest_path w4)).
      set (e := ERun (set_url_cmd dest_path new_url)
                  (run_reply env (history wB) (set_url_cmd dest_path new_url))).
      exists (run_reply env (history wB) (set_url_cmd dest_path new_url)). fold e.
      match type of Hh with
      | history (snd (?p w4)) = _ => assert (happened e w4 (snd (p w4))) as Hhap
      end.
      { rewrite bind_run.
        apply happened_later with (P := any_event)
          (w1 := snd (set_repo_remote_url env dest_path new_url w4)).
        - unfold set_repo_remote_url. rewrite bind_run.
          replace (fst (is_git_repo env dest_path w4)) with true by (symmetry; exact Hdir).
          cbn [negb]. fold wB. rewrite bind_run. unfold ret. cbn [fst snd].
          apply happened_earlier with (P := any_event) (w1 := wB).
          + apply emits_extends. unfold is_git_repo. apply emits_path_is_dir. intros; exact I.
          + apply happened_interact.
        - destruct (fst (set_repo_remote_url env dest_path new_url w4)); apply emits_extends;
            [apply emits_print_success | apply emits_print_warning]; intros; exact I. }
      unfold happened in Hhap. now rewrite (events_since_app _ _ _ Hh) in Hhap.
    - exists []. cbn. rewrite app_nil_r. repeat split; try constructor. discriminate. }
  split; [|split].
  - destruct (on_transfer self); rewrite !bind_run; reflexivity.
  - apply extends_events_since.
    apply (extends_trans _ _ w1).
    { apply emits_extends, emits_get_repo_remote_url;
        try (intros; apply quiet_print); intros; split; reflexivity. }
    apply (extends_trans _ _ w2).
    { apply emits_extends, emits_print_info. intros; apply quiet_print. }
    apply (extends_trans _ _ w3).
    { apply emits_extends, emits_transfer_repo;
        try (intros; apply quiet_print); intros; split; reflexivity. }
    apply emits_extends, emits_wait_for_transfer;
      try (intros; apply quiet_print); intros; split; reflexivity.
  - exists update. split; [|exact (conj Hupd (conj Hoff Hon))].
    apply events_since_app.
    destruct (on_transfer self); rewrite !bind_run; unfold ret, interact; cbn [fst snd history];
      fold w5; rewrite Hh5, <- ?app_assoc, ?app_nil_r; reflexivity.
Qed.

(** [acme/svc] is moved to [other], the request is accepted and the first
    lookup finds [other/svc]. *)
Lemma confirmed_transfer_completes_witness :
  fst (get_repo_remote_url env_confirmed svc_dest world0) = Some "git@github.com:acme/svc.git"
  /\ parse_github_remote "git@github.com:acme/svc.git" = Some ("acme", "svc")
  /\ (let w1 := snd (get_repo_remote_url env_confirmed svc_dest world0) in
      let w2 := snd (print_info env_confirmed "Detected move: acme/svc -> other/svc" w1) in
      let w3 := snd (transfer_repo env_confirmed "acme" "svc" "other" w2) in
      let w4 := snd (wait_for_transfer env_confirmed 61 "other" "svc" 120 w3) in
      let run := _process_move env_confirmed 61 demo_handler "acme" "other" svc_src svc_dest
                   world0 in
      fst (transfer_repo env_confirmed "acme" "svc" "other" w2) = true
      /\ fst (wait_for_transfer env_confirmed 61 "other" "svc" 120 w3) = Some true
      /\ fst run = Some tt
      /\ Forall quiet (events_since world0 w4)
      /\ exists update,
           events_since w4 (snd run) = (update ++ [ECallback "acme" "other" "svc"])%list
           /\ Forall (update_only svc_dest "git@github.com:other/svc.git") update
           /\ (true = false -> update = [])
           /\ (true = true ->
               true = true ->
               exists reply,
                 In (ERun (set_url_cmd svc_dest "git@github.com:other/svc.git") reply) update)).
Proof.
  split; [reflexivity|]. split; [reflexivity|].
  split; [reflexivity|]. split; [reflexivity|].
  exact (confirmed_transfer_completes env_confirmed 61 demo_handler "acme" "other"
           svc_src svc_dest world0 "git@github.com:acme/svc.git" "svc"
           eq_refl eq_refl eq_refl eq_refl).
Defined.

(** ** Remotes that cannot be resolved *)

Lemma prefix_weaken (p q s : string) :
  String.prefix (p ++ q) s = true -> String.prefix p s = true.
Proof.
  intros H. destruct (prefix_true _ _ H) as [t ->]. rewrite append_assoc. apply prefix_app.
Qed.

Lemma contains_weaken (p q s : string) :
  PyStr.contains (p ++ q) s = true -> PyStr.contains p s = true.
Proof.
  induction s as [|c s IH]; intros H.
  - cbn [PyStr.contains] in *. rewrite orb_false_r in *. now apply prefix_weaken with q.
  - rewrite contains_cons in *. apply orb_true_iff in H. apply orb_true_iff.
    destruct H as [H|H]; [left; now apply prefix_weaken with q | right; now apply IH].
Qed.

(** X3: [parse_github_remote] returns an owner and a repository only for a
    URL whose text contains [github.com]; for every other URL it returns
    [None]. *)
Theorem parse_requires_github (url owner repo : string) :
  parse_github_remote url = Some (owner, repo) ->
  PyStr.contains "github.com" url = true.
Proof.
  intros H. unfold parse_github_remote in H.
  destruct (PyStr.startswith "git@github.com:" url) eqn:Hs.
  - unfold PyStr.startswith in Hs. destruct (prefix_true _ _ Hs) as [t ->].
    change ("git@github.com:" ++ t) with ("git@" ++ "github.com" ++ ":" ++ t).
    apply contains_app.
  - destruct (PyStr.contains "github.com/" url) eqn:Hc; [|discriminate].
    change "github.com/" with ("github.com" ++ "/") in Hc. now apply contains_weaken in Hc.
Qed.

Lemma parse_requires_github_witness :
  parse_github_remote "https://github.com/acme/web.git" = Some ("acme", "web")
  /\ PyStr.contains "github.com" "https://github.com/acme/web.git" = true.
Proof.
  split; [reflexivity|].
  exact (parse_requires_github "https://github.com/acme/web.git" "acme" "web" eq_refl).
Defined.

(** X21: When the moved folder has no remote URL that resolves to a GitHub
    owner and repository (git reports none, the output is empty, or the URL
    has neither shape), [_process_move] ends with an error message, whatever
    the fuel, and runs no [gh] command at all: nothing is transferred or
    polled, no remote URL is rewritten and the observer is not called. *)
Theorem unresolvable_remote_stops_workflow (env : Env) (fuel : nat) (self : OrgMoveHandler)
    (src_org dest_org : string) (src_path dest_path : Path) (w : World) :
  (forall url, fst (get_repo_remote_url env dest_path w) = Some url ->
               parse_github_remote url = None) ->
  let run := _process_move env fuel self src_org dest_org src_path dest_path w in
  fst run = Some tt
  /\ (exists before message,
        events_since w (snd run) = (before ++ [EPrint LError message])%list)
  /\ Forall local_only (events_since w (snd run)).
Proof.
  intros Hnone run.
  destruct (emits_remote_url_local env dest_path w) as (evs & Hh1 & Hevs).
  set (w1 := snd (get_repo_remote_url env dest_path w)) in *.
  assert (exists message, run = (Some tt, snd (print_error env message w1)))
    as [message Hrun].
  { unfold run, _process_move. rewrite bind_run. fold w1.
    destruct (fst (get_repo_remote_url env dest_path w)) as [url|] eqn:Hurl.
    - destruct (PyStr.truthy url); cbv [negb].
      + rewrite (Hnone url eq_refl). eexists. rewrite bind_run. reflexivity.
      + eexists. rewrite bind_run. reflexivity.
    - eexists. rewrite bind_run. reflexivity. }
  rewrite Hrun. cbn [fst snd].
  assert (events_since w (snd (print_error env message w1))
          = (evs ++ [EPrint LError message])%list) as Hev.
  { apply events_since_app. unfold print_error, interact. cbn [fst snd history].
    now rewrite Hh1, <- app_assoc. }
  rewrite Hev. split; [reflexivity|]. split; [now exists evs, message|].
  apply Forall_app. split; [exact Hevs|]. repeat constructor.
Qed.

(** [other/svc] was cloned from another forge. *)
Lemma unresolvable_remote_stops_workflow_witness :
  fst (get_repo_remote_url env_foreign_remote svc_dest world0)
  = Some "https://gitlab.com/acme/svc.git"
  /\ parse_github_remote "https://gitlab.com/acme/svc.git" = None
  /\ (let run := _process_move env_foreign_remote 61 demo_handler "acme" "other"
                   svc_src svc_dest world0 in
      fst run = Some tt
      /\ (exists before message,
            events_since world0 (snd run) = (before ++ [EPrint LError message])%list)
      /\ Forall local_only (events_since world0 (snd run))).
Proof.
  split; [reflexivity|]. split; [reflexivity|].
  apply (unresolvable_remote_stops_workflow env_foreign_remote 61 demo_handler "acme" "other"
           svc_src svc_dest world0).
  intros url Hurl. injection Hurl as <-. reflexivity.
Defined.

(** ** The confirmation poll *)

Lemma lookups_app (new_owner repo : string) (a b : list Event) :
  lookups new_owner repo (a ++ b)%list
  = (lookups new_owner repo a ++ lookups new_owner repo b)%list.
Proof. unfold lookups. apply flat_map_app. Qed.

Lemma lookups_view (new_owner repo : string) (reply : CompletedProcess) (evs : list Event) :
  lookups new_owner repo (ERun (view_cmd new_owner repo) reply :: evs)
  = reply :: lookups new_owner repo evs.
Proof.
  unfold lookups. cbn [List.flat_map]. rewrite bool_decide_eq_true_2 by reflexivity. reflexivity.
Qed.

Lemma wait_loop_lookups (env : Env) (new_owner repo : string) (timeout : Z) (start : Q)
    (fuel : nat) :
  forall w,
  let run := wait_loop env fuel new_owner repo timeout start w in
  exists evs,
    history (snd run) = (history w ++ evs)%list
    /\ poll_outcome fuel (fst run) (lookups new_owner repo evs).
Proof.
  induction fuel as [|fuel IH]; intros w run.
  - exists []. unfold run. cbn. rewrite app_nil_r. repeat split; constructor.
  - unfold run. cbn [wait_loop]. rewrite bind_run. cbn [time_time fst snd].
    destruct (Qltb (clock w - start) (inject_Z timeout)).
    + rewrite bind_run.
      set (reply := run_reply env (history w) (view_cmd new_owner repo)).
      set (w1 := snd (run_gh_command env
                        ["repo"; "view"; new_owner ++ "/" ++ repo; "--json"; "name"] w)).
      assert (history w1 = (history w ++ [ERun (view_cmd new_owner repo) reply])%list) as Hh1
        by reflexivity.
      change (fst (run_gh_command env
                     ["repo"; "view"; new_owner ++ "/" ++ repo; "--json"; "name"] w))
        with reply.
      destruct (returncode reply =? 0)%Z eqn:Hrc.
      * rewrite bind_run. unfold ret. cbn [fst snd].
        eexists. split.
        { unfold print_success, interact. cbn [fst snd history]. rewrite Hh1, <- app_assoc.
          reflexivity. }
        cbn [app]. rewrite lookups_view. exists [], reply. repeat split; [exact Hrc | constructor].
      * rewrite bind_run.
        set (w2 := snd (time_sleep env 2 w1)).
        destruct (IH w2) as (evs & Hh & Hout). cbv zeta in Hh, Hout.
        exists (ERun (view_cmd new_owner repo) reply :: ESleep 2 :: evs). split.
        { rewrite Hh. unfold w2, time_sleep. cbn [fst snd history]. rewrite Hh1, <- !app_assoc.
          reflexivity. }
        rewrite lookups_view.
        change (ESleep 2 :: evs) with ([ESleep 2] ++ evs)%list. rewrite lookups_app.
        cbn [lookups List.flat_map app].
        fold (lookups new_owner repo evs).
        destruct (fst (wait_loop env fuel new_owner repo timeout start w2)) as [[|]|];
          cbn [poll_outcome] in *.
        -- destruct Hout as (failed & last & -> & Hlast & Hfailed).
           exists (reply :: failed), last. repeat split; [exact Hlast|].
           constructor; [exact Hrc | exact Hfailed].
        -- constructor; [exact Hrc | exact Hout].
        -- destruct Hout as [Hall Hlen]. split; [constructor; [exact Hrc | exact Hall]|].
           cbn. now rewrite Hlen.
    + exists []. unfold ret. cbn. rewrite app_nil_r. split; [reflexivity | constructor].
Qed.

(** X22: The result of [wait_for_transfer] follows its lookups: it returns
    [True] exactly when its last lookup found the repository, after lookups
    that all failed; it returns [False] only after lookups that all failed. *)
Theorem poll_result_follows_lookups (env : Env) (fuel : nat) (new_owner repo : string)
    (timeout : Z) (w : World) :
  let run := wait_for_transfer env fuel new_owner repo timeout w in
  poll_outcome fuel (fst run) (lookups new_owner repo (events_since w (snd run))).
Proof.
  intros run. unfold run, wait_for_transfer. rewrite bind_run.
  set (w1 := snd (print_info env "Waiting for transfer to complete..." w)).
  rewrite bind_run. cbn [time_time fst snd]. rewrite bind_run.
  destruct (wait_loop_lookups env new_owner repo timeout (clock w1) fuel w1)
    as (evs & Hh & Hout). cbv zeta in Hh, Hout.
  set (r := fst (wait_loop env fuel new_owner repo timeout (clock w1) w1)) in *.
  set (w2 := snd (wait_loop env fuel new_owner repo timeout (clock w1) w1)) in *.
  assert (history w1 = (history w ++ [EPrint LInfo "Waiting for transfer to complete..."])%list)
    as Hh1 by reflexivity.
  destruct r as [[|]|].
  - unfold ret. cbn [fst snd].
    rewrite (events_since_app w w2 (EPrint LInfo "Waiting for transfer to complete..." :: evs)).
    + exact Hout.
    + rewrite Hh, Hh1, <- app_assoc. reflexivity.
  - rewrite bind_run. unfold ret. cbn [fst snd].
    match goal with
    | |- context [print_warning env ?m w2] =>
        rewrite (events_since_app w (snd (print_warning env m w2))
                   ((EPrint LInfo "Waiting for transfer to complete..." :: evs)
                    ++ [EPrint LWarning m])%list)
    end.
    + rewrite lookups_app. cbn [lookups List.flat_map app]. rewrite app_nil_r.
      exact Hout.
    + unfold print_warning, interact. cbn [fst snd history].
      rewrite Hh, Hh1, <- !app_assoc. reflexivity.
  - unfold ret. cbn [fst snd].
    rewrite (events_since_app w w2 (EPrint LInfo "Waiting for transfer to complete..." :: evs)).
    + exact Hout.
    + rewrite Hh, Hh1, <- app_assoc. reflexivity.
Qed.

Section PollBound.
Variable env : Env.
Variable new_owner repo : string.
Variable timeout : Z.
Variable start : Q.
Hypothesis latency_nonneg : forall h, (0 <= latency env h)%Q.

(** Every lookup but the last is followed by two seconds of sleep, so the
    lookups of a poll fit into what is left of the timeout. *)
Lemma wait_loop_lookups_bounded (fuel : nat) :
  forall w,
  exists evs,
    history (snd (wait_loop env fuel new_owner repo timeout start w)) = (history w ++ evs)%list
    /\ (List.length (lookups new_owner repo evs) = 0%nat
        \/ (2 * inject_Z (Z.of_nat (List.length (lookups new_owner repo evs)))
            < inject_Z timeout - (clock w - start) + 2)%Q).
Proof.
  induction fuel as [|fuel IH]; intros w.
  - exists []. cbn. rewrite app_nil_r. split; [reflexivity | now left].
  - cbn [wait_loop]. rewrite bind_run. cbn [time_time fst snd].
    destruct (Qltb (clock w - start) (inject_Z timeout)) eqn:Hlt.
    + apply Qltb_true_iff in Hlt. rewrite bind_run.
      set (reply := run_reply env (history w) (view_cmd new_owner repo)).
      set (w1 := snd (run_gh_command env
                        ["repo"; "view"; new_owner ++ "/" ++ repo; "--json"; "name"] w)).
      assert (history w1 = (history w ++ [ERun (view_cmd new_owner repo) reply])%list) as Hh1
        by reflexivity.
      change (fst (run_gh_command env
                     ["repo"; "view"; new_owner ++ "/" ++ repo; "--json"; "name"] w))
        with reply.
      destruct (returncode reply =? 0)%Z.
      * rewrite bind_run. unfold ret. cbn [fst snd].
        eexists. split.
        { unfold print_success, interact. cbn [fst snd history]. rewrite Hh1, <- app_assoc.
          reflexivity. }
        cbn [app]. rewrite lookups_view. right. cbn [lookups List.flat_map List.length app].
        change (inject_Z (Z.of_nat 1)) with 1%Q. lra.
      * rewrite bind_run.
        set (w2 := snd (time_sleep env 2 w1)).
        destruct (IH w2) as (evs & Hh & Hlen).
        exists (ERun (view_cmd new_owner repo) reply :: ESleep 2 :: evs). split.
        { rewrite Hh. unfold w2, time_sleep. cbn [fst snd history]. rewrite Hh1, <- !app_assoc.
          reflexivity. }
        rewrite lookups_view.
        change (ESleep 2 :: evs) with ([ESleep 2] ++ evs)%list. rewrite lookups_app.
        cbn [lookups List.flat_map app]. fold (lookups new_owner repo evs).
        right. cbn [List.length].
        assert (clock w + 2 <= clock w2)%Q as Hclock.
        { unfold w2, w1. cbn [run_gh_command subprocess_run interact time_sleep fst snd clock].
          match goal with
          | |- context [(clock w + latency env ?h1 + 2 + latency env ?h2)%Q] =>
              pose proof (latency_nonneg h1); pose proof (latency_nonneg h2)
          end.
          lra. }
        pose proof (inject_nat_succ (List.length (lookups new_owner repo evs))) as Hs.
        destruct Hlen as [Hz|Hlen].
        -- rewrite Hz in *. change (inject_Z (Z.of_nat 0)) with 0%Q in Hs. lra.
        -- lra.
    + exists []. unfold ret. cbn. rewrite app_nil_r. split; [reflexivity | now left].
Qed.

End PollBound.

(** X23: When interactions take no negative time, [wait_for_transfer] makes
    fewer than [timeout / 2 + 1] lookups, whatever the fuel and the replies,
    and none at all for a timeout that is not positive. *)
Theorem poll_lookups_bounded (env : Env) (fuel : nat) (new_owner repo : string)
    (timeout : Z) (w : World) :
  (forall h, (0 <= latency env h)%Q) ->
  let run := wait_for_transfer env fuel new_owner repo timeout w in
  (2 * Z.of_nat (List.length (lookups new_owner repo (events_since w (snd run))))
   < Z.max timeout 0 + 2)%Z.
Proof.
  intros Hlat run. unfold run, wait_for_transfer. rewrite bind_run.
  set (w1 := snd (print_info env "Waiting for transfer to complete..." w)).
  rewrite bind_run. cbn [time_time fst snd]. rewrite bind_run.
  destruct (wait_loop_lookups_bounded env new_owner repo timeout (clock w1) Hlat fuel w1)
    as (evs & Hh & Hlen).
  set (r := fst (wait_loop env fuel new_owner repo timeout (clock w1) w1)) in *.
  set (w2 := snd (wait_loop env fuel new_owner repo timeout (clock w1) w1)) in *.
  assert (history w1 = (history w ++ [EPrint LInfo "Waiting for transfer to complete..."])%list)
    as Hh1 by reflexivity.
  assert (2 * Z.of_nat (List.length (lookups new_owner repo evs)) < Z.max timeout 0 + 2)%Z
    as Hbound.
  { destruct Hlen as [->|Hlen]; [lia|].
    assert (inject_Z (2 * Z.of_nat (List.length (lookups new_owner repo evs)))
            < inject_Z (timeout + 2))%Q as Hq.
    { rewrite inject_Z_mult, inject_Z_plus.
      change (inject_Z 2) with 2%Q. lra. }
    rewrite <- Zlt_Qlt in Hq. lia. }
  assert (forall tail, lookups new_owner repo tail = [] ->
            history (snd run) = (history w2 ++ tail)%list ->
            lookups new_owner repo (events_since w (snd run)) = lookups new_owner repo evs)
    as Hsame.
  { intros tail Htail Hrun.
    rewrite (events_since_app w (snd run)
               ((EPrint LInfo "Waiting for transfer to complete..." :: evs) ++ tail)%list).
    - rewrite lookups_app, Htail, app_nil_r. reflexivity.
    - rewrite Hrun, Hh, Hh1, <- !app_assoc. reflexivity. }
  unfold run, wait_for_transfer in Hsame. rewrite bind_run in Hsame.
  fold w1 in Hsame. rewrite bind_run in Hsame. cbn [time_time fst snd] in Hsame.
  rewrite bind_run in Hsame. fold r w2 in Hsame.
  destruct r as [[|]|].
  - rewrite (Hsame [] eq_refl); [exact Hbound|]. unfold ret. cbn. now rewrite app_nil_r.
  - rewrite bind_run in *. 
    match goal with
    | |- context [print_warning env ?m w2] =>
        rewrite (Hsame [EPrint LWarning m] eq_refl); [exact Hbound | reflexivity]
    end.
  - rewrite (Hsame [] eq_refl); [exact Hbound|]. unfold ret. cbn. now rewrite app_nil_r.
Qed.

(** The transfer of [acme/svc] is never confirmed: at most sixty lookups
    in the 120 seconds of [_process_move]. *)
Lemma poll_lookups_bounded_witness :
  (forall h, (0 <= latency env_never_confirmed h)%Q)
  /\ (2 * Z.of_nat (List.length
                      (lookups "other" "svc"
                         (events_since world0
                            (snd (wait_for_transfer env_never_confirmed 61 "other" "svc" 120
                                    world0)))))
      < Z.max 120 0 + 2)%Z.
Proof.
  assert (forall h, (0 <= latency env_never_confirmed h)%Q) as Hlat by (intros h; discriminate).
  split; [exact Hlat|].
  exact (poll_lookups_bounded env_never_confirmed 61 "other" "svc" 120 world0 Hlat).
Defined.

(** ** The debounce over a stream of notifications *)

Lemma dispatch_times_cons (env : Env) (self : OrgMoveHandler) (key : string)
    (w : World) (event : FsEvent) (rest : list (World * FsEvent)) :
  dispatch_times env self key ((w, event) :: rest)
  = let r := fst (on_moved env self event w) in
    let times := dispatch_times env (fst r) key rest in
    match snd r with
    | Some (_, _, src_path, dest_path) =>
        if String.eqb (move_key_of src_path dest_path) key
        then sighting_time env w event :: times
        else times
    | None => times
    end.
Proof. cbn [dispatch_times]. now destruct (fst (on_moved env self event w)). Qed.

Lemma dispatch_times_spaced (env : Env) (key : string) (notifications : list (World * FsEvent)) :
  forall self,
  let times := dispatch_times env self key notifications in
  spaced (debounce_seconds self) times
  /\ forall seen t,
       pending_moves self !! key = Some seen -> List.head times = Some t ->
       (debounce_seconds self <= t - seen)%Q.
Proof.
  induction notifications as [|[w event] rest IH]; intros self times.
  - split; [exact I | discriminate].
  - unfold times. rewrite dispatch_times_cons. cbv zeta. rewrite on_moved_decision.
    destruct (accepted env self w event) eqn:Hacc; [|exact (IH self)].
    destruct (accepted_task env self w event Hacc) as (src_org & dest_org & Htask).
    unfold debounce. rewrite Htask.
    set (key' := move_key_of (event_src event) (event_dest event)).
    set (now := sighting_time env w event).
    assert (forall seen',
              pending_moves self !! key' = Some seen' ->
              Qltb (now - seen') (debounce_seconds self) = false ->
              let self' := record_move self key' now in
              let tl := dispatch_times env self' key rest in
              let l := if String.eqb key' key then now :: tl else tl in
              spaced (debounce_seconds self) l
              /\ forall seen t,
                   pending_moves self !! key = Some seen -> List.head l = Some t ->
                   (debounce_seconds self <= t - seen)%Q) as Hlate.
    { intros seen' Hseen' Hq self' tl l. destruct (IH self') as [Hsp Hhd].
      fold tl in Hsp, Hhd. change (debounce_seconds self') with (debounce_seconds self) in *.
      unfold l. destruct (String.eqb_spec key' key) as [E|E].
      - split.
        + split; [|exact Hsp]. destruct tl as [|t2 tl']; [exact I|].
          apply (Hhd now t2); [|reflexivity]. rewrite <- E. apply lookup_insert_eq.
        + intros seen t Hseen Ht. injection Ht as <-. rewrite <- E, Hseen' in Hseen.
          injection Hseen as <-. now apply Qltb_false_iff.
      - split; [exact Hsp|]. intros seen t Hseen Ht. apply (Hhd seen t); [|exact Ht].
        cbn. rewrite lookup_insert_ne by exact E. exact Hseen. }
    assert (pending_moves self !! key' = None ->
              let self' := record_move self key' now in
              let tl := dispatch_times env self' key rest in
              let l := if String.eqb key' key then now :: tl else tl in
              spaced (debounce_seconds self) l
              /\ forall seen t,
                   pending_moves self !! key = Some seen -> List.head l = Some t ->
                   (debounce_seconds self <= t - seen)%Q) as Hfirst.
    { intros Hnone self' tl l. destruct (IH self') as [Hsp Hhd].
      fold tl in Hsp, Hhd. change (debounce_seconds self') with (debounce_seconds self) in *.
      unfold l. destruct (String.eqb_spec key' key) as [E|E].
      - split.
        + split; [|exact Hsp]. destruct tl as [|t2 tl']; [exact I|].
          apply (Hhd now t2); [|reflexivity]. rewrite <- E. apply lookup_insert_eq.
        + intros seen t Hseen Ht. rewrite <- E, Hnone in Hseen. discriminate.
      - split; [exact Hsp|]. intros seen t Hseen Ht. apply (Hhd seen t); [|exact Ht].
        cbn. rewrite lookup_insert_ne by exact E. exact Hseen. }
    destruct (pending_moves self !! key') as [seen'|] eqn:Hp.
    + destruct (Qltb (now - seen') (debounce_seconds self)) eqn:Hq.
      * exact (IH self).
      * exact (Hlate seen' eq_refl Hq).
    + exact (Hfirst eq_refl).
Qed.

(** X25: Whatever notifications a fresh handler receives, in whatever worlds,
    two consecutive handling tasks it starts for the same pair of paths are
    started at clock readings at least two seconds apart. *)
Theorem debounce_spacing (env : Env) (cfg : Config) (observer : bool) (key : string)
    (notifications : list (World * FsEvent)) :
  spaced 2 (dispatch_times env (new_handler cfg observer) key notifications).
Proof.
  exact (proj1 (dispatch_times_spaced env key notifications (new_handler cfg observer))).
Qed.

(** Three sightings of the move of [svc] at the readings 0, 1 and 3: the
    second one falls into the window of the first. *)
Example dispatch_times_svc :
  dispatch_times env_confirmed demo_handler (move_key_of svc_src svc_dest)
    [(world0, svc_moved); (world1, svc_moved); ({| clock := 3; history := [] |}, svc_moved)]
  = [0%Q; 3%Q].
Proof. vm_compute. reflexivity. Qed.

(** ** What the detector hands on *)

Lemma relative_to_Some (base p parts : Path) :
  Pathlib.relative_to p base = Some parts -> p = (base ++ parts)%list.
Proof.
  revert p. induction base as [|b base IH]; intros p H.
  - destruct p; cbn in H; now injection H as <-.
  - destruct p as [|x p]; cbn [Pathlib.relative_to] in H; [discriminate|].
    destruct (String.eqb_spec b x) as [<-|]; [|discriminate].
    cbn. f_equal. now apply IH.
Qed.

Lemma no_slash_startswith (c : string) : no_slash c -> PyStr.startswith "/" c = false.
Proof.
  unfold no_slash, PyStr.startswith. destruct c as [|a c]; [reflexivity|].
  rewrite contains_cons. intros H. now apply orb_false_iff in H.
Qed.

Lemma segments_clean (c : string) : clean_part c -> Pathlib.segments c = [c].
Proof.
  intros (Hne & Hdot & Hslash). unfold Pathlib.segments, PyStr.split.
  rewrite (split_go_absent "/" c "" Hslash), append_nil_l. cbn [List.filter].
  destruct (String.eqb_spec c "") as [|_]; [contradiction|].
  destruct (String.eqb_spec c ".") as [|_]; [contradiction|]. reflexivity.
Qed.

Lemma div_clean (p : Path) (c : string) : clean_part c -> Pathlib.div p c = (p ++ [c])%list.
Proof.
  intros H. unfold Pathlib.div. rewrite (no_slash_startswith c (proj2 (proj2 H))).
  now rewrite segments_clean.
Qed.

Lemma direct_child_clean (base p : Path) (org : string) (rest : list string) :
  clean_part org ->
  p = (base ++ org :: rest)%list ->
  _is_direct_child p (Pathlib.div base org) = true ->
  exists name, rest = [name].
Proof.
  intros Hclean -> H. unfold _is_direct_child in H. rewrite (div_clean _ _ Hclean) in H.
  destruct (Pathlib.relative_to _ _) as [parts|] eqn:Hrel; [|discriminate].
  apply relative_to_Some in Hrel. rewrite <- app_assoc in Hrel.
  apply app_inv_head in Hrel. cbn in Hrel. assert (rest = parts) as -> by congruence.
  destruct parts as [|name [|]]; try discriminate. now exists name.
Qed.

Lemma org_from_path (self : OrgMoveHandler) (path : Path) (org : string) :
  _get_org_from_path self path = Some org ->
  exists rest, path = (base_path (config self) ++ org :: rest)%list.
Proof.
  unfold _get_org_from_path. intros H.
  destruct (Pathlib.relative_to path (base_path (config self))) as [[|o rest]|] eqn:Hrel;
    try discriminate.
  injection H as ->. exists rest. now apply relative_to_Some.
Qed.

(** X26: [on_moved] starts a handling task only for a directory moved from
    [base/src_org/name] to [base/dest_org/name'] with two different
    organisation folders, whose destination was reported to hold a [.git]
    directory; the task carries these two folders and the two paths.  Paths
    nested deeper, or directly below the base path, start nothing. *)
Theorem dispatched_moves_are_repo_level (env : Env) (self : OrgMoveHandler) (event : FsEvent)
    (w : World) (task : MoveTask) :
  Forall clean_part (event_src event) ->
  Forall clean_part (event_dest event) ->
  snd (fst (on_moved env self event w)) = Some task ->
  let base := base_path (config self) in
  exists src_org dest_org src_name dest_name,
    event = DirMovedEvent (base ++ [src_org; src_name])%list (base ++ [dest_org; dest_name])%list
    /\ task = (src_org, dest_org, (base ++ [src_org; src_name])%list,
               (base ++ [dest_org; dest_name])%list)
    /\ src_org <> dest_org
    /\ is_dir_reply env (history w) (base ++ [dest_org; dest_name; ".git"])%list = true.
Proof.
  intros Hsrc Hdest Htask base. rewrite on_moved_decision in Htask.
  destruct (accepted env self w event) eqn:Hacc; [|discriminate].
  assert (task_of self event = Some task) as Hof.
  { unfold debounce in Htask.
    destruct (pending_moves self !! _) as [seen|]; [destruct (Qltb _ _)|];
      cbn [fst snd] in Htask; (discriminate || exact Htask). }
  destruct event as [src_path dest_path|]; [|discriminate].
  cbn [event_src event_dest] in *. unfold accepted in Hacc. unfold task_of in Hof.
  cbn [event_src event_dest] in Hof.
  destruct (_get_org_from_path self src_path) as [src_org|] eqn:Hso; [|discriminate].
  destruct (_get_org_from_path self dest_path) as [dest_org|] eqn:Hdo; [|discriminate].
  injection Hof as <-.
  repeat (apply andb_prop in Hacc; destruct Hacc as [Hacc ?]).
  destruct (org_from_path _ _ _ Hso) as [srest Hs].
  destruct (org_from_path _ _ _ Hdo) as [drest Hd].
  fold base in Hs, Hd.
  assert (clean_part src_org) as Hcs.
  { rewrite Hs in Hsrc. apply Forall_app in Hsrc. destruct Hsrc as [_ Hsrc].
    now inversion Hsrc. }
  assert (clean_part dest_org) as Hcd.
  { rewrite Hd in Hdest. apply Forall_app in Hdest. destruct Hdest as [_ Hdest].
    now inversion Hdest. }
  destruct (direct_child_clean base src_path src_org srest Hcs Hs) as [src_name ->];
    [assumption|].
  destruct (direct_child_clean base dest_path dest_org drest Hcd Hd) as [dest_name ->];
    [assumption|].
  exists src_org, dest_org, src_name, dest_name. subst src_path dest_path.
  split; [reflexivity|]. split; [reflexivity|]. split.
  - intros E. subst dest_org. rewrite String.eqb_refl in *. discriminate.
  - assert (clean_part ".git") as Hgit by (repeat split; discriminate).
    rewrite (div_clean _ _ Hgit), <- app_assoc in *. assumption.
Qed.

(** The move of [acme/svc] to [other/svc]. *)
Lemma dispatched_moves_are_repo_level_witness :
  Forall clean_part svc_src
  /\ Forall clean_part svc_dest
  /\ snd (fst (on_moved env_confirmed demo_handler svc_moved world0))
     = Some ("acme", "other", svc_src, svc_dest)
  /\ exists src_org dest_org src_name dest_name,
       svc_moved = DirMovedEvent (orgs_base ++ [src_org; src_name])%list
                     (orgs_base ++ [dest_org; dest_name])%list
       /\ ("acme", "other", svc_src, svc_dest)
          = (src_org, dest_org, (orgs_base ++ [src_org; src_name])%list,
             (orgs_base ++ [dest_org; dest_name])%list)
       /\ src_org <> dest_org
       /\ is_dir_reply env_confirmed (history world0)
            (orgs_base ++ [dest_org; dest_name; ".git"])%list = true.
Proof.
  assert (Forall clean_part svc_src) as Hs by (repeat constructor; discriminate).
  assert (Forall clean_part svc_dest) as Hd by (repeat constructor; discriminate).
  split; [exact Hs|]. split; [exact Hd|]. split; [reflexivity|].
  exact (dispatched_moves_are_repo_level env_confirmed demo_handler svc_moved world0
           ("acme", "other", svc_src, svc_dest) Hs Hd eq_refl).
Defined.

(** ** What a sync asks of the remote *)

Lemma lists_only_local (orgs : list string) (e : Event) : is_gh e = false -> lists_only orgs e.
Proof. intros H cmd reply _ Hgh. congruence. Qed.

Lemma emits_for_each_In {A S : Type} (P : Event -> Prop) (body : A -> S -> M S) (l : list A) :
  (forall x s, In x l -> emits P (body x s)) -> forall s, emits P (for_each l body s).
Proof.
  induction l as [|x l IH]; intros Hbody s; cbn [for_each].
  - apply emits_ret.
  - apply emits_bind; [apply Hbody; now left|].
    intros s'. apply IH. intros y t Hy. apply Hbody. now right.
Qed.

Lemma emits_list_org_repos_lists (env : Env) (orgs : list string) (org : string) :
  In org orgs -> emits (lists_only orgs) (list_org_repos env org).
Proof.
  intros Hin. unfold list_org_repos, run_gh_command, print_error.
  apply emits_bind.
  - apply emits_subprocess_run. intros reply cmd r E _. injection E as <- _.
    exists org. split; [exact Hin | reflexivity].
  - intros result.
    destruct (negb _); [|destruct (decode_repo_list env (stdout result)); [apply emits_ret|]];
      (apply emits_bind; [|intros _; apply emits_ret]);
      apply emits_interact, lists_only_local; reflexivity.
Qed.

Lemma emits_sync_lists (env : Env) (config : Config)
    (clone_missing move_misplaced dry_run : bool) :
  emits (lists_only (organizations config))
    (sync_github_to_local env config clone_missing move_misplaced dry_run).
Proof.
  set (P := lists_only (organizations config)).
  assert (forall e, is_gh e = false -> P e) as Hlocal by (intros e; apply lists_only_local).
  unfold sync_github_to_local.
  apply emits_bind; [apply emits_interact, Hlocal; reflexivity | intros _].
  apply emits_bind;
    [apply emits_get_local_repos; intros; apply Hlocal; reflexivity | intros local_repos].
  apply emits_bind.
  { unfold get_github_repos. apply emits_for_each_In. intros org result Hin.
    apply emits_bind; [now apply emits_list_org_repos_lists | intros repos; apply emits_ret]. }
  intros github_repos.
  apply emits_bind.
  { destruct dry_run; cbn [negb]; [apply emits_ret|].
    apply emits_for_each. intros org u. apply emits_interact, Hlocal. reflexivity. }
  intros _.
  apply emits_bind.
  { apply (emits_move_phase env P); intros; apply Hlocal; reflexivity. }
  intros result1.
  apply emits_bind.
  { apply (emits_clone_phase env P); intros; apply Hlocal; reflexivity. }
  intros result2.
  apply (emits_orphan_phase env P). intros; apply Hlocal; reflexivity.
Qed.

(** X16: A sync only reads the remote: whatever the flags, every [gh] command
    of [sync_github_to_local], and of [init_local_structure], is the listing
    of one of the configured organisations.  Nothing is transferred. *)
Theorem sync_only_lists_remote (env : Env) (config : Config)
    (clone_missing move_misplaced dry_run : bool) (w : World) :
  Forall (lists_only (organizations config))
    (events_since w
       (snd (sync_github_to_local env config clone_missing move_misplaced dry_run w)))
  /\ Forall (lists_only (organizations config))
       (events_since w (snd (init_local_structure env config w))).
Proof.
  split.
  - apply extends_events_since, emits_extends, emits_sync_lists.
  - apply extends_events_since, emits_extends. unfold init_local_structure.
    apply emits_bind; [apply emits_interact, lists_only_local; reflexivity | intros _].
    apply emits_bind; [apply emits_interact, lists_only_local; reflexivity | intros _].
    apply emits_bind; [|intros _; apply emits_sync_lists].
    apply emits_for_each. intros org u.
    apply emits_bind; [|intros _]; apply emits_interact, lists_only_local; reflexivity.
Qed.

(** ** The status report *)

Lemma flat_map_pair_le {A B C : Type} (f : A -> list B) (g : A -> list C) (l : list A) :
  (forall x, In x l -> (List.length (f x) + List.length (g x) <= 1)%nat) ->
  (List.length (List.flat_map f l) + List.length (List.flat_map g l) <= List.length l)%nat.
Proof.
  induction l as [|x l IH]; intros H; [cbn; lia|].
  cbn [List.flat_map List.length]. rewrite !List.length_app.
  pose proof (H x (or_introl eq_refl)). pose proof (IH (fun y Hy => H y (or_intror Hy))). lia.
Qed.

Lemma flat_map_count_le {B C V : Type} (F : string * list (string * V) -> list B)
    (G : string * list (string * V) -> list C) (l : list (string * list (string * V))) :
  (forall e, In e l -> (List.length (F e) + List.length (G e) <= List.length (snd e))%nat) ->
  (List.length (List.flat_map F l) + List.length (List.flat_map G l) <= count_repos l)%nat.
Proof.
  unfold count_repos. induction l as [|e l IH]; intros H; [cbn; lia|].
  cbn [List.flat_map List.map List.list_sum List.fold_right]. rewrite !List.length_app.
  fold (List.list_sum (List.map (fun e => List.length (snd e)) l)).
  pose proof (H e (or_introl eq_refl)). pose proof (IH (fun y Hy => H y (or_intror Hy))). lia.
Qed.

Lemma findings_fit_local (local_repos : LocalRepos) (github_repos : GithubRepos) :
  (List.length (find_misplaced_repos local_repos github_repos)
   + List.length (find_orphaned_repos local_repos github_repos)
   <= count_repos local_repos)%nat.
Proof.
  unfold find_misplaced_repos, find_orphaned_repos.
  apply flat_map_count_le. intros [org repos] _. cbn [snd].
  apply flat_map_pair_le. intros [name path] _.
  rewrite github_locations_lookup.
  destruct (decide (name ∈ github_repo_names github_repos)) as [Hin|Hout].
  - destruct (last_owner github_repos name); [destruct (String.eqb _ _)|]; cbn; lia.
  - assert (last_owner github_repos name = None) as ->.
    { apply last_owner_None_remote. now rewrite <- github_repo_names_elem. }
    cbn. lia.
Qed.

Lemma flat_map_single_le {A B : Type} (f : A -> list B) (l : list A) :
  (forall x, (List.length (f x) <= 1)%nat) ->
  (List.length (List.flat_map f l) <= List.length l)%nat.
Proof.
  intros H. induction l as [|x l IH]; [cbn; lia|].
  cbn [List.flat_map List.length]. rewrite List.length_app. pose proof (H x). lia.
Qed.

Lemma flat_map_count_single {B V : Type} (F : string * list (string * V) -> list B)
    (l : list (string * list (string * V))) :
  (forall e, (List.length (F e) <= List.length (snd e))%nat) ->
  (List.length (List.flat_map F l) <= count_repos l)%nat.
Proof.
  intros H. unfold count_repos. induction l as [|e l IH]; [cbn; lia|].
  cbn [List.flat_map List.map List.list_sum List.fold_right]. rewrite List.length_app.
  fold (List.list_sum (List.map (fun e => List.length (snd e)) l)).
  pose proof (H e). lia.
Qed.

Lemma missing_fit_remote (local_repos : LocalRepos) (github_repos : GithubRepos) :
  (List.length (find_missing_repos local_repos github_repos) <= count_repos github_repos)%nat.
Proof.
  unfold find_missing_repos. apply flat_map_count_single. intros [org repos]. cbn [snd].
  apply flat_map_single_le. intros [name repo]. destruct (PyDict.mem _ _); cbn; lia.
Qed.

Lemma get_sync_status_run (env : Env) (config : Config) (w : World) :
  let local_repos := status_local env config w in
  let github_repos := status_github env config w in
  let s := fst (get_sync_status env config w) in
  status_local_repos s = count_repos local_repos
  /\ status_github_repos s = count_repos github_repos
  /\ details_misplaced s = find_misplaced_repos local_repos github_repos
  /\ details_missing s = find_missing_repos local_repos github_repos
  /\ details_orphaned s = find_orphaned_repos local_repos github_repos
  /\ status_misplaced s = List.length (details_misplaced s)
  /\ status_missing s = List.length (details_missing s)
  /\ status_orphaned s = List.length (details_orphaned s)
  /\ status_in_sync s = ((status_misplaced s =? 0)%nat && (status_missing s =? 0)%nat).
Proof.
  cbv zeta. unfold get_sync_status, status_local, status_github.
  rewrite !bind_run. cbn [ret fst snd]. repeat split; reflexivity.
Qed.

(** X17: The numbers of a status report fit together: the misplaced and the
    orphaned findings are different local folders, so together they are no
    more than the local repositories counted, and the missing findings are no
    more than the remote repositories counted. *)
Theorem status_counts_consistent (env : Env) (config : Config) (w : World) :
  let s := fst (get_sync_status env config w) in
  (status_misplaced s + status_orphaned s <= status_local_repos s)%nat
  /\ (status_missing s <= status_github_repos s)%nat.
Proof.
  intros s.
  destruct (get_sync_status_run env config w)
    as (Hl & Hg & Hdm & Hdi & Hdo & Hm & Hi & Ho & _).
  cbv zeta in *. fold s in Hl, Hg, Hdm, Hdi, Hdo, Hm, Hi, Ho.
  rewrite Hm, Ho, Hi, Hl, Hg, Hdm, Hdi, Hdo.
  split; [apply findings_fit_local | apply missing_fit_remote].
Qed.

(** X18: A report that says "in sync" means that every repository listed
    remotely has a folder of its name in the local folder of its
    organisation, and that no local folder named like a remote repository
    lies under another organisation than the one the index gives it.
    Orphaned folders do not count against it. *)
Theorem in_sync_means_complete (env : Env) (config : Config) (w : World) :
  let local_repos := status_local env config w in
  let github_repos := status_github env config w in
  status_in_sync (fst (get_sync_status env config w)) = true ->
  (forall org name repo,
     remote_entry github_repos org name repo ->
     exists path, local_entry local_repos org name path)
  /\ (forall org name path owner,
        local_entry local_repos org name path ->
        last_owner github_repos name = Some owner -> owner = org).
Proof.
  intros local_repos github_repos Hsync.
  destruct (get_sync_status_run env config w)
    as (_ & _ & Hdm & Hdi & _ & Hm & Hi & _ & Hs).
  cbv zeta in *. fold local_repos github_repos in Hdm, Hdi.
  rewrite Hs, Hm, Hi, Hdm, Hdi in Hsync. apply andb_prop in Hsync.
  destruct Hsync as [Hmis Hmiss]. apply Nat.eqb_eq in Hmis, Hmiss.
  apply List.length_zero_iff_nil in Hmis, Hmiss. split.
  - intros org name repo Hrem.
    destruct (PyDict.mem name
                match PyDict.get org local_repos with Some d => d | None => [] end) eqn:Hmem.
    + apply mem_true_iff, In_keys in Hmem. destruct Hmem as [path Hin].
      destruct (PyDict.get org local_repos) as [d|] eqn:Hget; [|destruct Hin].
      exists path, d. split; [now apply get_Some_In | exact Hin].
    + assert (In (org, name, repo) (find_missing_repos local_repos github_repos)) as Hin
        by (apply find_missing_In; auto).
      rewrite Hmiss in Hin. destruct Hin.
  - intros org name path owner Hloc Hown.
    destruct (String.eqb_spec owner org) as [E|E]; [exact E|].
    assert (In (name, org, owner, path) (find_misplaced_repos local_repos github_repos)) as Hin
      by (apply find_misplaced_In; auto).
    rewrite Hmis in Hin. destruct Hin.
Qed.

(** [acme/web] is in place; the unknown folder [notes] does not keep the
    report from saying "in sync". *)
Lemma in_sync_means_complete_witness :
  status_in_sync (fst (get_sync_status env_mirrored housekeeping_config world0)) = true
  /\ status_orphaned (fst (get_sync_status env_mirrored housekeeping_config world0)) = 1%nat
  /\ (forall org name repo,
        remote_entry (status_github env_mirrored housekeeping_config world0) org name repo ->
        exists path, local_entry (status_local env_mirrored housekeeping_config world0)
                       org name path)
  /\ (forall org name path owner,
        local_entry (status_local env_mirrored housekeeping_config world0) org name path ->
        last_owner (status_github env_mirrored housekeeping_config world0) name = Some owner ->
        owner = org).
Proof.
  split; [vm_compute; reflexivity|]. split; [vm_compute; reflexivity|].
  apply (in_sync_means_complete env_mirrored housekeeping_config world0).
  vm_compute. reflexivity.
Defined.

(** ** The default exclusion *)

(** X10: A configuration built with an empty exclusion list still hides
    [.github]: [Config.__init__] replaces the empty list by the default, so
    the remote snapshot of such a configuration never lists a repository
    named [.github], whatever the remote answers. *)
Theorem empty_exclusion_still_hides_dot_github (env : Env) (base : Path)
    (orgs : list string) (interval : Z) (auto : bool) (protocol : string) (w : World) :
  ~ remote_name
      (fst (get_github_repos env (mk_config base orgs interval [] auto protocol) w))
      ".github".
Proof.
  apply excluded_not_remote. cbn. now left.
Qed.

(** ** Termination of the move workflow *)

Lemma wait_for_transfer_returns (env : Env) (new_owner repo : string) (fuel : nat)
    (w : World) :
  (forall h, (0 <= latency env h)%Q) ->
  (60 < fuel)%nat ->
  fst (wait_for_transfer env fuel new_owner repo 120 w) <> None.
Proof.
  intros Hlat Hfuel. destruct fuel as [|n]; [lia|].
  unfold wait_for_transfer. rewrite bind_run, bind_run. cbn [time_time fst snd].
  rewrite bind_run.
  set (w1 := snd (print_info env "Waiting for transfer to complete..." w)).
  pose proof (wait_loop_returns env new_owner repo 120 (clock w1) Hlat n w1) as Hret.
  destruct (fst (wait_loop env (S n) new_owner repo 120 (clock w1) w1)) as [[|]|].
  - cbn. discriminate.
  - rewrite bind_run. cbn. discriminate.
  - exfalso. apply Hret; [|reflexivity].
    assert (inject_Z 60 <= inject_Z (Z.of_nat n))%Q as H.
    { rewrite <- Zle_Qle. lia. }
    change (inject_Z 60) with 60%Q in H. change (inject_Z 120) with 120%Q. lra.
Qed.

(** X24: [_process_move] always returns: when interactions take no negative
    time, 61 iterations of the confirmation poll are enough in every world
    and for every reply of git and the remote. *)
Theorem process_move_returns (env : Env) (fuel : nat) (self : OrgMoveHandler)
    (src_org dest_org : string) (src_path dest_path : Path) (w : World) :
  (forall h, (0 <= latency env h)%Q) ->
  (60 < fuel)%nat ->
  fst (_process_move env fuel self src_org dest_org src_path dest_path w) = Some tt.
Proof.
  intros Hlat Hfuel. unfold _process_move. rewrite bind_run.
  destruct (fst (get_repo_remote_url env dest_path w)) as [url|];
    [|rewrite bind_run; reflexivity].
  destruct (negb (PyStr.truthy url)); [rewrite bind_run; reflexivity|].
  destruct (parse_github_remote url) as [[current_owner repo]|];
    [|rewrite bind_run; reflexivity].
  destruct (negb (String.eqb current_owner src_org)); [rewrite bind_run; reflexivity|].
  rewrite bind_run, bind_run.
  destruct (fst (transfer_repo env src_org repo dest_org _)); [|reflexivity].
  unfold finish_transfer. rewrite bind_run.
  match goal with
  | |- context [wait_for_transfer env fuel dest_org repo 120 ?w3] =>
      pose proof (wait_for_transfer_returns env dest_org repo fuel w3 Hlat Hfuel) as Hret;
      destruct (fst (wait_for_transfer env fuel dest_org repo 120 w3)) as [[|]|]
  end.
  - rewrite !bind_run. reflexivity.
  - rewrite bind_run. reflexivity.
  - now destruct Hret.
Qed.

(** The workflow for the move of [acme/svc], confirmed at once. *)
Lemma process_move_returns_witness :
  (forall h, (0 <= latency env_confirmed h)%Q)
  /\ (60 < 61)%nat
  /\ fst (_process_move env_confirmed 61 demo_handler "acme" "other" svc_src svc_dest world0)
     = Some tt.
Proof.
  assert (forall h, (0 <= latency env_confirmed h)%Q) as Hlat by (intros h; discriminate).
  assert (60 < 61)%nat as Hfuel by lia.
  split; [exact Hlat|]. split; [exact Hfuel|].
  exact (process_move_returns env_confirmed 61 demo_handler "acme" "other" svc_src svc_dest
           world0 Hlat Hfuel).
Defined.

(** ** The debounce key separates the pairs of paths *)

Lemma append_inv_head (a x y : string) : a ++ x = a ++ y -> x = y.
Proof.
  induction a as [|c a IH]; intros H; [exact H|].
  rewrite !append_cons in H. injection H as H. now apply IH.
Qed.

Lemma append_char_inj (c : ascii) (s s' : string) :
  s ++ String c "" = s' ++ String c "" -> s = s'.
Proof.
  revert s'. induction s as [|a s IH]; intros [|b s'] H.
  - reflexivity.
  - rewrite append_nil_l, append_cons in H. injection H as _ H. destruct s'; discriminate.
  - rewrite append_nil_l, append_cons in H. injection H as _ H. destruct s; discriminate.
  - rewrite !append_cons in H. injection H as -> H. f_equal. now apply IH.
Qed.

Lemma slash_cut (a b t u : string) :
  no_slash a -> no_slash b -> a ++ "/" ++ t = b ++ "/" ++ u -> a = b /\ t = u.
Proof.
  intros Ha Hb H. pose proof (first_slash a b t u Ha Hb H) as E. subst b.
  split; [reflexivity|]. apply append_inv_head in H. now apply append_inv_head in H.
Qed.

(** The text of a path two levels below [base]. *)
Lemma str_under (base : Path) :
  exists pre,
    (pre = "" \/ exists q, pre = "/" ++ q)
    /\ forall x y, Pathlib.str (base ++ [x; y])%list = pre ++ "/" ++ x ++ "/" ++ y.
Proof.
  induction base as [|b base IH].
  - exists "". split; [now left | reflexivity].
  - destruct IH as (pre & _ & H). exists ("/" ++ b ++ pre). split; [right; now exists (b ++ pre)|].
    intros x y. specialize (H x y). unfold Pathlib.str, PyStr.join in *.
    assert (String.concat "/" ((b :: base) ++ [x; y])%list
            = b ++ "/" ++ String.concat "/" (base ++ [x; y])%list) as ->
      by (destruct base; reflexivity).
    rewrite H, !append_assoc. reflexivity.
Qed.

Lemma move_key_of_inj (base : Path) (so sn do_ dn so' sn' do' dn' : string) :
  no_slash so -> no_slash sn -> no_slash do_ ->
  no_slash so' -> no_slash sn' -> no_slash do' ->
  move_key_of (base ++ [so; sn])%list (base ++ [do_; dn])%list
  = move_key_of (base ++ [so'; sn'])%list (base ++ [do'; dn'])%list ->
  so = so' /\ sn = sn' /\ do_ = do' /\ dn = dn'.
Proof.
  intros Hso Hsn Hdo Hso' Hsn' Hdo' H. unfold move_key_of in H.
  destruct (str_under base) as (pre & Hpre & Hstr). rewrite !Hstr in H.
  rewrite !append_assoc in H. apply append_inv_head in H. apply append_inv_head in H.
  apply slash_cut in H; [|assumption|assumption]. destruct H as [<- H].
  assert (no_slash (sn ++ ":")) as Hc by (apply no_slash_app; [exact Hsn | reflexivity]).
  assert (no_slash (sn' ++ ":")) as Hc' by (apply no_slash_app; [exact Hsn' | reflexivity]).
  assert (forall X Y : string, pre ++ "/" ++ X = pre ++ "/" ++ Y -> X = Y) as Hcancel.
  { intros X Y E. apply append_inv_head in E. now apply append_inv_head in E. }
  assert (sn ++ ":" = sn' ++ ":"
          /\ pre ++ "/" ++ do_ ++ "/" ++ dn = pre ++ "/" ++ do' ++ "/" ++ dn') as [Hn Hrest].
  { destruct Hpre as [->|[q ->]].
    - rewrite !append_nil_l in H.
      rewrite <- (append_assoc sn ":"), <- (append_assoc sn' ":") in H.
      apply slash_cut in H; [|assumption|assumption]. destruct H as [Hn H].
      split; [exact Hn|]. rewrite !append_nil_l. now f_equal.
    - rewrite !append_assoc in H.
      rewrite <- (append_assoc sn ":"), <- (append_assoc sn' ":") in H.
      apply slash_cut in H; [|assumption|assumption]. destruct H as [Hn H].
      split; [exact Hn|]. rewrite !append_assoc. now f_equal. }
  apply append_char_inj in Hn. apply Hcancel in Hrest.
  apply slash_cut in Hrest; [|assumption|assumption]. destruct Hrest as [<- <-]. auto.
Qed.

(** An accepted notification with clean paths moves a folder two levels
    below the base path. *)
Lemma accepted_shape (env : Env) (self : OrgMoveHandler) (w : World) (event : FsEvent) :
  accepted env self w event = true ->
  clean_event event ->
  exists so sn do_ dn,
    event_src event = (base_path (config self) ++ [so; sn])%list
    /\ event_dest event = (base_path (config self) ++ [do_; dn])%list
    /\ no_slash so /\ no_slash sn /\ no_slash do_ /\ no_slash dn.
Proof.
  intros Hacc [Hsrc Hdest]. destruct event as [src_path dest_path|]; [|discriminate].
  cbn [event_src event_dest] in *. unfold accepted in Hacc.
  destruct (_get_org_from_path self src_path) as [src_org|] eqn:Hso; [|discriminate].
  destruct (_get_org_from_path self dest_path) as [dest_org|] eqn:Hdo; [|discriminate].
  repeat (apply andb_prop in Hacc; destruct Hacc as [Hacc ?]).
  destruct (org_from_path _ _ _ Hso) as [srest Hs].
  destruct (org_from_path _ _ _ Hdo) as [drest Hd].
  assert (clean_part src_org) as Hcs.
  { rewrite Hs in Hsrc. apply Forall_app in Hsrc. destruct Hsrc as [_ Hsrc].
    now inversion Hsrc. }
  assert (clean_part dest_org) as Hcd.
  { rewrite Hd in Hdest. apply Forall_app in Hdest. destruct Hdest as [_ Hdest].
    now inversion Hdest. }
  destruct (direct_child_clean _ src_path src_org srest Hcs Hs) as [src_name ->];
    [assumption|].
  destruct (direct_child_clean _ dest_path dest_org drest Hcd Hd) as [dest_name ->];
    [assumption|].
  exists src_org, src_name, dest_org, dest_name.
  split; [exact Hs|]. split; [exact Hd|].
  rewrite Hs in Hsrc. rewrite Hd in Hdest.
  apply Forall_app in Hsrc. destruct Hsrc as [_ Hsrc].
  apply Forall_app in Hdest. destruct Hdest as [_ Hdest].
  inversion Hsrc as [|? ? _ Hsn]. inversion Hsn as [|? ? Hn _].
  inversion Hdest as [|? ? _ Hdn]. inversion Hdn as [|? ? Hn' _].
  repeat split; [apply Hcs | apply Hn | apply Hcd | apply Hn'].
Qed.

(** Two accepted notifications with the same debounce key carry the same
    pair of paths. *)
Lemma key_separates_pairs (env : Env) (self self' : OrgMoveHandler) (w w' : World)
    (event event' : FsEvent) :
  config self' = config self ->
  accepted env self w event = true -> clean_event event ->
  accepted env self' w' event' = true -> clean_event event' ->
  move_key_of (event_src event') (event_dest event')
  = move_key_of (event_src event) (event_dest event) ->
  event_src event' = event_src event /\ event_dest event' = event_dest event.
Proof.
  intros Hcfg Hacc Hclean Hacc' Hclean' Hkey.
  destruct (accepted_shape env self w event Hacc Hclean)
    as (so & sn & do_ & dn & Hs & Hd & ? & ? & ? & ?).
  destruct (accepted_shape env self' w' event' Hacc' Hclean')
    as (so' & sn' & do' & dn' & Hs' & Hd' & ? & ? & ? & ?).
  rewrite Hcfg in Hs', Hd'. rewrite Hs, Hd, Hs', Hd' in *.
  apply move_key_of_inj in Hkey; try assumption.
  destruct Hkey as (-> & -> & -> & ->). auto.
Qed.

Lemma on_moved_keeps_config (env : Env) (self : OrgMoveHandler) (event : FsEvent) (w : World) :
  config (fst (fst (on_moved env self event w))) = config self.
Proof.
  rewrite on_moved_decision. destruct (accepted env self w event); [|reflexivity].
  unfold debounce. destruct (pending_moves self !! _) as [seen|]; [destruct (Qltb _ _)|];
    reflexivity.
Qed.

Lemma filter_length_ext {A : Type} (f g : A -> bool) (l : list A) :
  Forall (fun x => f x = g x) l ->
  List.length (List.filter f l) = List.length (List.filter g l).
Proof.
  induction 1 as [|x l Hx _ IH]; [reflexivity|].
  cbn [List.filter]. rewrite Hx. destruct (g x); cbn [List.length]; now rewrite IH.
Qed.

(** Every task a stream of clean notifications starts is the task of an
    accepted notification of the stream. *)
Lemma delivered_tasks (env : Env) (self0 : OrgMoveHandler) (P : option MoveTask -> Prop)
    (l : list (World * FsEvent)) :
  P None ->
  (forall self w ev,
     config self = config self0 -> accepted env self w ev = true -> clean_event ev ->
     P (task_of self ev)) ->
  Forall (fun n => clean_event (snd n)) l ->
  forall self, config self = config self0 -> Forall P (snd (deliver env self l)).
Proof.
  intros Hnone Htask Hall. induction Hall as [|[w ev] l Hclean _ IH]; intros self Hcfg.
  - constructor.
  - rewrite deliver_cons. cbn [snd]. constructor.
    + rewrite on_moved_decision. destruct (accepted env self w ev) eqn:Hacc; [|exact Hnone].
      unfold debounce.
      destruct (pending_moves self !! _) as [seen|]; [destruct (Qltb _ _)|]; cbn [snd];
        (exact Hnone || now apply (Htask self w ev)).
    + apply IH. exact (eq_trans (on_moved_keeps_config env self ev w) Hcfg).
Qed.

(** Among the tasks a stream of clean notifications starts, those for the
    key of an accepted pair are those that carry the pair. *)
Lemma pair_count_is_key_count (env : Env) (self0 : OrgMoveHandler) (w0 : World)
    (event : FsEvent) (l : list (World * FsEvent)) :
  accepted env self0 w0 event = true -> clean_event event ->
  Forall (fun n => clean_event (snd n)) l ->
  forall self, config self = config self0 ->
  dispatched_for_pair (event_src event) (event_dest event) (snd (deliver env self l))
  = dispatched_for (move_key_of (event_src event) (event_dest event))
      (snd (deliver env self l)).
Proof.
  intros Hacc0 Hclean0 Hall self Hcfg. unfold dispatched_for_pair, dispatched_for.
  apply filter_length_ext.
  apply (delivered_tasks env self0); [reflexivity | | exact Hall | exact Hcfg].
  intros self' w ev Hcfg' Hacc Hclean.
  destruct (accepted_task env self' w ev Hacc) as (so & do_ & ->).
  destruct (String.eqb_spec (move_key_of (event_src ev) (event_dest ev))
              (move_key_of (event_src event) (event_dest event))) as [E|E].
  - apply bool_decide_eq_true_2.
    apply (key_separates_pairs env self0 self' w0 w event ev); assumption.
  - apply bool_decide_eq_false_2. intros [Es Ed]. apply E. now rewrite Es, Ed.
Qed.

Lemma other_pair_other_key (env : Env) (self0 : OrgMoveHandler) (w0 : World)
    (event : FsEvent) (l : list (World * FsEvent)) :
  accepted env self0 w0 event = true -> clean_event event ->
  Forall (fun n => clean_event (snd n)) l ->
  Forall (fun n => ~ carries env self0 (event_src event) (event_dest event) n) l ->
  Forall (fun n => ~ touches env self0 (move_key_of (event_src event) (event_dest event)) n) l.
Proof.
  intros Hacc0 Hclean0 Hclean Hnot. rewrite List.Forall_forall in *.
  intros [w ev] Hin [Hacc Hkey]. apply (Hnot _ Hin). cbn [fst snd] in *.
  split; [exact Hacc|].
  exact (key_separates_pairs env self0 self0 w0 w event ev eq_refl Hacc0 Hclean0 Hacc
           (Hclean _ Hin) Hkey).
Qed.

(** C6: a fresh handler receives a stream of notifications, all with clean
    paths, in which two accepted notifications carry the same (source,
    destination) pair and no other accepted notification carries that pair;
    notifications of other pairs may come before, between and after them.
    If the clock readings of the two are less than the 2-second window apart,
    one handling task is started for the pair; if they are 2 seconds or more
    apart, two are.  The decision itself: an accepted notification is
    suppressed when its key has a recorded sighting less than the window ago,
    and otherwise its clock reading is recorded and its task is started. *)
Theorem C6_debounce_dedup (env : Env) (cfg : Config) (observer : bool) (event : FsEvent)
    (w1 w2 : World) (pre mid post : list (World * FsEvent)) :
  let self0 := new_handler cfg observer in
  let src := event_src event in
  let dest := event_dest event in
  let key := move_key_of src dest in
  accepted env self0 w1 event = true ->
  accepted env self0 w2 event = true ->
  clean_event event ->
  Forall (fun n => clean_event (snd n)) (pre ++ mid ++ post)%list ->
  Forall (fun n => ~ carries env self0 src dest n) (pre ++ mid ++ post)%list ->
  let t1 := sighting_time env w1 event in
  let t2 := sighting_time env w2 event in
  let tasks :=
    snd (deliver env self0 (pre ++ (w1, event) :: mid ++ (w2, event) :: post)%list) in
  ((t2 - t1 < 2)%Q -> dispatched_for_pair src dest tasks = 1%nat)
  /\ ((2 <= t2 - t1)%Q -> dispatched_for_pair src dest tasks = 2%nat)
  /\ (forall self w,
        accepted env self w event = true ->
        fst (on_moved env self event w)
        = match pending_moves self !! key with
          | Some seen =>
              if Qltb (sighting_time env w event - seen) (debounce_seconds self)
              then (self, None)
              else (record_move self key (sighting_time env w event), task_of self event)
          | None => (record_move self key (sighting_time env w event), task_of self event)
          end).
Proof.
  intros self0 src dest key Hacc1 Hacc2 Hclean Hothers Hnot t1 t2 tasks.
  subst src dest key t1 t2 tasks.
  pose proof (other_pair_other_key env self0 w1 event _ Hacc1 Hclean Hothers Hnot) as Hkeys.
  apply Forall_app in Hkeys. destruct Hkeys as [Hpre Hkeys].
  apply Forall_app in Hkeys. destruct Hkeys as [Hmid Hpost].
  pose proof (two_sightings env cfg observer event w1 w2 pre mid post
                Hacc1 Hacc2 Hpre Hmid Hpost) as Hcount.
  assert (Forall (fun n => clean_event (snd n))
            (pre ++ (w1, event) :: mid ++ (w2, event) :: post)%list) as Hstream.
  { apply Forall_app in Hothers. destruct Hothers as [Hc1 Hothers].
    apply Forall_app in Hothers. destruct Hothers as [Hc2 Hc3].
    apply Forall_app. split; [exact Hc1|]. constructor; [exact Hclean|].
    apply Forall_app. split; [exact Hc2|]. constructor; [exact Hclean | exact Hc3]. }
  pose proof (pair_count_is_key_count env self0 w1 event _ Hacc1 Hclean Hstream self0 eq_refl)
    as Hpair.
  cbv zeta in Hcount. fold self0 in Hcount.
  split; [|split].
  - intros Hgap. apply Qltb_true_iff in Hgap. now rewrite Hpair, Hcount, Hgap.
  - intros Hgap. apply Qltb_false_iff in Hgap. now rewrite Hpair, Hcount, Hgap.
  - intros self w Hacc. now rewrite on_moved_decision, Hacc.
Qed.

(** The move [acme/svc -> other/svc] is notified at the readings 0 and 1,
    with the move of [web] notified in between: one task is started for
    [svc].  Notified at 0 and 3, with the move of [web] at 5/2 in between:
    two tasks are started for [svc]. *)
Lemma C6_debounce_dedup_witness :
  accepted env_stale_remote demo_handler (world_at 0) svc_moved = true
  /\ accepted env_stale_remote demo_handler (world_at 1) svc_moved = true
  /\ accepted env_stale_remote demo_handler (world_at 3) svc_moved = true
  /\ accepted env_stale_remote demo_handler (world_at (5 # 2)) web_moved = true
  /\ dispatched_for_pair svc_src svc_dest
       (snd (deliver env_stale_remote demo_handler
               [(world_at 0, svc_moved); (world_at (1 # 2), web_moved);
                (world_at 1, svc_moved)]))
     = 1%nat
  /\ dispatched_for_pair svc_src svc_dest
       (snd (deliver env_stale_remote demo_handler
               [(world_at 0, svc_moved); (world_at (5 # 2), web_moved);
                (world_at 3, svc_moved)]))
     = 2%nat.
Proof.
  assert (clean_event svc_moved) as Hsvc by (split; repeat constructor; discriminate).
  assert (clean_event web_moved) as Hweb by (split; repeat constructor; discriminate).
  assert (forall t, Forall (fun n : World * FsEvent => clean_event (snd n))
                      ([] ++ [(world_at t, web_moved)] ++ [])%list) as Hclean
    by (intros t; cbn [app]; constructor; [exact Hweb | constructor]).
  assert (forall t,
            Forall
              (fun n => ~ carries env_stale_remote (new_handler demo_config true)
                            (event_src svc_moved) (event_dest svc_moved) n)
              ([] ++ [(world_at t, web_moved)] ++ [])%list) as Hother.
  { intros t. cbn [app]. constructor; [|constructor].
    intros (_ & H & _). cbv in H. discriminate H. }
  assert (sighting_time env_stale_remote (world_at 1) svc_moved
          - sighting_time env_stale_remote (world_at 0) svc_moved < 2)%Q as Hnear
    by reflexivity.
  assert (2 <= sighting_time env_stale_remote (world_at 3) svc_moved
               - sighting_time env_stale_remote (world_at 0) svc_moved)%Q as Hfar
    by (vm_compute; discriminate).
  split; [reflexivity|]. split; [reflexivity|]. split; [reflexivity|]. split; [reflexivity|].
  split.
  - exact (proj1 (C6_debounce_dedup env_stale_remote demo_config true svc_moved
                    (world_at 0) (world_at 1) [] [(world_at (1 # 2), web_moved)] []
                    eq_refl eq_refl Hsvc (Hclean _) (Hother _))
             Hnear).
  - exact (proj1 (proj2 (C6_debounce_dedup env_stale_remote demo_config true svc_moved
                           (world_at 0) (world_at 3) [] [(world_at (5 # 2), web_moved)] []
                           eq_refl eq_refl Hsvc (Hclean _) (Hother _)))
             Hfar).
Defined.

(** ** Where a sync writes *)

Lemma github_keys_configured (env : Env) (config : Config) (w : World) (org : string) :
  In org (PyDict.keys (fst (get_github_repos env config w))) -> In org (organizations config).
Proof.
  unfold get_github_repos.
  set (P := fun (done : list string) (s : GithubRepos) (_ : World) =>
              forall o, In o (PyDict.keys s) -> In o done).
  match goal with
  | |- context [for_each _ ?body _ _] =>
      pose proof (for_each_ind P body) as Hind
  end.
  intros Hin. refine (Hind _ (organizations config) [] [] w _ org Hin); clear Hin.
  - intros done o s w' Hs. rewrite bind_run. cbn [ret fst snd].
    set (repos := fst (list_org_repos env o w')).
    assert (P (done ++ [o])%list (PyDict.set o [] s) w') as H1.
    { intros x Hx. apply keys_set_In in Hx. apply in_or_app.
      destruct Hx as [->|Hx]; [right; now left | left; now apply Hs]. }
    clearbody repos. revert H1. generalize (PyDict.set o [] s).
    induction repos as [|repo repos IH]; intros s1 H1; [exact H1|].
    cbn [fold_left]. apply IH. destruct (negb _); [|exact H1].
    intros x Hx. rewrite set_inner_keys in Hx. now apply H1.
  - intros o [].
Qed.

Lemma remote_org_configured (env : Env) (config : Config) (w : World)
    (org name : string) (repo : Repository) :
  remote_entry (fst (get_github_repos env config w)) org name repo ->
  In org (organizations config).
Proof.
  intros (repos & Hin & _). apply (github_keys_configured env config w).
  apply In_keys. now exists repos.
Qed.

Lemma owner_configured (env : Env) (config : Config) (w : World) (name org : string) :
  last_owner (fst (get_github_repos env config w)) name = Some org ->
  In org (organizations config).
Proof.
  intros H. apply last_owner_owning in H.
  destruct H as (before & repos & after & Heq & _).
  apply (github_keys_configured env config w). apply In_keys. exists repos.
  rewrite Heq. apply in_or_app. right. now left.
Qed.

Lemma lands_under_other (config : Config) (e : Event) :
  is_move e = false -> is_clone e = false -> lands_under config e.
Proof. destruct e; cbn; try tauto; try discriminate. intros _ -> H. discriminate. Qed.

Lemma mkdirs_happen (env : Env) (config : Config) (orgs : list string) (w : World) :
  let w' := snd (for_each orgs (fun org _ => path_mkdir env (get_org_path config org)) tt w) in
  extends any_event w w'
  /\ forall org, In org orgs -> happened (EMkdir (get_org_path config org)) w w'.
Proof.
  revert w. induction orgs as [|o orgs IH]; intros w w'.
  - split; [apply extends_refl | intros org []].
  - unfold w'. cbn [for_each]. rewrite bind_run.
    set (w1 := snd (path_mkdir env (get_org_path config o) w)).
    destruct (IH w1) as [Hext Hall]. cbv zeta in Hext, Hall.
    assert (extends any_event w w1) as H01.
    { apply emits_extends, emits_interact. exact I. }
    split; [exact (extends_trans _ _ _ _ H01 Hext)|].
    intros org [<-|Hin].
    + apply happened_later with (P := any_event) (w1 := w1); [apply happened_interact | exact Hext].
    + apply happened_earlier with (P := any_event) (w1 := w1); [exact H01 | now apply Hall].
Qed.

Lemma for_each_invariant_In {A S : Type} (P : S -> Prop) (body : A -> S -> M S) (l : list A) :
  (forall x s w, In x l -> P s -> P (fst (body x s w))) ->
  forall s w, P s -> P (fst (for_each l body s w)).
Proof.
  induction l as [|x l IH]; intros Hbody s w Hs; cbn [for_each].
  - exact Hs.
  - rewrite bind_run. apply IH.
    + intros y t w' Hy. apply Hbody. now right.
    + apply Hbody; [now left | exact Hs].
Qed.

(** The names of the local snapshot are those of folders [iterdir] gave. *)
Lemma local_names_proper (env : Env) (config : Config) (w : World) :
  proper_replies env ->
  forall org name path,
    local_entry (fst (get_local_repos env config w)) org name path -> proper_name name.
Proof.
  intros [_ Hdir]. unfold get_local_repos.
  set (P := fun s : LocalRepos =>
              forall org name path, local_entry s org name path -> proper_name name).
  apply (for_each_invariant P).
  2:{ intros org name path (repos & [] & _). }
  intros org s w' Hs.
  assert (P (PyDict.set org [] s)) as H1.
  { intros o n p Hloc. apply (Hs o n p). now apply local_entry_set_empty with org. }
  rewrite bind_run. destruct (negb _); [exact H1|]. rewrite bind_run.
  apply for_each_invariant_In; [|exact H1].
  intros item s' w'' Hin Hs'.
  pose proof (local_item_step env org item s' w'') as [_ Hstep]. cbv zeta in Hstep.
  assert (proper_name (Pathlib.name item)) as Hname.
  { pose proof (Hdir (history (snd (path_exists env (get_org_path config org) w')))
                  (get_org_path config org)) as Hall.
    rewrite List.Forall_forall in Hall. now apply Hall. }
  enough (forall r : LocalRepos,
            r = s' \/ r = set_inner org (Pathlib.name item) item s' -> P r) as Hgen.
  { apply Hgen. destruct Hstep as [E|[E _]]; [left | right]; exact E. }
  intros r [->| ->]; [exact Hs'|].
  intros o n p Hloc. apply local_entry_set_inner in Hloc.
  destruct Hloc as [[-> _]|Hloc]; [exact Hname | now apply (Hs' o n p)].
Qed.

Lemma list_org_repos_proper (env : Env) (org : string) (w : World) :
  proper_replies env ->
  Forall (fun repo => proper_name (repo_name repo)) (fst (list_org_repos env org w)).
Proof.
  intros [Hdecode _]. unfold list_org_repos. rewrite bind_run.
  destruct (negb _); [rewrite bind_run; constructor|].
  destruct (decode_repo_list env _) as [repos|] eqn:E; [|rewrite bind_run; constructor].
  exact (Hdecode _ _ E).
Qed.

(** The names of the remote snapshot are those of decoded listings. *)
Lemma remote_names_proper (env : Env) (config : Config) (w : World) :
  proper_replies env ->
  forall org name repo,
    remote_entry (fst (get_github_repos env config w)) org name repo -> proper_name name.
Proof.
  intros Hproper. unfold get_github_repos.
  set (P := fun s : GithubRepos =>
              forall org name repo, remote_entry s org name repo -> proper_name name).
  apply (for_each_invariant P).
  2:{ intros org name repo (repos & [] & _). }
  intros org s w' Hs. rewrite bind_run. cbn [ret fst snd].
  pose proof (list_org_repos_proper env org w' Hproper) as Hall.
  assert (P (PyDict.set org [] s)) as H1.
  { intros o n r Hrem. apply (Hs o n r). now apply remote_entry_set_empty with org. }
  revert H1. generalize (PyDict.set org [] s).
  induction Hall as [|repo repos Hrepo _ IH]; intros s1 H1; [exact H1|].
  cbn [fold_left]. apply IH. destruct (negb _); [|exact H1].
  intros o n r Hrem. apply remote_entry_set_inner in Hrem.
  destruct Hrem as [[-> _]|Hrem]; [exact Hrepo | now apply (H1 o n r)].
Qed.

Lemma repo_path_proper (config : Config) (org name : string) :
  proper_name org -> proper_name name ->
  get_org_path config org = (base_path config ++ [org])%list
  /\ get_repo_path config org name = (base_path config ++ [org; name])%list.
Proof.
  intros [Horg _] [Hname _]. unfold get_org_path, get_repo_path.
  rewrite (div_clean _ _ Horg), (div_clean _ _ Hname), <- app_assoc. auto.
Qed.

(** X27: assume that the configured organisation names, the repository
    names of every decoded listing and the folders every [iterdir] yields are
    proper names (not empty, not [.] or [..], without a slash).  Then a sync
    that is no dry run first creates the folder [base_path/org] of every
    configured organisation, before it moves or clones anything; and every
    move and every [git clone] it then makes has as its destination
    [base_path/org/name] for a configured organisation [org] and a proper
    name [name]: a folder directly below the folder of that organisation. *)
Theorem sync_writes_under_created_folders (env : Env) (config : Config)
    (clone_missing move_misplaced : bool) (w : World) :
  Forall proper_name (organizations config) ->
  proper_replies env ->
  let run := sync_github_to_local env config clone_missing move_misplaced false w in
  exists first rest,
    events_since w (snd run) = (first ++ rest)%list
    /\ Forall no_transfer_of_files first
    /\ (forall org, In org (organizations config) ->
                    In (EMkdir (base_path config ++ [org])%list) first)
    /\ Forall (lands_under config) rest.
Proof.
  intros Horgs Hproper run.
  assert (forall org, In org (organizations config) -> proper_name org) as Horg
    by (now apply List.Forall_forall).
  destruct (sync_by_phases env config clone_missing move_misplaced false w) as [_ Hrun].
  cbv zeta in Hrun. unfold run. rewrite Hrun. clear Hrun run.
  set (local_repos := sync_local env config w) in *.
  set (github_repos := sync_github env config w) in *.
  set (p := sync_prepare env config false w) in *.
  set (m := move_phase env config move_misplaced false local_repos github_repos
              empty_result (snd p)) in *.
  set (c := clone_phase env config clone_missing false local_repos github_repos
              (fst m) (snd m)) in *.
  set (final := orphan_phase env local_repos github_repos (fst c) (snd c)).
  assert (extends no_transfer_of_files w (snd p)) as (first & Hfirst & Ffirst).
  { apply emits_extends, emits_sync_prepare; intros; split; reflexivity. }
  assert (forall org, In org (organizations config) ->
                      In (EMkdir (base_path config ++ [org])%list) first) as Hmk.
  { intros org Hin.
    destruct (repo_path_proper config org org (Horg _ Hin) (Horg _ Hin)) as [<- _].
    enough (happened (EMkdir (get_org_path config org)) w (snd p)) as H.
    { unfold happened in H. now rewrite (events_since_app _ _ _ Hfirst) in H. }
    unfold p, sync_prepare. rewrite bind_run.
    set (w0 := snd (print_info env "Fetching repository information..." w)).
    rewrite bind_run. set (w1 := snd (get_local_repos env config w0)).
    rewrite bind_run. set (w2 := snd (get_github_repos env config w1)).
    rewrite bind_run. cbn [negb ret fst snd].
    apply happened_earlier with (P := any_event) (w1 := w2).
    - apply (extends_trans _ _ w0).
      { apply emits_extends, emits_interact. exact I. }
      apply (extends_trans _ _ w1).
      { apply emits_extends, emits_get_local_repos; intros; exact I. }
      apply emits_extends, emits_get_github_repos; intros; exact I.
    - now apply (mkdirs_happen env config (organizations config) w2). }
  assert (extends (lands_under config) (snd p) (snd final)) as (rest & Hrest & Frest).
  { apply (extends_trans _ _ (snd m)).
    { apply emits_extends. unfold m, move_phase. destruct move_misplaced; [|apply emits_ret].
      apply emits_for_each_In. intros [[[name from_org] to_org] path] r Hin.
      apply find_misplaced_In in Hin. destruct Hin as (Hloc & Hown & _).
      assert (In to_org (organizations config)) as Hto.
      { unfold github_repos, sync_github in Hown. exact (owner_configured _ _ _ _ _ Hown). }
      assert (proper_name name) as Hname.
      { unfold local_repos, sync_local in Hloc.
        exact (local_names_proper _ _ _ Hproper _ _ _ Hloc). }
      destruct (repo_path_proper config to_org name (Horg _ Hto) Hname) as [_ Hpath].
      unfold move_one, print_info, print_error, print_success. rewrite Hpath.
      apply emits_bind; [apply emits_interact; exact I | intros _].
      apply emits_bind.
      { apply emits_shutil_move. intros reply. exists to_org, name. auto. }
      intros [e|].
      - apply emits_bind; [apply emits_interact; exact I | intros _; apply emits_ret].
      - apply emits_bind.
        + destruct (auto_update_remotes config); [|apply emits_ret].
          apply emits_bind; [|intros _; apply emits_ret].
          apply emits_set_repo_remote_url;
            try (intros; apply lands_under_other; reflexivity).
        + intros _. apply emits_bind; [apply emits_interact; exact I | intros _; apply emits_ret]. }
    apply (extends_trans _ _ (snd c)).
    { apply emits_extends. unfold c, clone_phase. destruct clone_missing; [|apply emits_ret].
      apply emits_for_each_In. intros [[org name] repo] r Hin.
      apply find_missing_In in Hin. destruct Hin as [Hrem _].
      assert (In org (organizations config)) as Hin.
      { unfold github_repos, sync_github in Hrem. exact (remote_org_configured _ _ _ _ _ _ Hrem). }
      assert (proper_name name) as Hname.
      { unfold github_repos, sync_github in Hrem.
        exact (remote_names_proper _ _ _ Hproper _ _ _ Hrem). }
      destruct (repo_path_proper config org name (Horg _ Hin) Hname) as [_ Hpath].
      unfold clone_one, clone_repo, print_warning, print_error, print_success. rewrite Hpath.
      apply emits_bind; [|intros [|]; apply emits_ret].
      apply emits_bind.
      { apply emits_subprocess_run. intros reply _.
        exists org, name, (build_github_url org name (clone_protocol config)). auto. }
      intros result. destruct (negb _); [destruct (PyStr.contains _ _)|];
        (apply emits_bind; [apply emits_interact; exact I | intros _; apply emits_ret]). }
    apply emits_extends, emits_orphan_phase. intros; exact I. }
  exists first, rest. split; [|auto].
  apply events_since_app. rewrite Hrest, Hfirst, <- app_assoc. reflexivity.
Qed.

(** [tools] lies under [acme] and is listed under [other]: the folders of
    both organisations are created first, and the move and the clone that
    follow go to [orgs/other/tools]. *)
Lemma sync_writes_under_created_folders_witness :
  Forall proper_name (organizations manual_config)
  /\ proper_replies env_misplaced
  /\ (let run := sync_github_to_local env_misplaced manual_config true true false world0 in
      exists first rest,
        events_since world0 (snd run) = (first ++ rest)%list
        /\ Forall no_transfer_of_files first
        /\ (forall org, In org (organizations manual_config) ->
                        In (EMkdir (base_path manual_config ++ [org])%list) first)
        /\ Forall (lands_under manual_config) rest).
Proof.
  assert (forall c, c = "acme" \/ c = "other" \/ c = "tools" -> proper_name c) as Hname.
  { intros c [->|[->| ->]]; repeat split; discriminate. }
  assert (Forall proper_name (organizations manual_config)) as Horgs
    by (repeat constructor; apply Hname; auto).
  assert (proper_replies env_misplaced) as Hproper.
  { split.
    - intros out repos. cbn [decode_repo_list env_misplaced].
      destruct (String.eqb out "other"); intros H; injection H as <-;
        repeat constructor; apply Hname; auto.
    - intros h p. cbn [iterdir_reply env_misplaced].
      destruct (bool_decide _); repeat constructor; apply Hname; auto. }
  split; [exact Horgs|]. split; [exact Hproper|].
  exact (sync_writes_under_created_folders env_misplaced manual_config true true world0
           Horgs Hproper).
Defined.
